(** * Clearance-aware grid pathfinding (examples/others/pathfinding_sdf_enhanced.c)

    A shallow embedding of the clearance-field rebuild of [main] and of
    [FindPath], followed by the properties of the specification that were
    settled against them.

    Conventions of the embedding.
    - C's [int] is modelled by [Z]; [/] on [int] is [Z.quot] (truncation
      towards zero).  The theorems speak about runs in which no signed
      overflow occurs (C leaves signed overflow undefined); none occurs
      for the wall factors and clearances of [main], as the part on the
      range of the scores shows.
    - [blockedCells] and [sdfCells] are arrays of [char] in the source and
      lists of [Z] here; the rebuild stores clearances from [0] to [10]
      only, see [rebuilt_clearance_nonneg].
    - Arrays are lists.  Every array access of the source is a checked
      [rd] or [wr]: an index outside the array yields [Fault], so that a
      run ending in [Done] performed in-bounds accesses only.
    - [while] loops without an evident bound take fuel and yield [Timeout]
      when it runs out.
    - The two structs share the field names [x] and [y]; projections are
      global in Rocq, so they are called [nx], [ny] for [PathfindingNode]
      and [ox], [oy] for [NeighborOffset]. *)

From Stdlib Require Import ZArith Lia List Bool.
From stdpp Require Import base tactics option list list_numbers.

Local Open Scope Z_scope.

(** ** Outcomes of a run *)

Inductive outcome (A : Type) : Type :=
  | Done (a : A)
  | Fault
  | Timeout.
Arguments Done {A} a.
Arguments Fault {A}.
Arguments Timeout {A}.

#[global] Instance outcome_ret : MRet outcome := fun A a => Done a.
#[global] Instance outcome_bind : MBind outcome := fun A B k m =>
  match m with
  | Done a => k a
  | Fault => Fault
  | Timeout => Timeout
  end.

(** [a[i]] as an r-value. *)
Definition rd {A} (a : list A) (i : Z) : outcome A :=
  if 0 <=? i then
    match a !! Z.to_nat i with
    | Some v => Done v
    | None => Fault
    end
  else Fault.

(** [a[i] = v]. *)
Definition wr {A} (a : list A) (i : Z) (v : A) : outcome (list A) :=
  if (0 <=? i) && (i <? Z.of_nat (length a)) then Done (<[Z.to_nat i := v]> a)
  else Fault.

(** A [for] loop over the values of [l], threading the state [s]. *)
Fixpoint for_each {A S} (body : S -> A -> outcome S) (l : list A) (s : S)
  : outcome S :=
  match l with
  | [] => Done s
  | a :: l' => s' ← body s a; for_each body l' s'
  end.

(** ** Data model *)

Record PathfindingNode : Type := mkNode {
  nx : Z;
  ny : Z;
  fromX : Z;
  fromY : Z;
  score : Z
}.

Record NeighborOffset : Type := mkOffset {
  ox : Z;
  oy : Z;
  distance : Z
}.

#[global] Instance NeighborOffset_eq_dec : EqDecision NeighborOffset.
Proof. solve_decision. Defined.

Definition gridWidth : Z := 80.
Definition gridHeight : Z := 45.

(** [isqrt[i] = (int)ceilf(sqrtf(i))] for [i] in [0, 256).  On these
    arguments the single-precision square root is exact on squares and
    lies strictly between two integers otherwise, so the table holds the
    integer ceiling of the square root. *)
Definition ceil_sqrt (i : Z) : Z :=
  let s := Z.sqrt i in
  if s * s =? i then s else s + 1.

Definition isqrt : list Z := ceil_sqrt <$> seqZ 0 256.

(** The table of jump offsets built at the start of [main]:
    [x] and [y] range over [-10 .. 10], [x] in the outer loop. *)
Definition neighborOffsets : list NeighborOffset :=
  flat_map (fun x =>
    flat_map (fun y =>
      match isqrt !! Z.to_nat (x * x + y * y) with
      | Some d => if (d <=? 10) && (d >? 0) then [mkOffset x y d] else []
      | None => []
      end) (seqZ (-10) 21)) (seqZ (-10) 21).

Definition neighborOffsetCount : Z := Z.of_nat (length neighborOffsets).

(** ** The clearance-field rebuild ([main], the [updateSDF] block) *)

Definition sdf_distance (sdfFunction dx dy : Z) : outcome Z :=
  if sdfFunction =? 0 then rd isqrt (dx * dx + dy * dy)
  else if sdfFunction =? 1 then
    Done (if Z.abs dx <? Z.abs dy then Z.abs dy else Z.abs dx)
  else if sdfFunction =? 2 then Done (Z.abs dx + Z.abs dy)
  else Done 0.

(** Body of the innermost loop, for the blocked cell [(x, y)] and the
    window cell [(i, j)]. *)
Definition splat_cell (sdfFunction x y j : Z) (sdfCells : list Z) (i : Z)
  : outcome (list Z) :=
  let dx := x - i in
  let dy := y - j in
  d ← sdf_distance sdfFunction dx dy;
  cur ← rd sdfCells (j * gridWidth + i);
  if (d <? cur) && (d <? 10) then wr sdfCells (j * gridWidth + i) d
  else Done sdfCells.

(** What the rebuild does for one blocked cell [(x, y)]. *)
Definition splat (sdfFunction x y : Z) (sdfCells : list Z) : outcome (list Z) :=
  sdfCells ← wr sdfCells (y * gridWidth + x) 0;
  let minX := if x - 10 <? 0 then 0 else x - 10 in
  let minY := if y - 10 <? 0 then 0 else y - 10 in
  let maxX := if x + 10 >=? gridWidth then gridWidth - 1 else x + 10 in
  let maxY := if y + 10 >=? gridHeight then gridHeight - 1 else y + 10 in
  for_each (fun sdfCells j =>
      for_each (splat_cell sdfFunction x y j)
               (seqZ minX (maxX - minX + 1)) sdfCells)
    (seqZ minY (maxY - minY + 1)) sdfCells.

Definition UpdateSDF (blockedCells : list Z) (sdfFunction : Z)
  : outcome (list Z) :=
  let sdfCells := replicate (Z.to_nat (gridWidth * gridHeight)) 10 in
  for_each (fun sdfCells y =>
      for_each (fun sdfCells x =>
          b ← rd blockedCells (y * gridWidth + x);
          if b =? 1 then splat sdfFunction x y sdfCells else Done sdfCells)
        (seqZ 0 gridWidth) sdfCells)
    (seqZ 0 gridHeight) sdfCells.

(** ** FindPath *)

Record SearchState : Type := mkState {
  st_queue : list PathfindingNode;   (* queue[0 .. queueLength-1] *)
  st_map : list PathfindingNode;     (* map *)
  st_overflowed : bool               (* "queue overflow" was logged *)
}.

Record PathResult : Type := mkResult {
  res_map : list PathfindingNode;
  pathLength : Z;
  path : list PathfindingNode;    (* path[0 .. pathLength-1] *)
  res_overflowed : bool
}.

(** The scan for the entry with the lowest score: [lowestScore] is
    [queue[lowestScoreIndex].score], [i] the index of the head of [rest]. *)
Fixpoint scan_lowest (lowestScore : Z) (lowestScoreIndex i : nat)
    (rest : list PathfindingNode) : nat :=
  match rest with
  | [] => lowestScoreIndex
  | n :: rest' =>
      if score n <? lowestScore then scan_lowest (score n) i (S i) rest'
      else scan_lowest lowestScore lowestScoreIndex (S i) rest'
  end.

Definition lowestScoreIndex (q : list PathfindingNode) : nat :=
  match q with
  | [] => 0%nat
  | n :: rest => scan_lowest (score n) 0 1 rest
  end.

Section FindPath.

Variable sdfCells : list Z.
Variables toX toY startX startY unitSize sdfFactor enableJumping : Z.

(** Body of the loop over the neighbor offsets, for the dequeued [node]. *)
Definition relax (node : PathfindingNode) (cellSdf maxDistance : Z)
    (st : SearchState) (off : NeighborOffset) : outcome SearchState :=
  let stepDistance := distance off in
  if (stepDistance >? maxDistance)
     || ((enableJumping =? 0) && (stepDistance >? 1)) then Done st
  else
    let x := nx node + ox off in
    let y := ny node + oy off in
    if (x <? 0) || (x >=? gridWidth) || (y <? 0) || (y >=? gridHeight)
    then Done st
    else
      nextSdf ← rd sdfCells (y * gridWidth + x);
      if nextSdf <? unitSize then Done st
      else
        sdfValue ← rd sdfCells (y * gridWidth + x);
        let integratedSdfValue :=
          ((sdfValue + cellSdf) * (stepDistance + 1)) ÷ 2 in
        let score' :=
          score node + stepDistance + (integratedSdfValue * sdfFactor) ÷ 6 in
        old ← rd (st_map st) (y * gridWidth + x);
        if (score old =? 0) || (score' <? score old) then
          let entry := mkNode x y (nx node) (ny node) score' in
          map' ← wr (st_map st) (y * gridWidth + x) entry;
          (* queue[queueLength] = map[y * gridWidth + x]; queueLength++ *)
          if Z.of_nat (length (st_queue st)) <? gridWidth * gridHeight then
            let queue' := st_queue st ++ [entry] in
            if Z.of_nat (length queue') >=? gridWidth * gridHeight then
              Done (mkState
                      (take (Z.to_nat (gridWidth * gridHeight - 1)) queue')
                      map' true)
            else Done (mkState queue' map' (st_overflowed st))
          else Fault
        else Done st.

(** One turn of [while (queueLength > 0)]. *)
Definition loop_body (st : SearchState) : outcome SearchState :=
  let lowest := lowestScoreIndex (st_queue st) in
  node ← rd (st_queue st) (Z.of_nat lowest);
  let st := mkState (delete lowest (st_queue st)) (st_map st) (st_overflowed st) in
  cellSdf ← rd sdfCells (ny node * gridWidth + nx node);
  let maxDistance :=
    if cellSdf - unitSize <? 1 then 1 else cellSdf - unitSize in
  for_each (relax node cellSdf maxDistance) neighborOffsets st.

Fixpoint search (fuel : nat) (st : SearchState) : outcome SearchState :=
  if 0 <? Z.of_nat (length (st_queue st)) then
    match fuel with
    | O => Timeout
    | S fuel' => st' ← loop_body st; search fuel' st'
    end
  else Done st.

(** The reconstruction loop.  [remaining] is
    [gridWidth * gridHeight - length]: the test [length < gridWidth *
    gridHeight] fails exactly when it is [0]. *)
Fixpoint follow (remaining : nat) (map : list PathfindingNode) (x y : Z)
  : outcome (list PathfindingNode) :=
  cur ← rd map (y * gridWidth + x);
  if (score cur >? 0) && negb ((x =? startX) && (y =? startY)) then
    match remaining with
    | O => Done []
    | S remaining' =>
        rest ← follow remaining' map (fromX cur) (fromY cur);
        Done (cur :: rest)
    end
  else Done [].

Definition clear_score (n : PathfindingNode) : PathfindingNode :=
  mkNode (nx n) (ny n) (fromX n) (fromY n) 0.

(** The part of [FindPath] before the main loop: clear all scores, seed
    the queue and the map with the start cell. *)
Definition init_search (map : list PathfindingNode) : outcome SearchState :=
  let cells := Z.to_nat (gridWidth * gridHeight) in
  if Z.of_nat (length map) <? gridWidth * gridHeight then Fault
  else
    let map := (clear_score <$> take cells map) ++ drop cells map in
    let queue := [mkNode startX startY startX startY 1] in
    map ← wr map (startY * gridWidth + startX)
                 (mkNode startX startY (-1) (-1) 1);
    Done (mkState queue map false).

(** The part of [FindPath] after the main loop. *)
Definition reconstruct (st : SearchState) : outcome PathResult :=
  goal ← rd (st_map st) (toY * gridWidth + toX);
  if score goal >? 0 then
    walked ← follow (Z.to_nat (gridWidth * gridHeight)) (st_map st) toX toY;
    start ← rd (st_map st) (startY * gridWidth + startX);
    let path := walked ++ [start] in
    Done (mkResult (st_map st) (Z.of_nat (length path)) path
                   (st_overflowed st))
  else
    Done (mkResult (st_map st) 0 [] (st_overflowed st)).

Definition FindPath (fuel : nat) (map : list PathfindingNode)
  : outcome PathResult :=
  st ← init_search map;
  st ← search fuel st;
  reconstruct st.

End FindPath.

(** ** Notions used to state the properties *)

Definition cells : Z := gridWidth * gridHeight.

Definition in_grid (x y : Z) : Prop :=
  0 <= x < gridWidth /\ 0 <= y < gridHeight.

Definition cell_index (x y : Z) : Z := y * gridWidth + x.

(** The clearance stored for the cell [(x, y)]. *)
Definition clearance_at (sdfCells : list Z) (x y : Z) : option Z :=
  sdfCells !! Z.to_nat (cell_index x y).

(** The entry the map holds for the cell [(x, y)]. *)
Definition map_at (map : list PathfindingNode) (x y : Z)
  : option PathfindingNode :=
  map !! Z.to_nat (cell_index x y).

(** The score [FindPath] computes for a step of length [stepDistance] from
    a dequeued entry of score [s] on a cell of clearance [cellSdf] to a
    cell of clearance [sdfValue]. *)
Definition step_score (sdfFactor s cellSdf sdfValue stepDistance : Z) : Z :=
  s + stepDistance
  + ((((sdfValue + cellSdf) * (stepDistance + 1)) ÷ 2) * sdfFactor) ÷ 6.

Definition max_distance (unitSize cellSdf : Z) : Z :=
  if cellSdf - unitSize <? 1 then 1 else cellSdf - unitSize.

(** [off] leads from the cell [(x, y)] to a cell of clearance [sdfValue]
    that the loop over the offsets does not skip. *)
Definition passable (sdfCells : list Z) (unitSize enableJumping : Z)
    (x y maxDistance : Z) (off : NeighborOffset) (sdfValue : Z) : Prop :=
  distance off <= maxDistance /\
  (enableJumping = 0 -> distance off <= 1) /\
  in_grid (x + ox off) (y + oy off) /\
  clearance_at sdfCells (x + ox off) (y + oy off) = Some sdfValue /\
  unitSize <= sdfValue.

(** What the loop that builds the table guarantees for each offset. *)
Definition offset_ok (off : NeighborOffset) : bool :=
  (1 <=? distance off) && (distance off <=? 10)
  && (distance off =? ceil_sqrt (ox off * ox off + oy off * oy off))
  && negb ((ox off =? 0) && (oy off =? 0))
  && ((distance off >? 1) || (Z.abs (ox off) + Z.abs (oy off) =? 1)).

(** What one turn of the loop over the offsets does to the state. *)
Inductive relaxed_to (sdfCells : list Z) (unitSize sdfFactor enableJumping : Z)
    (node : PathfindingNode) (cellSdf maxDistance : Z)
    (off : NeighborOffset) (st : SearchState) : SearchState -> Prop :=
  | relaxed_skip :
      (forall v, ~ passable sdfCells unitSize enableJumping (nx node) (ny node)
                            maxDistance off v) ->
      relaxed_to sdfCells unitSize sdfFactor enableJumping node cellSdf
                 maxDistance off st st
  | relaxed_keep v old :
      passable sdfCells unitSize enableJumping (nx node) (ny node)
               maxDistance off v ->
      map_at (st_map st) (nx node + ox off) (ny node + oy off) = Some old ->
      score old <> 0 ->
      score old <= step_score sdfFactor (score node) cellSdf v (distance off) ->
      relaxed_to sdfCells unitSize sdfFactor enableJumping node cellSdf
                 maxDistance off st st
  | relaxed_update v old st' :
      passable sdfCells unitSize enableJumping (nx node) (ny node)
               maxDistance off v ->
      map_at (st_map st) (nx node + ox off) (ny node + oy off) = Some old ->
      (score old = 0 \/
       step_score sdfFactor (score node) cellSdf v (distance off) < score old) ->
      let entry := mkNode (nx node + ox off) (ny node + oy off)
                          (nx node) (ny node)
                          (step_score sdfFactor (score node) cellSdf v
                                      (distance off)) in
      st_map st' =
        <[Z.to_nat (cell_index (nx node + ox off) (ny node + oy off)) := entry]>
          (st_map st) ->
      (st_queue st' = st_queue st ++ [entry] /\
       st_overflowed st' = st_overflowed st /\
       Z.of_nat (length (st_queue st)) + 1 < cells) \/
      (st_queue st' = st_queue st /\ st_overflowed st' = true /\
       Z.of_nat (length (st_queue st)) + 1 = cells) ->
      relaxed_to sdfCells unitSize sdfFactor enableJumping node cellSdf
                 maxDistance off st st'.

(** The cells [(j, i)] visited by the two inner loops of the rebuild for
    the blocked cell [(x, y)]. *)
Definition splat_window (x y : Z) : list (Z * Z) :=
  let minX := if x - 10 <? 0 then 0 else x - 10 in
  let minY := if y - 10 <? 0 then 0 else y - 10 in
  let maxX := if x + 10 >=? gridWidth then gridWidth - 1 else x + 10 in
  let maxY := if y + 10 >=? gridHeight then gridHeight - 1 else y + 10 in
  list_prod (seqZ minY (maxY - minY + 1)) (seqZ minX (maxX - minX + 1)).

(** The entry dequeued by the next turn of the main loop. *)
Definition dequeued (st : SearchState) : option PathfindingNode :=
  st_queue st !! lowestScoreIndex (st_queue st).

(** [n] turns of the main loop. *)
Fixpoint turns (sdfCells : list Z) (unitSize sdfFactor enableJumping : Z)
    (n : nat) (st : SearchState) : outcome SearchState :=
  match n with
  | O => Done st
  | S n' =>
      st' ← loop_body sdfCells unitSize sdfFactor enableJumping st;
      turns sdfCells unitSize sdfFactor enableJumping n' st'
  end.

(** The entry written for the start cell before the main loop. *)
Definition start_entry (startX startY : Z) : PathfindingNode :=
  mkNode startX startY (-1) (-1) 1.

(** A map entry with a score other than [0] is the seeded start entry or
    was written by a step of the search: it sits at the index of its own
    cell and was reached from its predecessor cell by an offset of the
    table that the loop did not skip. *)
Definition entry_shape (sdfCells : list Z) (unitSize enableJumping : Z)
    (startX startY : Z) (k : nat) (e : PathfindingNode) : Prop :=
  score e = 0 \/
  (e = start_entry startX startY /\ k = Z.to_nat (cell_index startX startY)) \/
  (in_grid (nx e) (ny e) /\ k = Z.to_nat (cell_index (nx e) (ny e)) /\
   in_grid (fromX e) (fromY e) /\
   exists off v cs,
     off ∈ neighborOffsets /\
     clearance_at sdfCells (fromX e) (fromY e) = Some cs /\
     nx e = fromX e + ox off /\ ny e = fromY e + oy off /\
     passable sdfCells unitSize enableJumping (fromX e) (fromY e)
              (max_distance unitSize cs) off v).

Definition shape (sdfCells : list Z) (unitSize enableJumping : Z)
    (startX startY : Z) (st : SearchState) : Prop :=
  Z.of_nat (length (st_map st)) = cells /\
  Z.of_nat (length (st_queue st)) < cells /\
  Forall (fun n => in_grid (nx n) (ny n)) (st_queue st) /\
  (exists e, map_at (st_map st) startX startY = Some e /\
             nx e = startX /\ ny e = startY) /\
  forall k e, st_map st !! k = Some e ->
              entry_shape sdfCells unitSize enableJumping startX startY k e.

(** The entries collected by the reconstruction loop from the cell
    [(x, y)] on: each one is the entry of the cell the previous one names
    as its predecessor. *)
Fixpoint linked (x y : Z) (l : list PathfindingNode) : Prop :=
  match l with
  | [] => True
  | e :: l' => nx e = x /\ ny e = y /\ linked (fromX e) (fromY e) l'
  end.

(** The cell at which the reconstruction loop stopped. *)
Fixpoint chain_end (x y : Z) (l : list PathfindingNode) : Z * Z :=
  match l with
  | [] => (x, y)
  | e :: l' => chain_end (fromX e) (fromY e) l'
  end.

(** An entry the reconstruction loop collects. *)
Definition collected (sdfCells : list Z) (unitSize enableJumping : Z)
    (startX startY : Z) (map : list PathfindingNode) (e : PathfindingNode)
  : Prop :=
  map_at map (nx e) (ny e) = Some e /\
  0 < score e /\
  (nx e <> startX \/ ny e <> startY) /\
  in_grid (nx e) (ny e) /\
  in_grid (fromX e) (fromY e) /\
  exists off v cs,
    off ∈ neighborOffsets /\
    clearance_at sdfCells (fromX e) (fromY e) = Some cs /\
    nx e = fromX e + ox off /\ ny e = fromY e + oy off /\
    passable sdfCells unitSize enableJumping (fromX e) (fromY e)
             (max_distance unitSize cs) off v.

(** The cost of the step from the cell [(x, y)] to the cell [(x', y')],
    recomputed from the two cells alone: the step distance is the table
    value for the offset between them. *)
Definition edge_cost (sdfCells : list Z) (sdfFactor : Z) (x y x' y' : Z) : Z :=
  step_score sdfFactor 0
    (default 0 (clearance_at sdfCells x y))
    (default 0 (clearance_at sdfCells x' y'))
    (ceil_sqrt ((x' - x) * (x' - x) + (y' - y) * (y' - y))).

(** The sum of the edge costs over the consecutive pairs of a path.  The
    path array runs from the goal to the start, so each pair [(a, b)] is
    the step from [b] to [a]. *)
Fixpoint path_cost (sdfCells : list Z) (sdfFactor : Z)
    (p : list PathfindingNode) : Z :=
  match p with
  | a :: rest =>
      match rest with
      | b :: _ =>
          edge_cost sdfCells sdfFactor (nx b) (ny b) (nx a) (ny a)
          + path_cost sdfCells sdfFactor rest
      | [] => 0
      end
  | [] => 0
  end.

(** A queue entry (or the dequeued entry) is backed by the map: its cell
    holds a positive score that is at most the entry's. *)
Definition backed (map : list PathfindingNode) (n : PathfindingNode) : Prop :=
  1 <= score n /\ in_grid (nx n) (ny n) /\
  exists e, map_at map (nx n) (ny n) = Some e /\ 1 <= score e <= score n.

(** The invariant of the main loop for a non-negative wall factor and
    non-negative clearances: scores are non-negative, the start entry is
    never overwritten, and a visited cell's score exceeds its
    predecessor's by at least the cost of the step between them. *)
Definition well_scored (sdfCells : list Z) (sdfFactor startX startY : Z)
    (st : SearchState) : Prop :=
  Forall (backed (st_map st)) (st_queue st) /\
  (forall k e, st_map st !! k = Some e -> 0 <= score e) /\
  map_at (st_map st) startX startY = Some (start_entry startX startY) /\
  (forall k e, st_map st !! k = Some e -> 1 <= score e ->
     k <> Z.to_nat (cell_index startX startY) ->
     exists p, map_at (st_map st) (fromX e) (fromY e) = Some p /\
               1 <= score p /\ score p < score e /\
               score p + edge_cost sdfCells sdfFactor (fromX e) (fromY e)
                                   (nx e) (ny e) <= score e).

(** The measure by which the main loop terminates: the number of cells
    not visited yet, then twice the sum of the scores plus the length of
    the queue. *)
Definition sum_by {A} (f : A -> Z) (l : list A) : Z :=
  foldr (fun a acc => f a + acc) 0 l.

Definition unvisited (map : list PathfindingNode) : Z :=
  sum_by (fun e => if score e =? 0 then 1 else 0) map.

Definition work (st : SearchState) : Z :=
  2 * sum_by score (st_map st) + Z.of_nat (length (st_queue st)).

Definition progress (st0 st : SearchState) : Prop :=
  unvisited (st_map st) < unvisited (st_map st0) \/
  (unvisited (st_map st) = unvisited (st_map st0) /\ work st <= work st0).

(** The range of the scores for the wall factors [0 .. 7] that [main]
    passes and the clearances [0 .. 10] that the rebuild leaves: a step
    then costs at most [10 + (20 * 11 / 2) * 7 / 6 = 138], and a score is
    at most [1] plus [138] for each visited cell other than the start
    cell. *)
Definition max_step_cost : Z := 138.

Definition score_bound (map : list PathfindingNode) : Z :=
  1 + max_step_cost * (cells - 1 - unvisited map).

Definition in_score_range (st : SearchState) : Prop :=
  unvisited (st_map st) <= cells - 1 /\
  Forall (fun n => score n <= score_bound (st_map st)) (st_queue st) /\
  Forall (fun e => score e <= score_bound (st_map st)) (st_map st).

(** The values of C's 32-bit [int]. *)
Definition int_range (z : Z) : Prop := - 2 ^ 31 <= z < 2 ^ 31.

(** The values [FindPath] computes on the way to the score of a landing
    cell, in the order of the source. *)
Definition score_values (sdfFactor nodeScore cellSdf sdfValue stepDistance : Z)
  : list Z :=
  let score0 := nodeScore + stepDistance in
  let integratedSdfValue := ((sdfValue + cellSdf) * (stepDistance + 1)) ÷ 2 in
  [score0;
   sdfValue + cellSdf;
   stepDistance + 1;
   (sdfValue + cellSdf) * (stepDistance + 1);
   integratedSdfValue;
   integratedSdfValue * sdfFactor;
   (integratedSdfValue * sdfFactor) ÷ 6;
   score0 + (integratedSdfValue * sdfFactor) ÷ 6].

(** [R] holds between all consecutive entries of [l]. *)
Fixpoint chain {A} (R : A -> A -> Prop) (l : list A) : Prop :=
  match l with
  | a :: rest =>
      match rest with
      | b :: _ => R a b /\ chain R rest
      | [] => True
      end
  | [] => True
  end.

(** [b] is the map entry of the predecessor cell of the collected entry
    [a]. *)
Definition from_link (sdfCells : list Z) (unitSize enableJumping : Z)
    (startX startY : Z) (map : list PathfindingNode)
    (a b : PathfindingNode) : Prop :=
  collected sdfCells unitSize enableJumping startX startY map a /\
  map_at map (fromX a) (fromY a) = Some b /\
  nx b = fromX a /\ ny b = fromY a.

(** Some queue entry carries the current score of the cell [(x, y)]. *)
Definition pending (st : SearchState) (x y : Z) : Prop :=
  exists n e,
    n ∈ st_queue st /\ nx n = x /\ ny n = y /\
    map_at (st_map st) x y = Some e /\ score n = score e.

(** Every step from the cell [(x, y)] along an offset of [offs] that the
    loop does not skip leads to a visited cell whose score is at most the
    score of [(x, y)] extended by that step. *)
Definition relaxed_along (sdfCells : list Z)
    (unitSize sdfFactor enableJumping : Z) (map : list PathfindingNode)
    (x y : Z) (offs : list NeighborOffset) : Prop :=
  forall off cs v e,
    off ∈ offs ->
    clearance_at sdfCells x y = Some cs ->
    passable sdfCells unitSize enableJumping x y (max_distance unitSize cs) off v ->
    map_at map x y = Some e ->
    exists e', map_at map (x + ox off) (y + oy off) = Some e' /\
               1 <= score e' /\
               score e' <= step_score sdfFactor (score e) cs v (distance off).

(** The invariant of the main loop that holds as long as no push was
    dropped: every visited cell is pending or relaxed along all offsets.
    Within a turn, the cell of the dequeued entry [n] may be relaxed along
    the offsets [done] processed so far only. *)
Definition settling (sdfCells : list Z) (unitSize sdfFactor enableJumping : Z)
    (n : PathfindingNode) (done : list NeighborOffset) (st : SearchState)
  : Prop :=
  forall x y e,
    in_grid x y -> map_at (st_map st) x y = Some e -> 1 <= score e ->
    pending st x y \/
    relaxed_along sdfCells unitSize sdfFactor enableJumping (st_map st) x y
                  neighborOffsets \/
    (x = nx n /\ y = ny n /\ score e = score n /\
     relaxed_along sdfCells unitSize sdfFactor enableJumping (st_map st) x y done).

Definition settled (sdfCells : list Z) (unitSize sdfFactor enableJumping : Z)
    (st : SearchState) : Prop :=
  forall x y e,
    in_grid x y -> map_at (st_map st) x y = Some e -> 1 <= score e ->
    pending st x y \/
    relaxed_along sdfCells unitSize sdfFactor enableJumping (st_map st) x y
                  neighborOffsets.

(** The cells the search can reach from the start cell: by steps along
    offsets of the table that the loop does not skip. *)
Inductive reachable (sdfCells : list Z) (unitSize enableJumping : Z)
    (startX startY : Z) : Z -> Z -> Prop :=
  | reach_start : reachable sdfCells unitSize enableJumping startX startY
                            startX startY
  | reach_step x y off cs v :
      reachable sdfCells unitSize enableJumping startX startY x y ->
      off ∈ neighborOffsets ->
      clearance_at sdfCells x y = Some cs ->
      passable sdfCells unitSize enableJumping x y (max_distance unitSize cs) off v ->
      reachable sdfCells unitSize enableJumping startX startY
                (x + ox off) (y + oy off).

(** Soundness of the search: the queue and the visited part of the map
    hold reachable cells only. *)
Definition visits_reachable (sdfCells : list Z) (unitSize enableJumping : Z)
    (startX startY : Z) (st : SearchState) : Prop :=
  Forall (fun n => reachable sdfCells unitSize enableJumping startX startY
                             (nx n) (ny n)) (st_queue st) /\
  forall k e, st_map st !! k = Some e -> 1 <= score e ->
              reachable sdfCells unitSize enableJumping startX startY
                        (nx e) (ny e).

(** The guards of the loop over the offsets, as one test: [true] when the
    offset [off] is skipped for a dequeued entry on the cell [(x, y)]. *)
Definition skipped (sdfCells : list Z) (unitSize enableJumping : Z)
    (x y maxDistance : Z) (off : NeighborOffset) : bool :=
  (distance off >? maxDistance)
  || ((enableJumping =? 0) && (distance off >? 1))
  || ((x + ox off <? 0) || (x + ox off >=? gridWidth)
      || (y + oy off <? 0) || (y + oy off >=? gridHeight))
  || match sdfCells !! Z.to_nat ((y + oy off) * gridWidth + (x + ox off)) with
     | Some v => v <? unitSize
     | None => false
     end.

(** The states of the run on the grid with two free cells for unit size 1
    and wall factor [-6]: the queue holds one entry, for one of the two
    free cells; the other free cell is unvisited or holds a score that the
    next step undercuts. *)
Definition bouncing (st : SearchState) : Prop :=
  exists n e other,
    st_queue st = [n] /\
    Z.of_nat (length (st_map st)) = cells /\
    ((nx n = 0 /\ ny n = 0) \/ (nx n = 1 /\ ny n = 0)) /\
    map_at (st_map st) (nx n) (ny n) = Some e /\ score e = score n /\
    map_at (st_map st) (1 - nx n) 0 = Some other /\
    (score other = 0 \/ score n - 1 < score other).

(** ** The clearance field as the specification describes it

    The three distance metrics as mathematical functions of an offset, the
    blocked cells of a grid, and the minimum over all blocked cells of the
    distance to a cell, saturated at the radius [R = 10]. *)
Definition distance_metric (sdfFunction dx dy : Z) : Z :=
  if sdfFunction =? 0 then ceil_sqrt (dx * dx + dy * dy)
  else if sdfFunction =? 1 then Z.max (Z.abs dx) (Z.abs dy)
  else Z.abs dx + Z.abs dy.

Definition is_blocked (blockedCells : list Z) (x y : Z) : bool :=
  match blockedCells !! Z.to_nat (cell_index x y) with
  | Some b => b =? 1
  | None => false
  end.

(** All cells of the grid as pairs [(y, x)]. *)
Definition grid_cells : list (Z * Z) :=
  list_prod (seqZ 0 gridHeight) (seqZ 0 gridWidth).

Definition min_with_blocked (blockedCells : list Z) (sdfFunction x y : Z)
    (acc : Z) (b : Z * Z) : Z :=
  if is_blocked blockedCells b.2 b.1
  then Z.min acc (distance_metric sdfFunction (b.2 - x) (b.1 - y))
  else acc.

Definition spec_clearance (blockedCells : list Z) (sdfFunction x y : Z) : Z :=
  fold_left (min_with_blocked blockedCells sdfFunction x y) grid_cells 10.

(** What the innermost loop of the rebuild stores for a cell holding [v]
    at distance [d] of the blocked cell. *)
Definition splat_value (v d : Z) : Z :=
  if (d <? v) && (d <? 10) then d else v.

(** ** Routes and their scores

    A route of the search leads from the start cell along offsets that the
    loop over the offsets does not skip.  It carries the score that the
    search computes along it, beginning with the seed [1] of the start
    cell. *)
Inductive route (sdfCells : list Z) (unitSize sdfFactor enableJumping : Z)
    (startX startY : Z) : Z -> Z -> Z -> Prop :=
  | route_start :
      route sdfCells unitSize sdfFactor enableJumping startX startY
            startX startY 1
  | route_step x y s off cs v :
      route sdfCells unitSize sdfFactor enableJumping startX startY x y s ->
      off ∈ neighborOffsets ->
      clearance_at sdfCells x y = Some cs ->
      passable sdfCells unitSize enableJumping x y (max_distance unitSize cs) off v ->
      route sdfCells unitSize sdfFactor enableJumping startX startY
            (x + ox off) (y + oy off)
            (step_score sdfFactor s cs v (distance off)).

(** Every score in the queue and in the visited part of the map is the
    score of a route to its cell. *)
Definition visits_routed (sdfCells : list Z)
    (unitSize sdfFactor enableJumping startX startY : Z) (st : SearchState)
  : Prop :=
  Forall (fun n => route sdfCells unitSize sdfFactor enableJumping startX startY
                         (nx n) (ny n) (score n)) (st_queue st) /\
  forall k e, st_map st !! k = Some e -> 1 <= score e ->
              route sdfCells unitSize sdfFactor enableJumping startX startY
                    (nx e) (ny e) (score e).

(** ** Maps that differ in unvisited cells only

    [FindPath] clears the scores of the map it is given and leaves the
    other fields of the entries as they are.  Two maps are alike when they
    hold the same entry at each index, or entries of score [0] at that
    index, and the same entry for the start cell. *)
Definition same_entry (e e' : PathfindingNode) : Prop :=
  e = e' \/ (score e = 0 /\ score e' = 0).

Definition alike (startX startY : Z) (m m' : list PathfindingNode) : Prop :=
  length m = length m' /\
  m !! Z.to_nat (startY * gridWidth + startX)
  = m' !! Z.to_nat (startY * gridWidth + startX) /\
  forall k e e', m !! k = Some e -> m' !! k = Some e' -> same_entry e e'.

Definition alike_states (startX startY : Z) (st st' : SearchState) : Prop :=
  st_queue st = st_queue st' /\
  st_overflowed st = st_overflowed st' /\
  alike startX startY (st_map st) (st_map st').

(** Two runs end the same way, with results related by [R]. *)
Definition outcome_rel {A} (R : A -> A -> Prop) (o o' : outcome A) : Prop :=
  match o, o' with
  | Done a, Done a' => R a a'
  | Fault, Fault => True
  | Timeout, Timeout => True
  | _, _ => False
  end.


(** ** The two searches of [main]

    [main] keeps a start and an end point for each of its two agents and
    calls [FindPath] with the start point in the place of [(toX, toY)] and
    the end point in the place of [(startX, startY)].  The rat has unit
    size [1] and the wall factor chosen with the Q key, a value from [0]
    to [7]; the cat has unit size [2] and wall factor [0]. *)
Definition pathRatStartX : Z := 5.
Definition pathRatStartY : Z := 25.
Definition pathRatEndX : Z := 75.
Definition pathRatEndY : Z := 25.
Definition pathCatStartX : Z := 5.
Definition pathCatStartY : Z := 25.
Definition pathCatEndX : Z := 75.
Definition pathCatEndY : Z := 25.

Definition rat_search (sdfCells : list Z) (ratWallFactor jumpingEnabled : Z)
    (fuel : nat) (mapRat : list PathfindingNode) : outcome PathResult :=
  FindPath sdfCells pathRatStartX pathRatStartY pathRatEndX pathRatEndY
           1 ratWallFactor jumpingEnabled fuel mapRat.

Definition cat_search (sdfCells : list Z) (jumpingEnabled : Z)
    (fuel : nat) (mapCat : list PathfindingNode) : outcome PathResult :=
  FindPath sdfCells pathCatStartX pathCatStartY pathCatEndX pathCatEndY
           2 0 jumpingEnabled fuel mapCat.

(** ** One frame of the main loop: input handling, rebuild and searches

    The state of [main] that the part of a frame before the drawing reads
    and writes.  The fields keep the names of the variables of [main],
    with the prefix [app_].  The two [float] counters of the animation,
    which only the drawing uses, are left out. *)
Record App : Type := mkApp {
  app_blockedCells : list Z;
  app_sdfCells : list Z;
  app_mapRat : list PathfindingNode;
  app_pathRat : list PathfindingNode;
  app_pathRatLength : Z;
  app_ratWallFactor : Z;
  app_mapCat : list PathfindingNode;
  app_pathCat : list PathfindingNode;
  app_pathCatLength : Z;
  app_visualizeMode : Z;
  app_randomizeBlocks : Z;
  app_paintMode : Z;
  app_updateSDF : Z;
  app_sdfFunction : Z;
  app_jumpingEnabled : Z
}.

(** What a frame learns from raylib: the cell under the mouse
    ([mousePos.x / cellSize], [mousePos.y / cellSize]), the state of the
    left mouse button and of the keys, and the values that the calls of
    [GetRandomValue] return, numbered from [0] within the frame. *)
Record Input : Type := mkInput {
  cellX : Z;
  cellY : Z;
  mousePressed : bool;
  mouseDown : bool;
  keyC : bool;
  keyV : bool;
  keyQ : bool;
  keyR : bool;
  keyS : bool;
  keyJ : bool;
  randomValue : nat -> Z
}.

Definition set_blockedCells (v : list Z) (a : App) : App :=
  mkApp v (app_sdfCells a) (app_mapRat a) (app_pathRat a) (app_pathRatLength a)
        (app_ratWallFactor a) (app_mapCat a) (app_pathCat a) (app_pathCatLength a)
        (app_visualizeMode a) (app_randomizeBlocks a) (app_paintMode a)
        (app_updateSDF a) (app_sdfFunction a) (app_jumpingEnabled a).

Definition set_ratWallFactor (v : Z) (a : App) : App :=
  mkApp (app_blockedCells a) (app_sdfCells a) (app_mapRat a) (app_pathRat a)
        (app_pathRatLength a) v (app_mapCat a) (app_pathCat a)
        (app_pathCatLength a) (app_visualizeMode a) (app_randomizeBlocks a)
        (app_paintMode a) (app_updateSDF a) (app_sdfFunction a)
        (app_jumpingEnabled a).

Definition set_visualizeMode (v : Z) (a : App) : App :=
  mkApp (app_blockedCells a) (app_sdfCells a) (app_mapRat a) (app_pathRat a)
        (app_pathRatLength a) (app_ratWallFactor a) (app_mapCat a) (app_pathCat a)
        (app_pathCatLength a) v (app_randomizeBlocks a)
        (app_paintMode a) (app_updateSDF a) (app_sdfFunction a)
        (app_jumpingEnabled a).

Definition set_randomizeBlocks (v : Z) (a : App) : App :=
  mkApp (app_blockedCells a) (app_sdfCells a) (app_mapRat a) (app_pathRat a)
        (app_pathRatLength a) (app_ratWallFactor a) (app_mapCat a) (app_pathCat a)
        (app_pathCatLength a) (app_visualizeMode a) v
        (app_paintMode a) (app_updateSDF a) (app_sdfFunction a)
        (app_jumpingEnabled a).

Definition set_paintMode (v : Z) (a : App) : App :=
  mkApp (app_blockedCells a) (app_sdfCells a) (app_mapRat a) (app_pathRat a)
        (app_pathRatLength a) (app_ratWallFactor a) (app_mapCat a) (app_pathCat a)
        (app_pathCatLength a) (app_visualizeMode a) (app_randomizeBlocks a)
        v (app_updateSDF a) (app_sdfFunction a) (app_jumpingEnabled a).

Definition set_updateSDF (v : Z) (a : App) : App :=
  mkApp (app_blockedCells a) (app_sdfCells a) (app_mapRat a) (app_pathRat a)
        (app_pathRatLength a) (app_ratWallFactor a) (app_mapCat a) (app_pathCat a)
        (app_pathCatLength a) (app_visualizeMode a) (app_randomizeBlocks a)
        (app_paintMode a) v (app_sdfFunction a) (app_jumpingEnabled a).

Definition set_sdfFunction (v : Z) (a : App) : App :=
  mkApp (app_blockedCells a) (app_sdfCells a) (app_mapRat a) (app_pathRat a)
        (app_pathRatLength a) (app_ratWallFactor a) (app_mapCat a) (app_pathCat a)
        (app_pathCatLength a) (app_visualizeMode a) (app_randomizeBlocks a)
        (app_paintMode a) (app_updateSDF a) v (app_jumpingEnabled a).

Definition set_jumpingEnabled (v : Z) (a : App) : App :=
  mkApp (app_blockedCells a) (app_sdfCells a) (app_mapRat a) (app_pathRat a)
        (app_pathRatLength a) (app_ratWallFactor a) (app_mapCat a) (app_pathCat a)
        (app_pathCatLength a) (app_visualizeMode a) (app_randomizeBlocks a)
        (app_paintMode a) (app_updateSDF a) (app_sdfFunction a) v.

(** Mouse input: a press chooses the paint mode from the cell under the
    mouse, and while the button is down that cell is painted. *)
Definition on_mouse (inp : Input) (a : App) : outcome App :=
  a ← (if mousePressed inp then
         b ← rd (app_blockedCells a) (cellY inp * gridWidth + cellX inp);
         Done (set_paintMode (if b =? 1 then 0 else 1) a)
       else Done a);
  if mouseDown inp then
    blocked ← wr (app_blockedCells a) (cellY inp * gridWidth + cellX inp)
                 (app_paintMode a);
    Done (set_updateSDF 1 (set_blockedCells blocked a))
  else Done a.

(** [for (int i = 0; i < gridWidth * gridHeight; i++) blockedCells[i] = 0;] *)
Definition clear_blocks (blockedCells : list Z) : outcome (list Z) :=
  for_each (fun blockedCells i => wr blockedCells i 0)
           (seqZ 0 (gridWidth * gridHeight)) blockedCells.

(** Keyboard input, in the order of the source: C, V, Q, R, S, J.
    [visualizeMode] counts the presses of V; that the counter of the
    source wraps after [2^31] presses is not modelled. *)
Definition on_keys (inp : Input) (a : App) : outcome App :=
  a ← (if keyC inp then
         blocked ← clear_blocks (app_blockedCells a);
         Done (set_updateSDF 1 (set_blockedCells blocked a))
       else Done a);
  let a := if keyV inp then set_visualizeMode (app_visualizeMode a + 1) a else a in
  let a := if keyQ inp
           then set_updateSDF 1
                  (set_ratWallFactor (Z.rem (app_ratWallFactor a + 1) 8) a)
           else a in
  let a := if keyR inp then set_randomizeBlocks 1 a else a in
  let a := if keyS inp
           then set_updateSDF 1
                  (set_sdfFunction (Z.rem (app_sdfFunction a + 1) 3) a)
           else a in
  let a := if keyJ inp
           then set_updateSDF 1
                  (set_jumpingEnabled
                     (if app_jumpingEnabled a =? 0 then 1 else 0) a)
           else a in
  Done a.

(** One of the forty random blocks: the square of half side [s] around
    [(x, y)] is set to [v]. *)
Definition stamp (x y s v : Z) (blockedCells : list Z) : outcome (list Z) :=
  for_each (fun blockedCells j =>
      for_each (fun blockedCells k =>
          wr blockedCells ((y + j) * gridWidth + x + k) v)
        (seqZ (- s) (2 * s + 1)) blockedCells)
    (seqZ (- s) (2 * s + 1)) blockedCells.

(** The random map: [GetRandomValue] is called four times for each block,
    for [x], [y], [s] and [v]. *)
Definition randomize (GetRandomValue : nat -> Z) (blockedCells : list Z)
  : outcome (list Z) :=
  blockedCells ← clear_blocks blockedCells;
  for_each (fun blockedCells i =>
      stamp (GetRandomValue (4 * i)%nat) (GetRandomValue (4 * i + 1)%nat)
            (GetRandomValue (4 * i + 2)%nat) (GetRandomValue (4 * i + 3)%nat)
            blockedCells)
    (seq 0 40) blockedCells.

Definition on_randomize (inp : Input) (a : App) : outcome App :=
  if app_randomizeBlocks a =? 0 then Done a
  else
    blocked ← randomize (randomValue inp) (app_blockedCells a);
    Done (set_blockedCells blocked (set_updateSDF 1 (set_randomizeBlocks 0 a))).

(** [FindPath] writes the entries of the path into the first cells of the
    array it is given and leaves the others as they are. *)
Definition store_path (r : PathResult) (old : list PathfindingNode)
  : outcome (list PathfindingNode) :=
  if Z.of_nat (length (path r)) <=? Z.of_nat (length old)
  then Done (path r ++ drop (length (path r)) old)
  else Fault.

Definition on_updateSDF (fuel : nat) (a : App) : outcome App :=
  if app_updateSDF a =? 0 then Done a
  else
    sdfCells ← UpdateSDF (app_blockedCells a) (app_sdfFunction a);
    rat ← rat_search sdfCells (app_ratWallFactor a) (app_jumpingEnabled a)
                     fuel (app_mapRat a);
    pathRat ← store_path rat (app_pathRat a);
    cat ← cat_search sdfCells (app_jumpingEnabled a) fuel (app_mapCat a);
    pathCat ← store_path cat (app_pathCat a);
    Done (mkApp (app_blockedCells a) sdfCells
                (res_map rat) pathRat (pathLength rat) (app_ratWallFactor a)
                (res_map cat) pathCat (pathLength cat)
                (app_visualizeMode a) (app_randomizeBlocks a) (app_paintMode a)
                0 (app_sdfFunction a) (app_jumpingEnabled a)).

(** The part of one frame before the drawing. *)
Definition update (fuel : nat) (inp : Input) (a : App) : outcome App :=
  a ← on_mouse inp a;
  a ← on_keys inp a;
  a ← on_randomize inp a;
  on_updateSDF fuel a.

(** The sizes of the arrays and the ranges of the settings that the
    frames keep. *)
Definition app_ok (a : App) : Prop :=
  Z.of_nat (length (app_blockedCells a)) = cells /\
  Z.of_nat (length (app_mapRat a)) = cells /\
  Z.of_nat (length (app_mapCat a)) = cells /\
  Z.of_nat (length (app_pathRat a)) = 4 * cells /\
  Z.of_nat (length (app_pathCat a)) = 4 * cells /\
  0 <= app_ratWallFactor a <= 7 /\
  0 <= app_sdfFunction a <= 2.

(** What the frames may assume of raylib: the mouse is over a cell of the
    grid while its button is used, and [GetRandomValue (min, max)] returns
    a value from [min] to [max]. *)
Definition random_ok (GetRandomValue : nat -> Z) : Prop :=
  forall i, (i < 40)%nat ->
    15 <= GetRandomValue (4 * i)%nat <= gridWidth - 15 /\
    15 <= GetRandomValue (4 * i + 1)%nat <= gridHeight - 15 /\
    1 <= GetRandomValue (4 * i + 2)%nat <= 2 /\
    0 <= GetRandomValue (4 * i + 3)%nat <= 1.

Definition input_ok (inp : Input) : Prop :=
  (mousePressed inp = true \/ mouseDown inp = true ->
   in_grid (cellX inp) (cellY inp)) /\
  random_ok (randomValue inp).

(** The result [r] of a search is what the state holds for an agent: its
    map, the length of its path and the first cells of its path array. *)
Definition search_stored (r : PathResult) (map stored : list PathfindingNode)
    (len : Z) : Prop :=
  map = res_map r /\ len = pathLength r /\
  take (length (path r)) stored = path r.

(** The state is fresh: its clearance field is the one the rebuild gives
    for its blocked cells and its metric, and what it holds for each
    agent is the result of the agent's search on this field with the
    current settings. *)
Definition fresh (a : App) : Prop :=
  UpdateSDF (app_blockedCells a) (app_sdfFunction a) = Done (app_sdfCells a) /\
  (exists fuel map r,
     Z.of_nat (length map) = cells /\
     rat_search (app_sdfCells a) (app_ratWallFactor a) (app_jumpingEnabled a)
                fuel map = Done r /\
     search_stored r (app_mapRat a) (app_pathRat a) (app_pathRatLength a)) /\
  (exists fuel map r,
     Z.of_nat (length map) = cells /\
     cat_search (app_sdfCells a) (app_jumpingEnabled a) fuel map = Done r /\
     search_stored r (app_mapCat a) (app_pathCat a) (app_pathCatLength a)).

(** The fields that [fresh] speaks about. *)
Definition config (a : App) :=
  (app_blockedCells a, app_sdfCells a, app_sdfFunction a, app_jumpingEnabled a,
   (app_mapRat a, app_pathRat a, app_pathRatLength a, app_ratWallFactor a),
   (app_mapCat a, app_pathCat a, app_pathCatLength a)).

(** From [a] to [a'] either a rebuild was requested, or nothing that
    [fresh] speaks about has changed. *)
Definition kept (a a' : App) : Prop :=
  app_updateSDF a' = 1 \/
  (config a' = config a /\ app_updateSDF a' = app_updateSDF a).

(** Every blocked cell lies in the part of the grid that the random
    blocks can reach. *)
Definition blocks_in_box (blockedCells : list Z) : Prop :=
  forall x y, in_grid x y -> is_blocked blockedCells x y = true ->
              13 <= x <= 67 /\ 13 <= y <= 32.

(** The state in which [main] enters its loop ([MemAlloc] returns zeroed
    memory). *)
Definition app_init : App :=
  mkApp (replicate (Z.to_nat cells) 0) (replicate (Z.to_nat cells) 0)
        (replicate (Z.to_nat cells) (mkNode 0 0 0 0 0))
        (replicate (Z.to_nat (4 * cells)) (mkNode 0 0 0 0 0)) 0 2
        (replicate (Z.to_nat cells) (mkNode 0 0 0 0 0))
        (replicate (Z.to_nat (4 * cells)) (mkNode 0 0 0 0 0)) 0
        0 1 0 1 0 1.

(** A frame without input, in which [GetRandomValue] returns [20], [20],
    [1] and [1] for each block. *)
Definition idle_input : Input :=
  mkInput 0 0 false false false false false false false false
          (fun k => match (k mod 4)%nat with
                    | 0%nat => 20
                    | 1%nat => 20
                    | _ => 1
                    end).


(** ** Concrete grids used in examples

    A grid in which every cell is blocked has clearance [0] everywhere; a
    grid in which every cell but [(0,0)] and [(1,0)] is blocked has
    clearance [1] on these two cells (each touches a blocked cell) and [0]
    elsewhere.  A map obtained from [MemAlloc] is all zero. *)

Definition walled_field : list Z := replicate (Z.to_nat cells) 0.

Definition two_cell_field : list Z := 1 :: 1 :: replicate (Z.to_nat cells - 2) 0.

(** An array that is not a clearance field: the cell [(1,0)] holds [4]
    and the cell [(0,1)] holds [5] although both touch the blocked cell
    [(0,0)]. *)
Definition uneven_field : list Z :=
  [0; 4] ++ replicate 78 0 ++ [5; 2] ++ replicate (Z.to_nat cells - 82) 0.

Definition fresh_map : list PathfindingNode :=
  replicate (Z.to_nat cells) (mkNode 0 0 0 0 0).

(** The result of the search from [(0,0)] to [(1,0)] on the grid with two
    free cells, for unit size 1, wall factor 0 and jumping enabled. *)
Definition two_cell_result : PathResult :=
  Eval vm_compute in
    match FindPath two_cell_field 1 0 0 0 1 0 1 5 fresh_map with
    | Done r => r
    | _ => mkResult [] 0 [] false
    end.

(** The same search with jumping disabled. *)
Definition two_cell_result_no_jump : PathResult :=
  Eval vm_compute in
    match FindPath two_cell_field 1 0 0 0 1 0 0 5 fresh_map with
    | Done r => r
    | _ => mkResult [] 0 [] false
    end.

(** The states of that search before the first, the second and the third
    test of the main loop's condition. *)
Definition two_cell_state_0 : SearchState :=
  Eval vm_compute in
    match init_search 0 0 fresh_map with
    | Done st => st
    | _ => mkState [] [] false
    end.

Definition two_cell_state_1 : SearchState :=
  Eval vm_compute in
    match turns two_cell_field 1 0 1 1 two_cell_state_0 with
    | Done st => st
    | _ => mkState [] [] false
    end.

Definition two_cell_state_2 : SearchState :=
  Eval vm_compute in
    match turns two_cell_field 1 0 1 1 two_cell_state_1 with
    | Done st => st
    | _ => mkState [] [] false
    end.

(** The state after one turn when the wall factor is [-6]. *)
Definition two_cell_state_1_negative : SearchState :=
  Eval vm_compute in
    match turns two_cell_field 1 (-6) 1 1 two_cell_state_0 with
    | Done st => st
    | _ => mkState [] [] false
    end.

(** The same search for unit size 2: the goal cell has clearance 1. *)
Definition two_cell_result_unit_2 : PathResult :=
  Eval vm_compute in
    match FindPath two_cell_field 1 0 0 0 2 0 1 5 fresh_map with
    | Done r => r
    | _ => mkResult [] 0 [] false
    end.

(** A grid with five blocked cells that wall in the four cells in its
    corner, the clearance field the rebuild leaves for it with the
    euclidean metric, and the search of the rat from [(0,0)] to [(1,1)]
    on that field. *)
Definition enclosure_blocked : list Z :=
  <[2%nat := 1]> (<[82%nat := 1]> (<[160%nat := 1]> (<[161%nat := 1]>
    (<[162%nat := 1]> (replicate (Z.to_nat cells) 0))))).

Definition enclosure_rebuild : outcome (list Z) :=
  Eval vm_compute in UpdateSDF enclosure_blocked 0.

Definition enclosure_field : list Z :=
  Eval vm_compute in
    match enclosure_rebuild with
    | Done sdfCells => sdfCells
    | _ => []
    end.

Definition enclosure_result : PathResult :=
  Eval vm_compute in
    match FindPath enclosure_field 1 1 0 0 1 2 1 10 fresh_map with
    | Done r => r
    | _ => mkResult [] 0 [] false
    end.

(** * Proofs *)

(** ** Checked accesses and loops *)

Lemma rd_Done {A} (a : list A) i v :
  rd a i = Done v <-> 0 <= i /\ a !! Z.to_nat i = Some v.
Proof.
  unfold rd. destruct (Z.leb_spec 0 i).
  - destruct (a !! Z.to_nat i); split; intros; destruct_and?; simplify_eq; auto.
  - split; [discriminate | lia].
Qed.

Lemma rd_lookup {A} (a : list A) i v :
  0 <= i -> a !! Z.to_nat i = Some v -> rd a i = Done v.
Proof. intros. apply rd_Done; auto. Qed.

Lemma rd_in_range {A} (a : list A) i :
  0 <= i < Z.of_nat (length a) -> exists v, rd a i = Done v /\ a !! Z.to_nat i = Some v.
Proof.
  intros Hi. destruct (lookup_lt_is_Some_2 a (Z.to_nat i)) as [v Hv]; [lia|].
  exists v. split; [apply rd_lookup; [lia | done] | done].
Qed.

Lemma wr_Done {A} (a : list A) i v a' :
  wr a i v = Done a' <->
  0 <= i < Z.of_nat (length a) /\ a' = <[Z.to_nat i := v]> a.
Proof.
  unfold wr. destruct (Z.leb_spec 0 i), (Z.ltb_spec i (Z.of_nat (length a)));
    simpl; split; intros; destruct_and?; simplify_eq; auto; lia.
Qed.

Lemma wr_in_range {A} (a : list A) i v :
  0 <= i < Z.of_nat (length a) -> wr a i v = Done (<[Z.to_nat i := v]> a).
Proof. intros. apply wr_Done; auto. Qed.

Lemma bind_Done {A B} (m : outcome A) (k : A -> outcome B) b :
  (x ← m; k x) = Done b <-> exists a, m = Done a /\ k a = Done b.
Proof.
  destruct m; simpl; split; intros; try discriminate.
  - eauto.
  - destruct H as (? & ? & ?). by simplify_eq.
  - destruct H as (? & ? & ?). discriminate.
  - destruct H as (? & ? & ?). discriminate.
Qed.

Lemma bind_done {A B} (a : A) (k : A -> outcome B) : (x ← Done a; k x) = k a.
Proof. reflexivity. Qed.

Lemma for_each_app {A S} (body : S -> A -> outcome S) l1 l2 s :
  for_each body (l1 ++ l2) s = (s' ← for_each body l1 s; for_each body l2 s').
Proof.
  revert s. induction l1 as [|a l1 IH]; intros s; simpl; [done|].
  destruct (body s a); simpl; auto.
Qed.

(** The rule for a loop invariant that may mention the values already
    processed. *)
Lemma for_each_invariant {A S} (P : list A -> S -> Prop)
    (body : S -> A -> outcome S) l s :
  P [] s ->
  (forall done a rest s, l = done ++ a :: rest -> P done s ->
     exists s', body s a = Done s' /\ P (done ++ [a]) s') ->
  exists s', for_each body l s = Done s' /\ P l s'.
Proof.
  intros H0 Hstep.
  assert (forall rest done s, l = done ++ rest -> P done s ->
            exists s', for_each body rest s = Done s' /\ P l s') as Hgen.
  { induction rest as [|a rest IH]; intros done s0 Hl HP.
    - rewrite app_nil_r in Hl. subst. simpl. eauto.
    - destruct (Hstep done a rest s0 Hl HP) as (s1 & Hb & HP1).
      simpl. rewrite Hb. simpl.
      apply (IH (done ++ [a])); [|done].
      by rewrite <- app_assoc. }
  by apply (Hgen l []).
Qed.

Lemma for_each_unchanged {A S} (body : S -> A -> outcome S) l s :
  (forall a, a ∈ l -> body s a = Done s) -> for_each body l s = Done s.
Proof.
  induction l as [|a l IH]; intros H; simpl; [done|].
  rewrite H by left. simpl. apply IH. intros. apply H. by right.
Qed.

(** ** The grid *)

Lemma cells_eq : cells = 3600.
Proof. reflexivity. Qed.

Lemma cell_index_range x y :
  in_grid x y -> 0 <= cell_index x y < cells.
Proof. unfold in_grid, cell_index, cells, gridWidth, gridHeight. lia. Qed.

Lemma cell_index_inj x y x' y' :
  in_grid x y -> in_grid x' y' -> cell_index x y = cell_index x' y' ->
  x = x' /\ y = y'.
Proof. unfold in_grid, cell_index, gridWidth, gridHeight. lia. Qed.

Lemma index_is_cell k :
  0 <= k < cells -> exists x y, in_grid x y /\ cell_index x y = k.
Proof.
  intros Hk. exists (k mod gridWidth), (k / gridWidth).
  unfold in_grid, cell_index, cells, gridWidth, gridHeight in *.
  Z.div_mod_to_equations. lia.
Qed.

Lemma cell_index_nat_inj x y x' y' :
  in_grid x y -> in_grid x' y' ->
  Z.to_nat (cell_index x y) = Z.to_nat (cell_index x' y') ->
  x = x' /\ y = y'.
Proof.
  intros H1 H2 H. apply cell_index_inj; auto.
  pose proof (cell_index_range _ _ H1). pose proof (cell_index_range _ _ H2). lia.
Qed.

(** ** The clearance-field rebuild *)

Lemma ceil_sqrt_nonneg n : 0 <= ceil_sqrt n.
Proof.
  unfold ceil_sqrt. pose proof (Z.sqrt_nonneg n).
  destruct (Z.sqrt n * Z.sqrt n =? n); lia.
Qed.

Lemma ceil_sqrt_far n : 121 <= n -> 11 <= ceil_sqrt n.
Proof.
  intros H. unfold ceil_sqrt.
  assert (Z.sqrt 121 <= Z.sqrt n) as Hs by (apply Z.sqrt_le_mono; lia).
  change (Z.sqrt 121) with 11 in Hs.
  destruct (Z.sqrt n * Z.sqrt n =? n); lia.
Qed.

Lemma isqrt_lookup n : 0 <= n < 256 -> rd isqrt n = Done (ceil_sqrt n).
Proof.
  intros Hn. apply rd_lookup; [lia|]. unfold isqrt.
  rewrite list_lookup_fmap, lookup_seqZ_lt by lia. simpl. f_equal. f_equal. lia.
Qed.

Lemma distance_metric_nonneg sdfFunction dx dy :
  0 <= distance_metric sdfFunction dx dy.
Proof.
  unfold distance_metric.
  destruct (sdfFunction =? 0); [apply ceil_sqrt_nonneg|].
  destruct (sdfFunction =? 1); lia.
Qed.

Lemma distance_metric_origin sdfFunction : distance_metric sdfFunction 0 0 = 0.
Proof.
  unfold distance_metric.
  destruct (sdfFunction =? 0); [reflexivity|]. destruct (sdfFunction =? 1); reflexivity.
Qed.

Lemma distance_metric_far sdfFunction dx dy :
  10 < Z.abs dx \/ 10 < Z.abs dy -> 10 < distance_metric sdfFunction dx dy.
Proof.
  intros H. unfold distance_metric.
  destruct (sdfFunction =? 0).
  - assert (11 <= ceil_sqrt (dx * dx + dy * dy)); [|lia].
    apply ceil_sqrt_far. nia.
  - destruct (sdfFunction =? 1); lia.
Qed.

Lemma sdf_distance_near sdfFunction dx dy :
  0 <= sdfFunction <= 2 -> Z.abs dx <= 10 -> Z.abs dy <= 10 ->
  sdf_distance sdfFunction dx dy = Done (distance_metric sdfFunction dx dy).
Proof.
  intros Hf Hx Hy. unfold sdf_distance, distance_metric.
  destruct (Z.eqb_spec sdfFunction 0); [apply isqrt_lookup; nia|].
  destruct (Z.eqb_spec sdfFunction 1).
  - f_equal. destruct (Z.ltb_spec (Z.abs dx) (Z.abs dy)); lia.
  - destruct (Z.eqb_spec sdfFunction 2); [done | lia].
Qed.

Lemma splat_value_min v d : 0 <= v <= 10 -> splat_value v d = Z.min v d.
Proof.
  intros Hv. unfold splat_value.
  destruct (Z.ltb_spec d v), (Z.ltb_spec d 10); simpl; lia.
Qed.

Lemma splat_value_twice v d : splat_value (splat_value v d) d = splat_value v d.
Proof.
  unfold splat_value.
  destruct (d <? v) eqn:E1, (d <? 10) eqn:E2; simpl; rewrite ?E1, ?E2; simpl;
    try done.
  by destruct (d <? d).
Qed.

Lemma for_each_map {A B S} (g : A -> B) (body : S -> B -> outcome S) l : forall s,
  for_each body (List.map g l) s = for_each (fun s a => body s (g a)) l s.
Proof.
  induction l as [|a l IH]; intros s; simpl; [done|].
  destruct (body s (g a)); simpl; auto.
Qed.

(** Two nested loops are one loop over the pairs of their values. *)
Lemma for_each_list_prod {A B S} (body : A -> S -> B -> outcome S) rows cols :
  forall s,
    for_each (fun s a => for_each (body a) cols s) rows s =
    for_each (fun s ab => body ab.1 s ab.2) (list_prod rows cols) s.
Proof.
  induction rows as [|a rows IH]; intros s; simpl; [done|].
  rewrite for_each_app, for_each_map. simpl.
  destruct (for_each (body a) cols s); simpl; auto.
Qed.

Lemma elem_of_list_prod {A B} (l : list A) (k : list B) a b :
  (a, b) ∈ list_prod l k <-> a ∈ l /\ b ∈ k.
Proof. rewrite !list_elem_of_In. apply in_prod_iff. Qed.

Section Splat.

Variables sdfFunction x y : Z.
Hypothesis sdfFunction_range : 0 <= sdfFunction <= 2.
Hypothesis blocked_in_grid : in_grid x y.

Lemma window_spec i j :
  in_grid i j ->
  ((j, i) ∈ splat_window x y
   <-> Z.abs (x - i) <= 10 /\ Z.abs (y - j) <= 10).
Proof.
  intros Hg. unfold splat_window. rewrite elem_of_list_prod, !elem_of_seqZ.
  unfold in_grid, gridWidth, gridHeight in *.
  destruct (Z.ltb_spec (x - 10) 0), (Z.ltb_spec (y - 10) 0),
    (Z.geb_spec (x + 10) 80), (Z.geb_spec (y + 10) 45); lia.
Qed.

Lemma window_in_grid i j :
  (j, i) ∈ splat_window x y ->
  in_grid i j /\ Z.abs (x - i) <= 10 /\ Z.abs (y - j) <= 10.
Proof.
  unfold splat_window. rewrite elem_of_list_prod, !elem_of_seqZ.
  unfold in_grid, gridWidth, gridHeight in *.
  destruct (Z.ltb_spec (x - 10) 0), (Z.ltb_spec (y - 10) 0),
    (Z.geb_spec (x + 10) 80), (Z.geb_spec (y + 10) 45); lia.
Qed.

Lemma splat_cell_spec sdfCells i j v :
  in_grid i j -> Z.abs (x - i) <= 10 -> Z.abs (y - j) <= 10 ->
  clearance_at sdfCells i j = Some v ->
  splat_cell sdfFunction x y j sdfCells i =
  Done (<[Z.to_nat (cell_index i j) :=
            splat_value v (distance_metric sdfFunction (x - i) (y - j))]> sdfCells).
Proof.
  intros Hg Hx Hy Hv. unfold splat_cell.
  rewrite sdf_distance_near, bind_done by done.
  pose proof (cell_index_range _ _ Hg) as Hi.
  pose proof (lookup_lt_Some _ _ _ Hv) as Hlt.
  unfold clearance_at, cell_index in *.
  rewrite (rd_lookup _ _ v), bind_done by (lia || done).
  unfold splat_value.
  destruct ((_ <? v) && (_ <? 10)).
  - apply wr_in_range. lia.
  - by rewrite list_insert_id.
Qed.

Lemma splat_spec sdfCells :
  Z.of_nat (length sdfCells) = cells ->
  (forall k v, sdfCells !! k = Some v -> 0 <= v <= 10) ->
  exists sdfCells',
    splat sdfFunction x y sdfCells = Done sdfCells' /\
    Z.of_nat (length sdfCells') = cells /\
    forall i j v,
      in_grid i j -> clearance_at sdfCells i j = Some v ->
      clearance_at sdfCells' i j
      = Some (Z.min v (distance_metric sdfFunction (x - i) (y - j))).
Proof.
  intros Hlen Hrange. unfold splat.
  pose proof (cell_index_range _ _ blocked_in_grid) as Hi.
  rewrite wr_in_range, bind_done by (unfold cell_index in Hi; lia).
  fold (cell_index x y).
  set (sdf1 := <[Z.to_nat (cell_index x y) := 0]> sdfCells).
  rewrite for_each_list_prod.
  change (list_prod _ _) with (splat_window x y).
  set (window := splat_window x y).
  assert (Z.of_nat (length sdf1) = cells) as Hlen1
      by (unfold sdf1; by rewrite length_insert).
  destruct (for_each_invariant (A := Z * Z)
    (fun done s =>
       Z.of_nat (length s) = cells /\
       forall i j v, in_grid i j -> clearance_at sdf1 i j = Some v ->
         clearance_at s i j =
         Some (if decide ((j, i) ∈ done)
               then splat_value v (distance_metric sdfFunction (x - i) (y - j))
               else v))
    (fun s ab => splat_cell sdfFunction x y ab.1 s ab.2) window sdf1)
    as (s' & Hs' & Hlen' & Hfinal).
  - split; [exact Hlen1|]. intros i j v Hg Hv.
    destruct (decide _) as [Hin|_]; [by apply elem_of_nil in Hin | done].
  - intros done [j i] rest s Hl [Hsl Hs]. simpl.
    assert ((j, i) ∈ window) as Hw by (rewrite Hl; apply elem_of_app; right; left).
    apply window_in_grid in Hw as (Hg & Hx & Hy).
    pose proof (cell_index_range _ _ Hg) as Hij.
    destruct (lookup_lt_is_Some_2 sdf1 (Z.to_nat (cell_index i j))) as [v Hv]; [lia|].
    pose proof (Hs i j v Hg Hv) as Hcur.
    erewrite splat_cell_spec by eauto.
    eexists. split; [done|]. split; [by rewrite length_insert|].
    intros i' j' v' Hg' Hv'. unfold clearance_at.
    destruct (decide (Z.to_nat (cell_index i' j') = Z.to_nat (cell_index i j)))
      as [Heq|Hne].
    + apply cell_index_nat_inj in Heq as [-> ->]; try done.
      rewrite list_lookup_insert_eq by lia.
      assert (v' = v) as -> by (unfold clearance_at in *; congruence).
      rewrite (decide_True (P := (j, i) ∈ done ++ [(j, i)]))
        by (apply elem_of_app; right; left).
      f_equal. destruct (decide _); [apply splat_value_twice | done].
    + rewrite list_lookup_insert_ne by done.
      specialize (Hs i' j' v' Hg' Hv'). unfold clearance_at in Hs. rewrite Hs.
      f_equal. destruct (decide ((j', i') ∈ done)) as [Hd|Hd].
      * rewrite decide_True; [done|]. apply elem_of_app. by left.
      * rewrite decide_False; [done|]. intros Hin.
        apply elem_of_app in Hin as [?|Hin]; [done|].
        apply list_elem_of_singleton in Hin. injection Hin as -> ->. done.
  - exists s'. split; [exact Hs'|]. split; [exact Hlen'|].
    intros i j v Hg Hv.
    pose proof (Hrange _ _ Hv) as Hv10.
    pose proof (distance_metric_nonneg sdfFunction (x - i) (y - j)) as Hd0.
    unfold clearance_at in *.
    destruct (decide (Z.to_nat (cell_index i j) = Z.to_nat (cell_index x y)))
      as [Heq|Hne].
    + apply cell_index_nat_inj in Heq as [-> ->]; try done.
      assert (sdf1 !! Z.to_nat (cell_index x y) = Some 0) as H1
          by (apply list_lookup_insert_eq; lia).
      rewrite (Hfinal x y 0 Hg H1).
      rewrite decide_True by (apply window_spec; [done | lia]).
      replace (x - x) with 0 by lia. replace (y - y) with 0 by lia.
      rewrite distance_metric_origin. f_equal. unfold splat_value. simpl. lia.
    + assert (sdf1 !! Z.to_nat (cell_index i j) = Some v) as H1
          by (unfold sdf1; by rewrite list_lookup_insert_ne).
      rewrite (Hfinal i j v Hg H1). f_equal.
      destruct (decide _) as [Hin|Hout].
      * by apply splat_value_min.
      * assert (10 < distance_metric sdfFunction (x - i) (y - j)); [|lia].
        apply distance_metric_far.
        destruct (decide (Z.abs (x - i) <= 10 /\ Z.abs (y - j) <= 10)) as [Hw|Hw];
          [|lia].
        exfalso. apply Hout. by apply window_spec.
Qed.

End Splat.

Section Rebuild.

Variable blockedCells : list Z.
Variable sdfFunction : Z.
Hypothesis blockedCells_length : Z.of_nat (length blockedCells) = cells.
Hypothesis sdfFunction_range : 0 <= sdfFunction <= 2.

Local Abbreviation minimum := (min_with_blocked blockedCells sdfFunction).

Lemma min_with_blocked_range x y done :
  0 <= fold_left (minimum x y) done 10 <= 10.
Proof.
  induction done as [|b done IH] using rev_ind; simpl; [lia|].
  rewrite fold_left_app. simpl. unfold min_with_blocked at 1 3.
  pose proof (distance_metric_nonneg sdfFunction (b.2 - x) (b.1 - y)).
  destruct (is_blocked _ _ _); lia.
Qed.

Lemma elem_of_grid_cells x y : (y, x) ∈ grid_cells <-> in_grid x y.
Proof.
  unfold grid_cells, in_grid. rewrite elem_of_list_prod, !elem_of_seqZ. lia.
Qed.

(** The rebuild stores, for every cell, the saturated minimum over the
    blocked cells. *)
Lemma UpdateSDF_spec :
  exists sdfCells,
    UpdateSDF blockedCells sdfFunction = Done sdfCells /\
    Z.of_nat (length sdfCells) = cells /\
    forall x y, in_grid x y ->
      clearance_at sdfCells x y = Some (spec_clearance blockedCells sdfFunction x y).
Proof.
  unfold UpdateSDF. rewrite for_each_list_prod. fold cells grid_cells.
  destruct (for_each_invariant (A := Z * Z)
    (fun done s =>
       Z.of_nat (length s) = cells /\
       forall i j, in_grid i j ->
         clearance_at s i j = Some (fold_left (minimum i j) done 10))
    (fun s ab =>
       b ← rd blockedCells (ab.1 * gridWidth + ab.2);
       if b =? 1 then splat sdfFunction ab.2 ab.1 s else Done s)
    grid_cells (replicate (Z.to_nat cells) 10))
    as (s' & Hs' & Hlen' & Hfinal).
  - split; [rewrite length_replicate; rewrite cells_eq; lia|].
    intros i j Hg. cbn [fold_left]. unfold clearance_at.
    pose proof (cell_index_range _ _ Hg).
    apply lookup_replicate_2. lia.
  - intros done [y x] rest s Hl [Hsl Hs]. simpl.
    assert (in_grid x y) as Hg.
    { apply elem_of_grid_cells. rewrite Hl. apply elem_of_app. right. left. }
    pose proof (cell_index_range _ _ Hg) as Hi. unfold cell_index in Hi.
    destruct (rd_in_range blockedCells (y * gridWidth + x)) as (b & Hrd & Hb); [lia|].
    rewrite Hrd, bind_done.
    assert (is_blocked blockedCells x y = (b =? 1)) as Hblocked
        by (unfold is_blocked, cell_index; by rewrite Hb).
    destruct (b =? 1).
    + destruct (splat_spec sdfFunction x y sdfFunction_range Hg s Hsl)
        as (s1 & Hs1 & Hlen1 & Hval).
      { intros k v Hv.
        assert (0 <= Z.of_nat k < cells) as Hk by (apply lookup_lt_Some in Hv; lia).
        destruct (index_is_cell _ Hk) as (i & j & Hgk & Hidx).
        specialize (Hs _ _ Hgk). unfold clearance_at in Hs.
        rewrite Hidx, Nat2Z.id, Hv in Hs. injection Hs as ->.
        apply min_with_blocked_range. }
      exists s1. split; [done|]. split; [done|].
      intros i j Hgij. rewrite (Hval i j _ Hgij (Hs i j Hgij)).
      rewrite fold_left_app. simpl. unfold min_with_blocked at 2. simpl.
      by rewrite Hblocked.
    + exists s. split; [done|]. split; [done|].
      intros i j Hgij. rewrite (Hs i j Hgij).
      rewrite fold_left_app. simpl. unfold min_with_blocked at 2. simpl.
      by rewrite Hblocked.
  - exists s'. split_and!; done.
Qed.

End Rebuild.


(** The fold that defines [spec_clearance] is the minimum, saturated at
    its initial value, of the distances to the blocked cells of the list. *)
Lemma min_with_blocked_fold blockedCells sdfFunction x y l : forall acc,
  let r := fold_left (min_with_blocked blockedCells sdfFunction x y) l acc in
  r <= acc /\
  (forall b, b ∈ l -> is_blocked blockedCells b.2 b.1 = true ->
             r <= distance_metric sdfFunction (b.2 - x) (b.1 - y)) /\
  (r = acc \/
   exists b, b ∈ l /\ is_blocked blockedCells b.2 b.1 = true /\
             r = distance_metric sdfFunction (b.2 - x) (b.1 - y)).
Proof.
  induction l as [|a l IH]; intros acc; simpl.
  { split; [lia|]. split; [|by left]. intros b Hb. by apply elem_of_nil in Hb. }
  set (acc' := min_with_blocked blockedCells sdfFunction x y acc a).
  destruct (IH acc') as (Hle & Hall & Hatt).
  assert (acc' = if is_blocked blockedCells a.2 a.1
                 then Z.min acc (distance_metric sdfFunction (a.2 - x) (a.1 - y))
                 else acc) as Hacc by reflexivity.
  clearbody acc'.
  destruct (is_blocked blockedCells a.2 a.1) eqn:Ha; subst acc'.
  - split; [lia|]. split.
    + intros b Hb Hbb. apply elem_of_cons in Hb as [-> | Hb]; [lia | by apply Hall].
    + destruct Hatt as [Hr | (b & Hb & Hbb & Hr)].
      * destruct (Z.min_spec acc (distance_metric sdfFunction (a.2 - x) (a.1 - y)))
          as [[_ Hm] | [_ Hm]].
        -- left. congruence.
        -- right. exists a. split; [left|]. split; [done | congruence].
      * right. exists b. split; [by right | done].
  - split; [lia|]. split.
    + intros b Hb Hbb. apply elem_of_cons in Hb as [-> | Hb]; [congruence | by apply Hall].
    + destruct Hatt as [Hr | (b & Hb & Hbb & Hr)]; [by left|].
      right. exists b. split; [by right | done].
Qed.

Lemma spec_clearance_minimum blockedCells sdfFunction x y :
  let c := spec_clearance blockedCells sdfFunction x y in
  0 <= c <= 10 /\
  (forall bx by', in_grid bx by' -> is_blocked blockedCells bx by' = true ->
                  c <= distance_metric sdfFunction (bx - x) (by' - y)) /\
  (c = 10 \/
   exists bx by', in_grid bx by' /\ is_blocked blockedCells bx by' = true /\
                  c = distance_metric sdfFunction (bx - x) (by' - y)).
Proof.
  unfold spec_clearance.
  destruct (min_with_blocked_fold blockedCells sdfFunction x y grid_cells 10)
    as (Hle & Hall & Hatt).
  split; [|split].
  - split; [|done].
    destruct Hatt as [-> | (b & _ & _ & ->)]; [lia | apply distance_metric_nonneg].
  - intros bx by' Hg Hb. apply (Hall (by', bx)); [|done]. by apply elem_of_grid_cells.
  - destruct Hatt as [? | ([by' bx] & Hin & Hb & Hr)]; [by left|].
    right. exists bx, by'. split; [by apply elem_of_grid_cells | done].
Qed.


(** ** The table of offsets *)

Lemma neighborOffsets_ok : forallb offset_ok neighborOffsets = true.
Proof. vm_compute. reflexivity. Qed.

(** The table has room for [20 * 20] offsets; the loop stores [316]. *)
Lemma neighborOffsetCount_value : neighborOffsetCount = 316.
Proof. vm_compute. reflexivity. Qed.

Lemma neighborOffsets_spec off :
  off ∈ neighborOffsets ->
  1 <= distance off <= 10 /\
  distance off = ceil_sqrt (ox off * ox off + oy off * oy off) /\
  (ox off <> 0 \/ oy off <> 0) /\
  (distance off <= 1 -> Z.abs (ox off) + Z.abs (oy off) = 1).
Proof.
  intros Hin. apply list_elem_of_In in Hin.
  pose proof neighborOffsets_ok as Hall.
  rewrite forallb_forall in Hall. specialize (Hall _ Hin).
  unfold offset_ok in Hall.
  repeat (apply andb_prop in Hall; destruct Hall as [Hall ?]).
  apply negb_true_iff, andb_false_iff in H0. apply orb_prop in H.
  repeat split; lia.
Qed.

Section Relax.

Variable sdfCells : list Z.
Variables unitSize sdfFactor enableJumping : Z.

Local Abbreviation relax_step := (relax sdfCells unitSize sdfFactor enableJumping).
Local Abbreviation can_step := (passable sdfCells unitSize enableJumping).

Hypothesis sdfCells_length : Z.of_nat (length sdfCells) = cells.

Lemma relax_cases node cellSdf maxDistance st off :
  Z.of_nat (length (st_map st)) = cells ->
  Z.of_nat (length (st_queue st)) < cells ->
  exists st', relax_step node cellSdf maxDistance st off = Done st' /\
              relaxed_to sdfCells unitSize sdfFactor enableJumping
                         node cellSdf maxDistance off st st'.
Proof.
  intros Hmap Hqueue. unfold relax.
  destruct (Z.gtb_spec (distance off) maxDistance) as [Hd|Hd]; simpl.
  { eexists; split; [done|]. apply relaxed_skip. intros v (? & _). lia. }
  destruct (Z.eqb_spec enableJumping 0) as [Hj|Hj],
           (Z.gtb_spec (distance off) 1) as [Hd1|Hd1]; simpl;
    try (eexists; split; [done|]; apply relaxed_skip; intros v (_ & ? & _); lia).
  all: set (x := nx node + ox off); set (y := ny node + oy off).
  all: destruct (Z.ltb_spec x 0), (Z.geb_spec x gridWidth),
         (Z.ltb_spec y 0), (Z.geb_spec y gridHeight); simpl;
    try (eexists; split; [done|]; apply relaxed_skip;
         intros v (_ & _ & Hg & _); unfold in_grid in Hg; fold x y in Hg; lia).
  all: assert (in_grid x y) as Hg by (unfold in_grid; lia).
  all: pose proof (cell_index_range _ _ Hg) as Hi; unfold cell_index in Hi.
  all: destruct (rd_in_range sdfCells (y * gridWidth + x)) as (v & Hrd & Hv); [lia|].
  all: rewrite Hrd; simpl.
  all: destruct (Z.ltb_spec v unitSize) as [Hu|Hu];
    [eexists; split; [done|]; apply relaxed_skip;
     intros v' (_ & _ & _ & Hc & ?); unfold clearance_at, cell_index in Hc;
     fold x y in Hc; simplify_eq; lia|].
  all: destruct (rd_in_range (st_map st) (y * gridWidth + x)) as (old & Hrdm & Hold); [lia|].
  all: rewrite Hrdm; simpl.
  all: assert (can_step (nx node) (ny node) maxDistance off v) as Hpass
      by (repeat split; fold x y; unfold in_grid in Hg; try lia; done).
  all: fold (step_score sdfFactor (score node) cellSdf v (distance off)).
  all: set (s' := step_score sdfFactor (score node) cellSdf v (distance off)).
  all: destruct (Z.eqb_spec (score old) 0) as [Hz|Hz],
         (Z.ltb_spec s' (score old)) as [Hlt|Hlt]; simpl;
    try (eexists; split; [done|]; eapply relaxed_keep; eauto; done).
  all: rewrite wr_in_range by lia; simpl.
  all: destruct (Z.ltb_spec (Z.of_nat (length (st_queue st))) (gridWidth * gridHeight))
      as [Hq|Hq]; [|unfold cells in Hqueue; lia].
  all: rewrite length_app; simpl length.
  all: destruct (Z.geb_spec (Z.of_nat (length (st_queue st) + 1)) (gridWidth * gridHeight))
      as [Hfull|Hfull].
  all: eexists; (split; [done|]).
  all: eapply relaxed_update; eauto; simpl; try (left; lia); try (right; lia).
  all: try (right; split; [|unfold cells; split; [done|lia]];
            rewrite take_app_le by lia; apply take_ge; lia).
  all: try (left; unfold cells; split; [done|split; [done|lia]]).
Qed.

End Relax.

(** ** Dequeuing *)

Lemma scan_lowest_spec rest : forall lowestScore lowest i,
  (scan_lowest lowestScore lowest i rest = lowest /\
   Forall (fun m => lowestScore <= score m) rest) \/
  (exists k n, scan_lowest lowestScore lowest i rest = (i + k)%nat /\
               rest !! k = Some n /\ score n < lowestScore /\
               Forall (fun m => score n <= score m) rest).
Proof.
  induction rest as [|m rest IH]; intros lowestScore lowest i; simpl.
  { left. split; [done | constructor]. }
  destruct (Z.ltb_spec (score m) lowestScore) as [Hlt|Hge].
  - right. destruct (IH (score m) i (S i)) as [[Heq Hall] | (k & n & Heq & Hk & Hn & Hall)].
    + exists 0%nat, m. rewrite Heq, Nat.add_0_r. repeat split; auto.
      constructor; [lia | done].
    + exists (S k), n. rewrite Heq. repeat split; auto; try lia.
      constructor; [lia | done].
  - destruct (IH lowestScore lowest (S i)) as [[Heq Hall] | (k & n & Heq & Hk & Hn & Hall)].
    + left. split; [done|]. constructor; [lia | done].
    + right. exists (S k), n. rewrite Heq. repeat split; auto; try lia.
      constructor; [lia | done].
Qed.

Lemma dequeued_lowest st :
  st_queue st <> [] ->
  exists n, dequeued st = Some n /\
            Forall (fun m => score n <= score m) (st_queue st).
Proof.
  unfold dequeued, lowestScoreIndex. destruct (st_queue st) as [|m rest]; [done|].
  intros _.
  destruct (scan_lowest_spec rest (score m) 0%nat 1%nat)
    as [[Heq Hall] | (k & n & Heq & Hk & Hn & Hall)]; rewrite Heq.
  - exists m. split; [done|]. constructor; [lia | done].
  - exists n. split; [done|]. constructor; [lia | done].
Qed.

Lemma dequeued_elem st n : dequeued st = Some n -> n ∈ st_queue st.
Proof. unfold dequeued. intros H. eapply list_elem_of_lookup_2; eauto. Qed.

Section Loop.

Variable sdfCells : list Z.
Variables unitSize sdfFactor enableJumping : Z.
Hypothesis sdfCells_length : Z.of_nat (length sdfCells) = cells.

Local Abbreviation relax_step := (relax sdfCells unitSize sdfFactor enableJumping).
Local Abbreviation turn := (loop_body sdfCells unitSize sdfFactor enableJumping).

(** One turn of the main loop dequeues the entry with the lowest score
    and runs the loop over the offsets for it. *)
Lemma loop_body_dequeue st n :
  dequeued st = Some n -> in_grid (nx n) (ny n) ->
  exists cellSdf,
    clearance_at sdfCells (nx n) (ny n) = Some cellSdf /\
    turn st =
      for_each (relax_step n cellSdf (max_distance unitSize cellSdf)) neighborOffsets
        (mkState (delete (lowestScoreIndex (st_queue st)) (st_queue st))
                 (st_map st) (st_overflowed st)).
Proof.
  intros Hn Hg. unfold dequeued in Hn.
  pose proof (cell_index_range _ _ Hg) as Hi. unfold cell_index in Hi.
  destruct (rd_in_range sdfCells (ny n * gridWidth + nx n)) as (c & Hrd & Hc); [lia|].
  exists c. split; [done|].
  unfold loop_body.
  rewrite (rd_lookup _ _ n) by (rewrite ?Nat2Z.id; [lia || done..]).
  simpl. rewrite Hrd. simpl. done.
Qed.

End Loop.

(** ** The shape of the map and of the queue *)

Section Shape.

Variable sdfCells : list Z.
Variables unitSize sdfFactor enableJumping startX startY : Z.
Hypothesis sdfCells_length : Z.of_nat (length sdfCells) = cells.
Hypothesis start_in_grid : in_grid startX startY.

Local Abbreviation shaped := (shape sdfCells unitSize enableJumping startX startY).
Local Abbreviation relax_step := (relax sdfCells unitSize sdfFactor enableJumping).
Local Abbreviation turn := (loop_body sdfCells unitSize sdfFactor enableJumping).
Local Abbreviation run := (search sdfCells unitSize sdfFactor enableJumping).

Lemma relaxed_to_shape node cs st off st' :
  in_grid (nx node) (ny node) ->
  clearance_at sdfCells (nx node) (ny node) = Some cs ->
  off ∈ neighborOffsets ->
  shaped st ->
  relaxed_to sdfCells unitSize sdfFactor enableJumping node cs
             (max_distance unitSize cs) off st st' ->
  shaped st'.
Proof.
  intros Hg Hcs Hoff Hsh Hrel.
  pose proof Hsh as (Hlen & Hq & Hqg & (es & Hes & Hesx & Hesy) & Hmap).
  destruct Hrel as [ | | v old st' Hpass Hold Hupd entry Hmap' Hqueue]; try done.
  assert (in_grid (nx entry) (ny entry)) as Hge by (destruct Hpass as (_ & _ & ? & _); done).
  pose proof (cell_index_range _ _ Hge) as Hir.
  split_and!.
  - rewrite Hmap', length_insert. done.
  - destruct Hqueue as [(-> & _ & ?) | (-> & _ & ?)]; [rewrite length_app; simpl|]; lia.
  - destruct Hqueue as [(-> & _ & ?) | (-> & _ & ?)]; [|done].
    apply Forall_app. split; [done|]. by constructor.
  - unfold map_at. rewrite Hmap'.
    destruct (decide (Z.to_nat (cell_index startX startY)
                      = Z.to_nat (cell_index (nx entry) (ny entry)))) as [Heq|Hne].
    + rewrite Heq. simpl. rewrite list_lookup_insert_eq by (simpl in *; lia).
      apply cell_index_nat_inj in Heq as [-> ->]; try done.
      eexists. split; [done|]. done.
    + simpl in Hne. rewrite list_lookup_insert_ne by done. eauto.
  - intros k e. rewrite Hmap'.
    destruct (decide (k = Z.to_nat (cell_index (nx entry) (ny entry)))) as [->|Hne].
    + simpl. rewrite list_lookup_insert_eq.
      2:{ pose proof (cell_index_range _ _ Hge). simpl in *. lia. }
      intros [= <-]. right; right. simpl. split_and!; try done.
      exists off, v, cs. split_and!; done.
    + simpl in Hne. rewrite list_lookup_insert_ne by done. apply Hmap.
Qed.

Lemma loop_body_shape st :
  shaped st -> st_queue st <> [] ->
  exists st', turn st = Done st' /\ shaped st'.
Proof.
  intros Hsh Hne.
  destruct (dequeued_lowest st Hne) as (n & Hn & _).
  pose proof Hsh as (Hlen & Hq & Hqg & Hst & Hmap).
  assert (in_grid (nx n) (ny n)) as Hg.
  { rewrite Forall_forall in Hqg. apply Hqg. by apply dequeued_elem. }
  destruct (loop_body_dequeue sdfCells unitSize sdfFactor enableJumping
              sdfCells_length st n Hn Hg) as (cs & Hcs & ->).
  apply (for_each_invariant (fun _ s => shaped s)).
  - split_and!; simpl; try done.
    + destruct (decide (length (delete (lowestScoreIndex (st_queue st)) (st_queue st))
                        <= length (st_queue st))%nat); [lia|].
      rewrite length_delete in n0 by (unfold dequeued in Hn; eauto). lia.
    + rewrite Forall_forall in *. intros m Hm. apply Hqg.
      eapply list_elem_of_delete_inv; eauto.
  - intros done off rest s Hl Hs.
    destruct (relax_cases sdfCells unitSize sdfFactor enableJumping sdfCells_length
                n cs (max_distance unitSize cs) s off) as (s' & Hs' & Hrel);
      [apply Hs .. |].
    exists s'. split; [done|].
    eapply relaxed_to_shape; eauto.
    rewrite Hl. apply elem_of_app. right. left.
Qed.

Lemma search_shape fuel : forall st st',
  shaped st -> run fuel st = Done st' -> shaped st' /\ st_queue st' = [].
Proof.
  induction fuel as [|fuel IH]; intros st st' Hsh; simpl.
  - destruct (st_queue st) eqn:Hq; simpl; [|discriminate].
    intros [= <-]. done.
  - destruct (st_queue st) eqn:Hq; simpl.
    + intros [= <-]. done.
    + destruct (loop_body_shape st Hsh) as (st1 & Hst1 & Hsh1); [by rewrite Hq|].
      rewrite Hst1. simpl. by apply IH.
Qed.

Lemma search_no_fault fuel : forall st,
  shaped st -> run fuel st <> Fault.
Proof.
  induction fuel as [|fuel IH]; intros st Hsh; simpl.
  - destruct (st_queue st); simpl; discriminate.
  - destruct (st_queue st) eqn:Hq; simpl; [discriminate|].
    destruct (loop_body_shape st Hsh) as (st1 & Hst1 & Hsh1); [by rewrite Hq|].
    rewrite Hst1. simpl. by apply IH.
Qed.

Lemma init_search_shape map :
  Z.of_nat (length map) = cells ->
  exists st, init_search startX startY map = Done st /\
    st_queue st = [mkNode startX startY startX startY 1] /\
    st_map st = <[Z.to_nat (cell_index startX startY) := start_entry startX startY]>
                  (clear_score <$> map) /\
    st_overflowed st = false /\
    shaped st.
Proof.
  intros Hlen. unfold init_search.
  fold cells. rewrite <- Hlen.
  rewrite (proj2 (Z.ltb_ge _ _)) by lia.
  rewrite Nat2Z.id, firstn_all, drop_all, app_nil_r.
  pose proof (cell_index_range _ _ start_in_grid) as Hi.
  rewrite wr_in_range by (rewrite length_fmap; unfold cell_index in Hi; lia).
  eexists. split; [done|]. split_and!; try done.
  unfold shape. split_and!; simpl.
  - by rewrite length_insert, length_fmap.
  - rewrite cells_eq. lia.
  - constructor; [done | constructor].
  - unfold map_at, cell_index.
    rewrite list_lookup_insert_eq by (rewrite length_fmap; unfold cell_index in Hi; lia).
    eexists. split; [done|]. done.
  - intros k e. fold (cell_index startX startY).
    destruct (decide (k = Z.to_nat (cell_index startX startY))) as [->|Hne].
    + rewrite list_lookup_insert_eq by (rewrite length_fmap; lia).
      intros [= <-]. right; left. done.
    + rewrite list_lookup_insert_ne by done.
      rewrite list_lookup_fmap. destruct (map !! k); simpl; [|done].
      intros [= <-]. left. done.
Qed.

End Shape.

(** ** Reconstruction *)

Section Reconstruct.

Variable sdfCells : list Z.
Variables toX toY startX startY unitSize sdfFactor enableJumping : Z.
Hypothesis sdfCells_length : Z.of_nat (length sdfCells) = cells.
Hypothesis start_in_grid : in_grid startX startY.
Hypothesis goal_in_grid : in_grid toX toY.

Local Abbreviation shaped := (shape sdfCells unitSize enableJumping startX startY).
Local Abbreviation gathered := (collected sdfCells unitSize enableJumping startX startY).

Lemma follow_shape map remaining : forall x y,
  Z.of_nat (length map) = cells ->
  (forall k e, map !! k = Some e ->
               entry_shape sdfCells unitSize enableJumping startX startY k e) ->
  in_grid x y ->
  exists l, follow startX startY remaining map x y = Done l /\
    (length l <= remaining)%nat /\
    Forall (gathered map) l /\
    linked x y l /\
    in_grid (chain_end x y l).1 (chain_end x y l).2 /\
    ((length l < remaining)%nat ->
     exists e, map_at map (chain_end x y l).1 (chain_end x y l).2 = Some e /\
               (score e <= 0 \/ chain_end x y l = (startX, startY))).
Proof.
  intros x y Hlen Hmap. revert x y.
  induction remaining as [|remaining IH]; intros x y Hg.
  all: pose proof (cell_index_range _ _ Hg) as Hi; unfold cell_index in Hi.
  all: destruct (rd_in_range map (y * gridWidth + x)) as (cur & Hrd & Hcur); [lia|].
  all: simpl; rewrite Hrd; simpl.
  - exists []. split; [by destruct (_ && _)|]. simpl. split_and!; auto; lia.
  - destruct (Z.gtb_spec (score cur) 0) as [Hs|Hs]; simpl.
    2:{ exists []. simpl. split_and!; auto; try lia. intros _. exists cur. split; [done|]. left. lia. }
    destruct (Z.eqb_spec x startX) as [Hx|Hx], (Z.eqb_spec y startY) as [Hy|Hy]; simpl.
    { exists []. simpl. split_and!; auto; try lia. intros _. exists cur. split; [done|].
      right. by subst. }
    all: destruct (Hmap _ _ Hcur) as [Hz | [[-> Hk] | (Hgc & Hk & Hgf & Hoff)]]; [lia | | ].
    all: try (apply (cell_index_nat_inj x y startX startY) in Hk as [? ?]; done).
    all: apply (cell_index_nat_inj x y (nx cur) (ny cur)) in Hk as [Hcx Hcy]; try done.
    all: destruct (IH _ _ Hgf) as (l & Hl & Hlenl & Hall & Hlink & Hend & Hstop).
    all: rewrite Hl; simpl.
    all: exists (cur :: l); simpl; split_and!; auto; try lia.
    all: try (intros ?; apply Hstop; lia).
    all: constructor; [|done].
    all: unfold collected; split_and!; auto; try lia.
    all: unfold map_at, cell_index; by rewrite <- Hcx, <- Hcy.
Qed.

Lemma reconstruct_shape st :
  shaped st ->
  exists r goal start, reconstruct toX toY startX startY st = Done r /\
    res_map r = st_map st /\ res_overflowed r = st_overflowed st /\
    map_at (st_map st) toX toY = Some goal /\
    map_at (st_map st) startX startY = Some start /\
    nx start = startX /\ ny start = startY /\
    pathLength r = Z.of_nat (length (path r)) /\
    ((score goal <= 0 /\ path r = []) \/
     (0 < score goal /\
      exists walked,
        follow startX startY (Z.to_nat cells) (st_map st) toX toY = Done walked /\
        path r = walked ++ [start])).
Proof.
  intros (Hlen & Hq & Hqg & (es & Hes & Hesx & Hesy) & Hmap).
  pose proof (cell_index_range _ _ goal_in_grid) as Hi. unfold cell_index in Hi.
  pose proof (cell_index_range _ _ start_in_grid) as His. unfold cell_index in His.
  destruct (rd_in_range (st_map st) (toY * gridWidth + toX)) as (goal & Hrd & Hgoal); [lia|].
  unfold reconstruct. rewrite Hrd, bind_done.
  destruct (Z.gtb_spec (score goal) 0) as [Hs|Hs].
  - destruct (follow_shape (st_map st) (Z.to_nat cells) toX toY Hlen Hmap goal_in_grid)
      as (l & Hl & _).
    pose proof Hl as Hl'. unfold cells in Hl'. rewrite Hl', bind_done.
    rewrite (rd_lookup _ _ es), bind_done by (lia || done).
    eexists _, goal, es. split; [done|]. cbn [res_map res_overflowed pathLength path].
    split_and!; auto.
    right. split; [lia|]. exists l. split; [exact Hl | done].
  - eexists _, goal, es. split; [done|]. cbn [res_map res_overflowed pathLength path].
    split_and!; auto.
Qed.

End Reconstruct.

(** ** FindPath as a whole *)

Section FindPathShape.

Variable sdfCells : list Z.
Variables toX toY startX startY unitSize sdfFactor enableJumping : Z.
Variable map : list PathfindingNode.
Hypothesis sdfCells_length : Z.of_nat (length sdfCells) = cells.
Hypothesis map_length : Z.of_nat (length map) = cells.
Hypothesis start_in_grid : in_grid startX startY.
Hypothesis goal_in_grid : in_grid toX toY.

Local Abbreviation shaped := (shape sdfCells unitSize enableJumping startX startY).
Local Abbreviation find :=
  (FindPath sdfCells toX toY startX startY unitSize sdfFactor enableJumping).

Lemma FindPath_stages fuel r :
  find fuel map = Done r ->
  exists st0 st,
    init_search startX startY map = Done st0 /\
    search sdfCells unitSize sdfFactor enableJumping fuel st0 = Done st /\
    reconstruct toX toY startX startY st = Done r /\
    shaped st /\ st_queue st = [].
Proof.
  unfold FindPath. intros H.
  apply bind_Done in H as (st0 & Hinit & H).
  apply bind_Done in H as (st & Hrun & Hrec).
  destruct (init_search_shape sdfCells unitSize enableJumping startX startY
              start_in_grid map map_length) as (st0' & Hinit' & _ & _ & _ & Hsh0).
  assert (st0' = st0) as -> by congruence.
  pose proof Hrun as Hrun'.
  eapply (search_shape _ _ _ _ startX startY) in Hrun' as [Hsh Hq]; eauto.
  exists st0, st. split_and!; done.
Qed.

Lemma FindPath_no_fault fuel : find fuel map <> Fault.
Proof.
  unfold FindPath.
  destruct (init_search_shape sdfCells unitSize enableJumping startX startY
              start_in_grid map map_length) as (st0 & -> & _ & _ & _ & Hsh0).
  rewrite bind_done.
  destruct (search sdfCells unitSize sdfFactor enableJumping fuel st0) as [st| |] eqn:Hrun;
    [|by eapply (search_no_fault _ _ _ _ startX startY) in Hrun; eauto|discriminate].
  rewrite bind_done.
  eapply (search_shape _ _ _ _ startX startY) in Hrun as [Hsh _]; eauto.
  eapply (reconstruct_shape _ toX toY) in Hsh as (r & _ & _ & -> & _);
    eauto; discriminate.
Qed.

End FindPathShape.

(** ** Sums over the map *)

Lemma sum_by_insert {A} (f : A -> Z) (l : list A) k old new :
  l !! k = Some old ->
  sum_by f (<[k:=new]> l) = sum_by f l - f old + f new.
Proof.
  revert k. induction l as [|a l IH]; intros k Hk; [done|].
  destruct k as [|k]; simpl in *.
  - simplify_eq. lia.
  - rewrite (IH k Hk). lia.
Qed.

Lemma sum_by_nonneg {A} (f : A -> Z) (l : list A) :
  (forall k a, l !! k = Some a -> 0 <= f a) -> 0 <= sum_by f l.
Proof.
  induction l as [|a l IH]; intros H; simpl; [lia|].
  pose proof (H 0%nat a eq_refl).
  assert (0 <= sum_by f l); [|lia].
  apply IH. intros k b Hb. apply (H (S k) b Hb).
Qed.

Lemma unvisited_nonneg map : 0 <= unvisited map.
Proof. apply sum_by_nonneg. intros k a _. destruct (score a =? 0); lia. Qed.

Lemma unvisited_le_length map : unvisited map <= Z.of_nat (length map).
Proof.
  unfold unvisited. induction map as [|e map IH]; simpl; [lia|].
  destruct (score e =? 0); lia.
Qed.

(** ** Scores under a non-negative wall factor *)

Lemma step_score_shift sdfFactor s cs v d :
  step_score sdfFactor s cs v d = s + step_score sdfFactor 0 cs v d.
Proof. unfold step_score. lia. Qed.

Lemma step_score_increases sdfFactor s cs v d :
  0 <= sdfFactor -> 0 <= cs -> 0 <= v -> 1 <= d ->
  s + 1 <= step_score sdfFactor s cs v d.
Proof.
  intros Hf Hcs Hv Hd. unfold step_score.
  assert (0 <= ((v + cs) * (d + 1)) ÷ 2) as H1 by (apply Z.quot_pos; nia).
  assert (0 <= (((v + cs) * (d + 1)) ÷ 2 * sdfFactor) ÷ 6) by (apply Z.quot_pos; nia).
  lia.
Qed.

Section Scores.

Variable sdfCells : list Z.
Variables unitSize sdfFactor enableJumping startX startY : Z.
Hypothesis sdfCells_length : Z.of_nat (length sdfCells) = cells.
Hypothesis start_in_grid : in_grid startX startY.
Hypothesis sdfFactor_nonneg : 0 <= sdfFactor.
Hypothesis clearance_nonneg : Forall (fun v => 0 <= v) sdfCells.

Local Abbreviation shaped := (shape sdfCells unitSize enableJumping startX startY).
Local Abbreviation scored := (well_scored sdfCells sdfFactor startX startY).
Local Abbreviation turn := (loop_body sdfCells unitSize sdfFactor enableJumping).
Local Abbreviation run := (search sdfCells unitSize sdfFactor enableJumping).
Local Abbreviation can_step := (passable sdfCells unitSize enableJumping).

Lemma clearance_at_nonneg x y v : clearance_at sdfCells x y = Some v -> 0 <= v.
Proof.
  unfold clearance_at. intros H. rewrite Forall_forall in clearance_nonneg.
  apply clearance_nonneg. eapply list_elem_of_lookup_2; eauto.
Qed.

(** The score written for a landing cell, in terms of the recomputed cost. *)
Lemma step_score_edge_cost node cs off v maxDistance :
  off ∈ neighborOffsets ->
  clearance_at sdfCells (nx node) (ny node) = Some cs ->
  can_step (nx node) (ny node) maxDistance off v ->
  step_score sdfFactor (score node) cs v (distance off) =
  score node + edge_cost sdfCells sdfFactor (nx node) (ny node)
                         (nx node + ox off) (ny node + oy off)
  /\ score node + 1 <= step_score sdfFactor (score node) cs v (distance off).
Proof.
  intros Hoff Hcs (_ & _ & _ & Hv & _).
  destruct (neighborOffsets_spec off Hoff) as (Hd & Hdist & _ & _).
  split.
  - rewrite step_score_shift. unfold edge_cost. rewrite Hcs, Hv. simpl.
    replace (nx node + ox off - nx node) with (ox off) by lia.
    replace (ny node + oy off - ny node) with (oy off) by lia.
    by rewrite <- Hdist.
  - apply step_score_increases; try lia; eauto using clearance_at_nonneg.
Qed.

Lemma relaxed_to_scored node cs st off st' :
  clearance_at sdfCells (nx node) (ny node) = Some cs ->
  off ∈ neighborOffsets ->
  Z.of_nat (length (st_map st)) = cells ->
  scored st -> backed (st_map st) node ->
  relaxed_to sdfCells unitSize sdfFactor enableJumping node cs
             (max_distance unitSize cs) off st st' ->
  scored st' /\ backed (st_map st') node.
Proof.
  intros Hcs Hoff Hlen Hsc Hnode Hrel.
  destruct Hrel as [ | | v old st' Hpass Hold Hupd entry Hmap' Hqueue]; try done.
  destruct (step_score_edge_cost node cs off v _ Hoff Hcs Hpass) as [Hcost Hinc].
  pose proof Hpass as (_ & _ & Hgt & _).
  pose proof (cell_index_range _ _ Hgt) as Hti.
  set (t := Z.to_nat (cell_index (nx node + ox off) (ny node + oy off))) in *.
  destruct Hsc as (Hq & Hnonneg & Hstart & Hpred).
  destruct Hnode as (Hn1 & Hng & en & Hen & Hen1).
  assert (forall m, backed (st_map st) m -> backed (st_map st') m) as Hbacked.
  { intros m (Hm1 & Hmg & em & Hem & Hem1). split_and!; try done.
    unfold map_at in *. rewrite Hmap'.
    destruct (decide (Z.to_nat (cell_index (nx m) (ny m)) = t)) as [Heq|Hne].
    - rewrite Heq. rewrite list_lookup_insert_eq by lia.
      exists entry. split; [done|]. simpl.
      rewrite Heq in Hem. fold t in Hold. simplify_eq. lia.
    - rewrite list_lookup_insert_ne by done. eauto. }
  assert (t <> Z.to_nat (cell_index (nx node) (ny node))) as Hnt.
  { intros Heq. apply cell_index_nat_inj in Heq as [? ?]; try done.
    destruct (neighborOffsets_spec off Hoff) as (_ & _ & ? & _). lia. }
  assert (t <> Z.to_nat (cell_index startX startY)) as Hts.
  { intros Heq. unfold map_at in Hstart, Hold. fold t in Hold.
    rewrite <- Heq in Hstart. simplify_eq. simpl in *. lia. }
  split; [|apply Hbacked; split_and!; eauto].
  split_and!.
  - destruct Hqueue as [(-> & _ & _) | (-> & _ & _)].
    + apply Forall_app. split; [eapply Forall_impl; eauto|].
      constructor; [|constructor]. split_and!; simpl; try lia; try done.
      exists entry. unfold map_at. rewrite Hmap'. fold t.
      rewrite list_lookup_insert_eq by lia. split; [done|]. simpl. lia.
    + eapply Forall_impl; eauto.
  - intros k e. rewrite Hmap'.
    destruct (decide (k = t)) as [->|Hne].
    + rewrite list_lookup_insert_eq by lia. intros [= <-]. simpl. lia.
    + rewrite list_lookup_insert_ne by done. apply Hnonneg.
  - unfold map_at. rewrite Hmap'. rewrite list_lookup_insert_ne by done. done.
  - intros k e. rewrite Hmap'.
    destruct (decide (k = t)) as [->|Hne].
    + rewrite list_lookup_insert_eq by lia. intros [= <-] _ _. simpl.
      exists en. unfold map_at. rewrite list_lookup_insert_ne by done.
      split; [done|]. split; [lia|]. split; [lia|].
      fold (step_score sdfFactor (score node) cs v (distance off)). lia.
    + rewrite list_lookup_insert_ne by done. intros He He1 Hks.
      destruct (Hpred k e He He1 Hks) as (p & Hp & Hp1 & Hplt & Hpc).
      unfold map_at in *.
      destruct (decide (Z.to_nat (cell_index (fromX e) (fromY e)) = t)) as [Heq|Hnp].
      * rewrite Heq. rewrite list_lookup_insert_eq by lia.
        exists entry. split; [done|]. simpl.
        rewrite Heq in Hp. fold t in Hold. simplify_eq. lia.
      * rewrite list_lookup_insert_ne by done. eauto.
Qed.

(** The rule for an invariant of the loop over the offsets within one
    turn of the main loop. *)
Lemma loop_body_rule (P : list NeighborOffset -> SearchState -> Prop) st n :
  shaped st -> scored st -> dequeued st = Some n ->
  (forall cs,
     clearance_at sdfCells (nx n) (ny n) = Some cs ->
     backed (st_map st) n ->
     P [] (mkState (delete (lowestScoreIndex (st_queue st)) (st_queue st))
                   (st_map st) (st_overflowed st)) /\
     forall done off rest s s',
       neighborOffsets = done ++ off :: rest ->
       shaped s -> scored s -> backed (st_map s) n -> P done s ->
       relaxed_to sdfCells unitSize sdfFactor enableJumping n cs
                  (max_distance unitSize cs) off s s' ->
       P (done ++ [off]) s') ->
  exists st', turn st = Done st' /\ shaped st' /\ scored st' /\
              P neighborOffsets st'.
Proof.
  intros Hsh Hsc Hn HP.
  pose proof Hsh as (Hlen & Hq & Hqg & Hst & Hmap).
  pose proof Hsc as (Hqb & Hnonneg & Hstart & Hpred).
  assert (backed (st_map st) n) as Hnb.
  { rewrite Forall_forall in Hqb. apply Hqb. by apply dequeued_elem. }
  pose proof Hnb as (_ & Hg & _).
  destruct (loop_body_dequeue sdfCells unitSize sdfFactor enableJumping
              sdfCells_length st n Hn Hg) as (cs & Hcs & ->).
  destruct (HP cs Hcs Hnb) as [HP0 HPstep].
  edestruct (for_each_invariant (A := NeighborOffset)
               (fun done s => shaped s /\ scored s /\ backed (st_map s) n /\ P done s))
    as (s' & Hs' & Hsh' & Hsc' & _ & HP'); [ | | eauto].
  - split_and!; simpl; try done.
    + unfold shape. split_and!; simpl; try done.
      * assert (length (delete (lowestScoreIndex (st_queue st)) (st_queue st))
                <= length (st_queue st))%nat; [|lia].
        rewrite length_delete by (unfold dequeued in Hn; eauto). lia.
      * rewrite Forall_forall in *. intros m Hm. apply Hqg.
        eapply list_elem_of_delete_inv; eauto.
    + unfold well_scored. split_and!; simpl; try done.
      rewrite Forall_forall in *. intros m Hm. apply Hqb.
      eapply list_elem_of_delete_inv; eauto.
  - intros done off rest s Hl (Hs1 & Hs2 & Hs3 & Hs4).
    assert (off ∈ neighborOffsets) as Hoff
        by (rewrite Hl; apply elem_of_app; right; left).
    destruct (relax_cases sdfCells unitSize sdfFactor enableJumping sdfCells_length
                n cs (max_distance unitSize cs) s off) as (s' & Hs' & Hrel);
      [apply Hs1 .. |].
    exists s'. split; [done|].
    split; [eapply relaxed_to_shape; eauto|].
    assert (scored s' /\ backed (st_map s') n) as [? ?].
    { eapply (relaxed_to_scored n cs s off s'); eauto. apply Hs1. }
    split_and!; eauto.
Qed.

Lemma loop_body_scored st :
  shaped st -> scored st -> st_queue st <> [] ->
  exists st', turn st = Done st' /\ shaped st' /\ scored st'.
Proof.
  intros Hsh Hsc Hne.
  destruct (dequeued_lowest st Hne) as (n & Hn & _).
  destruct (loop_body_rule (fun _ _ => True) st n Hsh Hsc Hn) as (st' & ? & ? & ? & _);
    eauto.
Qed.

Lemma search_scored fuel : forall st st',
  shaped st -> scored st -> run fuel st = Done st' -> scored st'.
Proof.
  induction fuel as [|fuel IH]; intros st st' Hsh Hsc; simpl.
  - destruct (st_queue st) eqn:Hq; simpl; [|discriminate].
    intros [= <-]. done.
  - destruct (st_queue st) eqn:Hq; simpl.
    + intros [= <-]. done.
    + destruct (loop_body_scored st Hsh Hsc) as (st1 & Hst1 & Hsh1 & Hsc1);
        [by rewrite Hq|].
      rewrite Hst1. simpl. by apply IH.
Qed.

Lemma init_search_scored map :
  Z.of_nat (length map) = cells ->
  forall st, init_search startX startY map = Done st -> scored st.
Proof.
  intros Hlen st Hst.
  destruct (init_search_shape sdfCells unitSize enableJumping startX startY
              start_in_grid map Hlen) as (st0 & Hst0 & Hq & Hm & _ & _).
  assert (st0 = st) as -> by congruence.
  pose proof (cell_index_range _ _ start_in_grid) as Hi.
  assert (map_at (st_map st) startX startY = Some (start_entry startX startY)) as Hs.
  { unfold map_at. rewrite Hm.
    rewrite list_lookup_insert_eq by (rewrite length_fmap; lia). done. }
  unfold well_scored. split_and!.
  - rewrite Hq. constructor; [|constructor]. split_and!; simpl; try done.
    exists (start_entry startX startY). split; [done|]. simpl. lia.
  - intros k e. rewrite Hm.
    destruct (decide (k = Z.to_nat (cell_index startX startY))) as [->|Hne].
    + rewrite list_lookup_insert_eq by (rewrite length_fmap; lia).
      intros [= <-]. simpl. lia.
    + rewrite list_lookup_insert_ne by done.
      rewrite list_lookup_fmap. destruct (map !! k); simpl; [|done].
      intros [= <-]. simpl. lia.
  - done.
  - intros k e. rewrite Hm. intros He H1 Hne.
    rewrite list_lookup_insert_ne in He by done.
    rewrite list_lookup_fmap in He. destruct (map !! k); simpl in He; [|done].
    injection He as <-. simpl in H1. lia.
Qed.

(** *** Termination *)

Lemma work_nonneg st : scored st -> 0 <= work st.
Proof.
  intros (_ & Hnonneg & _). unfold work.
  pose proof (sum_by_nonneg score (st_map st) Hnonneg). lia.
Qed.

Lemma relaxed_to_progress node cs st0 st off st' :
  clearance_at sdfCells (nx node) (ny node) = Some cs ->
  off ∈ neighborOffsets ->
  scored st -> backed (st_map st) node ->
  relaxed_to sdfCells unitSize sdfFactor enableJumping node cs
             (max_distance unitSize cs) off st st' ->
  progress st0 st -> progress st0 st'.
Proof.
  intros Hcs Hoff Hsc Hnode Hrel Hprog.
  destruct Hrel as [ | | v old st' Hpass Hold Hupd entry Hmap' Hqueue]; try done.
  destruct (step_score_edge_cost node cs off v _ Hoff Hcs Hpass) as [_ Hinc].
  destruct Hnode as (Hn1 & _).
  destruct Hsc as (_ & Hnonneg & _).
  pose proof (Hnonneg _ _ Hold) as Hold0.
  unfold map_at in Hold.
  assert (unvisited (st_map st') =
          unvisited (st_map st) - (if score old =? 0 then 1 else 0)) as Hu.
  { unfold unvisited. rewrite Hmap'. erewrite sum_by_insert by eauto.
    simpl. destruct (Z.eqb_spec (step_score sdfFactor (score node) cs v (distance off)) 0);
      lia. }
  assert (sum_by score (st_map st') =
          sum_by score (st_map st) - score old
          + step_score sdfFactor (score node) cs v (distance off)) as Hs.
  { rewrite Hmap'. erewrite sum_by_insert by eauto. done. }
  assert (Z.of_nat (length (st_queue st')) <= Z.of_nat (length (st_queue st)) + 1) as Hl.
  { destruct Hqueue as [(-> & _) | (-> & _)]; [rewrite length_app; simpl|]; lia. }
  unfold progress, work in *. rewrite Hu, Hs.
  destruct (Z.eqb_spec (score old) 0); lia.
Qed.

Lemma loop_body_progress st :
  shaped st -> scored st -> st_queue st <> [] ->
  exists st', turn st = Done st' /\ shaped st' /\ scored st' /\
    (unvisited (st_map st') < unvisited (st_map st) \/
     (unvisited (st_map st') = unvisited (st_map st) /\ work st' < work st)).
Proof.
  intros Hsh Hsc Hne.
  destruct (dequeued_lowest st Hne) as (n & Hn & _).
  set (st0 := mkState (delete (lowestScoreIndex (st_queue st)) (st_queue st))
                      (st_map st) (st_overflowed st)).
  destruct (loop_body_rule (fun _ s => progress st0 s) st n Hsh Hsc Hn)
    as (st' & Hst' & Hsh' & Hsc' & Hprog).
  - intros cs Hcs Hnb. split.
    + right. fold st0. split; [done | lia].
    + intros done off rest s s' Hl _ Hs Hb Hp Hrel.
      eapply relaxed_to_progress; eauto.
      rewrite Hl. apply elem_of_app. right. left.
  - exists st'. split_and!; try done.
    assert (work st0 = work st - 1) as Hw.
    { unfold work, st0. simpl.
      rewrite length_delete by (unfold dequeued in Hn; eauto).
      destruct (st_queue st); [done|]. simpl. lia. }
    unfold progress in Hprog. simpl in Hprog. lia.
Qed.

Lemma search_terminates st :
  shaped st -> scored st -> exists fuel st', run fuel st = Done st'.
Proof.
  intros Hsh Hsc.
  remember (Z.to_nat (unvisited (st_map st))) as u eqn:Hu.
  remember (Z.to_nat (work st)) as w eqn:Hw.
  revert w st Hsh Hsc Hu Hw.
  induction u as [u IHu] using lt_wf_ind.
  induction w as [w IHw] using lt_wf_ind.
  intros st Hsh Hsc Hu Hw.
  destruct (st_queue st) as [|m q] eqn:Hq.
  { exists 0%nat, st. simpl. rewrite Hq. done. }
  destruct (loop_body_progress st Hsh Hsc) as (st1 & Hst1 & Hsh1 & Hsc1 & Hprog);
    [by rewrite Hq|].
  pose proof (unvisited_nonneg (st_map st1)).
  pose proof (work_nonneg st1 Hsc1).
  assert (exists fuel st', run fuel st1 = Done st') as (fuel & st' & Hrun).
  { destruct Hprog as [Hlt | [Heq Hlt]].
    - eapply (IHu (Z.to_nat (unvisited (st_map st1)))); eauto. lia.
    - eapply (IHw (Z.to_nat (work st1))); eauto; lia. }
  exists (S fuel), st'. simpl. rewrite Hq. simpl. rewrite Hst1. done.
Qed.

Lemma search_more_fuel fuel : forall st st' extra,
  run fuel st = Done st' -> run (fuel + extra) st = Done st'.
Proof.
  induction fuel as [|fuel IH]; intros st st' extra; simpl.
  - destruct (st_queue st) eqn:Hq; simpl; [|discriminate].
    intros [= <-]. destruct extra; simpl; by rewrite Hq.
  - destruct (st_queue st) eqn:Hq; simpl; [done|].
    destruct (turn st); simpl; try discriminate. apply IH.
Qed.

Lemma search_deterministic fuel1 fuel2 st st1 st2 :
  run fuel1 st = Done st1 -> run fuel2 st = Done st2 -> st1 = st2.
Proof.
  intros H1 H2.
  apply (search_more_fuel _ _ _ fuel2) in H1.
  apply (search_more_fuel _ _ _ fuel1) in H2.
  rewrite Nat.add_comm in H2. congruence.
Qed.


(** *** The predecessor links lead back to the start cell *)

Lemma chain_end_snoc l : forall x y z,
  chain_end x y (l ++ [z]) = (fromX z, fromY z).
Proof. induction l as [|a l IH]; intros x y z; simpl; [done | apply IH]. Qed.

Section Walk.

Variable st : SearchState.
Hypothesis st_shaped : shaped st.
Hypothesis st_scored : scored st.

Local Abbreviation gathered :=
  (collected sdfCells unitSize enableJumping startX startY (st_map st)).
Local Abbreviation linked_to :=
  (from_link sdfCells unitSize enableJumping startX startY (st_map st)).

Lemma gathered_predecessor a :
  gathered a ->
  exists p, map_at (st_map st) (fromX a) (fromY a) = Some p /\
            1 <= score p /\ score p < score a /\
            score p + edge_cost sdfCells sdfFactor (fromX a) (fromY a) (nx a) (ny a)
              <= score a.
Proof.
  intros (Hat & Hs & Hns & Hg & _).
  destruct st_scored as (_ & _ & _ & Hpred).
  apply (Hpred _ _ Hat); [lia|].
  intros Heq. apply cell_index_nat_inj in Heq as [? ?]; try done. lia.
Qed.

Lemma walk_scores_decrease l : forall a x y,
  linked x y (a :: l) -> Forall gathered (a :: l) ->
  Forall (fun e => score e < score a) l.
Proof.
  induction l as [|b l IH]; intros a x y Hlink Hall; [constructor|].
  destruct Hlink as (_ & _ & Hlink).
  apply Forall_cons in Hall as [Ha Hall].
  destruct (gathered_predecessor a Ha) as (p & Hp & _ & Hlt & _).
  pose proof Hlink as (Hbx & Hby & _).
  pose proof Hall as Hall'. apply Forall_cons in Hall' as [Hb _].
  destruct Hb as (Hbat & _).
  rewrite Hbx, Hby in Hbat. assert (p = b) as -> by congruence.
  constructor; [done|].
  eapply Forall_impl; [eapply IH; eauto|]. simpl. intros. lia.
Qed.

Lemma walk_cells_distinct l : forall x y,
  linked x y l -> Forall gathered l ->
  NoDup ((fun e => Z.to_nat (cell_index (nx e) (ny e))) <$> l).
Proof.
  induction l as [|a l IH]; intros x y Hlink Hall; simpl; [constructor|].
  apply NoDup_cons. split.
  - intros Hin. apply list_elem_of_fmap in Hin as (e & Heq & He).
    pose proof (walk_scores_decrease l a x y Hlink Hall) as Hlt.
    rewrite Forall_forall in Hlt. specialize (Hlt e He).
    apply Forall_cons in Hall as [Ha Hall].
    rewrite Forall_forall in Hall. specialize (Hall e He).
    destruct Ha as (Haat & _), Hall as (Heat & _).
    unfold map_at in *. rewrite Heq in Haat. simplify_eq. lia.
  - destruct Hlink as (_ & _ & Hlink). apply Forall_cons in Hall as [_ Hall].
    eapply IH; eauto.
Qed.

Lemma walk_is_short l x y :
  linked x y l -> Forall gathered l -> (length l < Z.to_nat cells)%nat.
Proof.
  intros Hlink Hall.
  pose proof (walk_cells_distinct l x y Hlink Hall) as Hnd.
  set (idx := fun e => Z.to_nat (cell_index (nx e) (ny e))) in *.
  assert (NoDup (Z.to_nat (cell_index startX startY) :: (idx <$> l))) as Hnd'.
  { apply NoDup_cons. split; [|done].
    intros Hin. apply list_elem_of_fmap in Hin as (e & Heq & He).
    rewrite Forall_forall in Hall. destruct (Hall e He) as (_ & _ & Hne & Hg & _).
    apply cell_index_nat_inj in Heq as [? ?]; try done. lia. }
  assert (Z.to_nat (cell_index startX startY) :: (idx <$> l)
          ⊆+ seq 0 (Z.to_nat cells)) as Hsub.
  { apply NoDup_submseteq; [done|]. intros k Hk. apply elem_of_seq.
    apply elem_of_cons in Hk as [-> | Hk].
    - pose proof (cell_index_range _ _ start_in_grid). lia.
    - apply list_elem_of_fmap in Hk as (e & -> & He).
      rewrite Forall_forall in Hall. destruct (Hall e He) as (_ & _ & _ & Hg & _).
      pose proof (cell_index_range _ _ Hg). unfold idx. lia. }
  apply submseteq_length in Hsub. rewrite length_seq in Hsub.
  cbn [length] in Hsub. rewrite length_fmap in Hsub. lia.
Qed.

(** A successful walk from the goal ends at the start cell, and all of its
    consecutive entries are joined by predecessor links. *)
Lemma walk_reaches_start toX toY goal walked :
  in_grid toX toY ->
  map_at (st_map st) toX toY = Some goal -> 0 < score goal ->
  follow startX startY (Z.to_nat cells) (st_map st) toX toY = Done walked ->
  chain_end toX toY walked = (startX, startY) /\
  chain linked_to (walked ++ [start_entry startX startY]).
Proof.
  intros Hg Hgoal Hs Hwalk.
  destruct st_shaped as (Hml & _ & _ & _ & Hshape).
  edestruct follow_shape
    with (startX := startX) (startY := startY) (map := st_map st)
         (remaining := Z.to_nat cells) (x := toX) (y := toY)
    as (l & Hl & Hll & Hall & Hlink & _ & Hstop); eauto.
  assert (l = walked) as -> by congruence.
  pose proof (walk_is_short walked toX toY Hlink Hall) as Hshort.
  destruct (Hstop Hshort) as (e & He & Hend).
  assert (chain_end toX toY walked = (startX, startY)) as Hce.
  { destruct Hend as [Hle|]; [|done]. exfalso.
    destruct (decide (walked = [])) as [-> | Hnil];
      [|destruct (exists_last Hnil) as (l' & z & ->)].
    - simpl in He. simplify_eq. lia.
    - rewrite chain_end_snoc in He. simpl in He.
      apply Forall_app in Hall as [_ Hz]. apply Forall_cons in Hz as [Hz _].
      destruct (gathered_predecessor z Hz) as (p & Hp & Hp1 & _). simplify_eq. lia. }
  split; [done|].
  destruct st_scored as (_ & _ & Hstart & _).
  clear Hl Hll Hstop Hshort He Hend Hwalk Hgoal Hs Hg.
  revert toX toY Hlink Hce. induction walked as [|a l IH]; intros x y Hlink Hce.
  { simpl. done. }
  apply Forall_cons in Hall as [Ha Hall].
  destruct Hlink as (_ & _ & Hlink).
  simpl in Hce. specialize (IH Hall _ _ Hlink Hce).
  destruct l as [|b l]; simpl.
  - simpl in Hce. injection Hce as Hx Hy. split; [|done].
    unfold from_link. rewrite Hx, Hy. split_and!; done.
  - split; [|exact IH].
    destruct Hlink as (Hbx & Hby & _).
    apply Forall_cons in Hall as [(Hbat & _) _].
    unfold from_link. split_and!; try done. by rewrite <- Hbx, <- Hby.
Qed.

End Walk.


End Scores.

(** ** The order in which entries are dequeued *)

Lemma turns_add sdfCells unitSize sdfFactor enableJumping i : forall j st,
  turns sdfCells unitSize sdfFactor enableJumping (i + j) st =
  (st' ← turns sdfCells unitSize sdfFactor enableJumping i st;
   turns sdfCells unitSize sdfFactor enableJumping j st').
Proof.
  induction i as [|i IH]; intros j st; simpl; [done|].
  destruct (loop_body sdfCells unitSize sdfFactor enableJumping st); simpl; auto.
Qed.

Lemma search_turns sdfCells unitSize sdfFactor enableJumping fuel : forall st st',
  search sdfCells unitSize sdfFactor enableJumping fuel st = Done st' ->
  exists n, turns sdfCells unitSize sdfFactor enableJumping n st = Done st'.
Proof.
  induction fuel as [|fuel IH]; intros st st'; simpl.
  - destruct (st_queue st); simpl; [|discriminate].
    intros [= <-]. by exists 0%nat.
  - destruct (st_queue st); simpl.
    + intros [= <-]. by exists 0%nat.
    + intros H. apply bind_Done in H as (st1 & Hst1 & H).
      destruct (IH _ _ H) as (n & Hn). exists (S n). simpl. rewrite Hst1. done.
Qed.

Section Order.

Variable sdfCells : list Z.
Variables unitSize sdfFactor enableJumping startX startY : Z.
Hypothesis sdfCells_length : Z.of_nat (length sdfCells) = cells.
Hypothesis start_in_grid : in_grid startX startY.
Hypothesis sdfFactor_nonneg : 0 <= sdfFactor.
Hypothesis clearance_nonneg : Forall (fun v => 0 <= v) sdfCells.

Local Abbreviation shaped := (shape sdfCells unitSize enableJumping startX startY).
Local Abbreviation scored := (well_scored sdfCells sdfFactor startX startY).
Local Abbreviation turn := (loop_body sdfCells unitSize sdfFactor enableJumping).
Local Abbreviation some_turns := (turns sdfCells unitSize sdfFactor enableJumping).

(** After the turn that dequeues [n], no queue entry has a score below
    that of [n], and the map entries with a score in [1, score n + 1] are
    the ones from before the turn. *)
Lemma loop_body_floor st n :
  shaped st -> scored st -> dequeued st = Some n ->
  exists st', turn st = Done st' /\ shaped st' /\ scored st' /\
    Forall (fun m => score n <= score m) (st_queue st') /\
    (forall k e, st_map st !! k = Some e -> 1 <= score e <= score n + 1 ->
                 st_map st' !! k = Some e).
Proof.
  intros Hsh Hsc Hn.
  assert (st_queue st <> []) as Hne.
  { intros Hq. unfold dequeued in Hn. rewrite Hq in Hn. done. }
  destruct (dequeued_lowest st Hne) as (n' & Hn' & Hlow).
  assert (n' = n) as -> by congruence.
  apply (loop_body_rule sdfCells unitSize sdfFactor enableJumping startX startY
           sdfCells_length start_in_grid sdfFactor_nonneg clearance_nonneg
           (fun _ s =>
              Forall (fun m => score n <= score m) (st_queue s) /\
              (forall k e, st_map st !! k = Some e -> 1 <= score e <= score n + 1 ->
                           st_map s !! k = Some e))
           st n Hsh Hsc Hn).
  intros cs Hcs Hnb. split.
  - simpl. split; [|done].
    rewrite Forall_forall in *. intros m Hm. apply Hlow.
    eapply list_elem_of_delete_inv; eauto.
  - intros done off rest s s' Hl Hs1 Hs2 Hs3 [Hfloor Hfrozen] Hrel.
    assert (off ∈ neighborOffsets) as Hoff
        by (rewrite Hl; apply elem_of_app; right; left).
    destruct Hrel as [ | | v old s' Hpass Hold Hupd entry Hmap' Hqueue]; try done.
    edestruct step_score_edge_cost
      with (node := n) (sdfCells := sdfCells) (sdfFactor := sdfFactor)
      as [_ Hinc]; eauto.
    pose proof Hpass as (_ & _ & Hgt & _).
    pose proof (cell_index_range _ _ Hgt) as Hti.
    destruct Hs1 as (Hml & _).
    split.
    + destruct Hqueue as [(-> & _) | (-> & _)]; [|done].
      apply Forall_app. split; [done|]. constructor; [simpl; lia | constructor].
    + intros k e He Hse. rewrite Hmap'.
      destruct (decide (k = Z.to_nat (cell_index (nx n + ox off) (ny n + oy off))))
        as [->|Hk].
      * specialize (Hfrozen _ _ He Hse). unfold map_at in Hold. simplify_eq. lia.
      * rewrite list_lookup_insert_ne by done. eauto.
Qed.

Lemma turns_floor j : forall st st' s,
  shaped st -> scored st ->
  Forall (fun m => s <= score m) (st_queue st) ->
  some_turns j st = Done st' ->
  shaped st' /\ scored st' /\
  Forall (fun m => s <= score m) (st_queue st') /\
  (forall k e, st_map st !! k = Some e -> 1 <= score e <= s ->
               st_map st' !! k = Some e).
Proof.
  induction j as [|j IH]; intros st st' s Hsh Hsc Hfloor; simpl.
  - intros [= <-]. done.
  - intros H. apply bind_Done in H as (st1 & Hst1 & H).
    assert (st_queue st <> []) as Hne.
    { intros Hq. unfold loop_body in Hst1. rewrite Hq in Hst1. discriminate. }
    destruct (dequeued_lowest st Hne) as (n & Hn & _).
    assert (s <= score n) as Hsn.
    { rewrite Forall_forall in Hfloor. apply Hfloor. by apply dequeued_elem. }
    destruct (loop_body_floor st n Hsh Hsc Hn)
      as (st1' & Hst1' & Hsh1 & Hsc1 & Hfloor1 & Hfrozen1).
    assert (st1' = st1) as -> by congruence.
    destruct (IH st1 st' s Hsh1 Hsc1) as (Hsh' & Hsc' & Hfloor' & Hfrozen'); auto.
    { eapply Forall_impl; eauto. simpl. intros. lia. }
    split_and!; try done.
    intros k e He Hse. apply Hfrozen'; [|done]. apply Hfrozen1; [done|lia].
Qed.

(** The scores of the dequeued entries never decrease, and when an entry
    of score [s] is dequeued, the map entries with a score in [1, s] have
    reached their final value. *)
Lemma dequeued_order st i st_i j st_j n_i :
  shaped st -> scored st ->
  some_turns i st = Done st_i -> dequeued st_i = Some n_i ->
  some_turns j st_i = Done st_j ->
  (forall n_j, dequeued st_j = Some n_j -> score n_i <= score n_j) /\
  (forall k e, st_map st_i !! k = Some e -> 1 <= score e <= score n_i ->
               st_map st_j !! k = Some e).
Proof.
  intros Hsh Hsc Hi Hni Hj.
  destruct (turns_floor i st st_i 0 Hsh Hsc) as (Hshi & Hsci & _); auto.
  { destruct Hsc as (Hq & _). eapply Forall_impl; eauto.
    intros m (? & _). simpl. lia. }
  assert (st_queue st_i <> []) as Hne.
  { intros Hq. unfold dequeued in Hni. rewrite Hq in Hni. done. }
  destruct (dequeued_lowest st_i Hne) as (n' & Hn' & Hlow).
  assert (n' = n_i) as -> by congruence.
  destruct (turns_floor j st_i st_j (score n_i) Hshi Hsci Hlow Hj)
    as (_ & _ & Hfloor & Hfrozen).
  split; [|done].
  intros n_j Hnj. rewrite Forall_forall in Hfloor. apply Hfloor.
  by apply dequeued_elem.
Qed.

(** The reconstruction loop reads only entries that are final once an
    entry of score [s] has been dequeued, provided it starts from a cell
    whose score is at most [s]. *)
Lemma follow_frozen st (final_map : list PathfindingNode) s remaining :
  shaped st -> scored st ->
  (forall k e, st_map st !! k = Some e -> 1 <= score e <= s ->
               final_map !! k = Some e) ->
  forall x y e,
    in_grid x y -> map_at (st_map st) x y = Some e -> 1 <= score e <= s ->
    follow startX startY remaining (st_map st) x y =
    follow startX startY remaining final_map x y.
Proof.
  intros Hsh Hsc Hfrozen.
  destruct Hsh as (_ & _ & _ & _ & Hshape).
  destruct Hsc as (_ & _ & _ & Hpred).
  induction remaining as [|remaining IH]; intros x y e Hg He Hs.
  all: pose proof (cell_index_range _ _ Hg) as Hi; unfold cell_index in Hi.
  all: pose proof (Hfrozen _ _ He Hs) as He'.
  all: unfold map_at, cell_index in He, He'.
  all: simpl; rewrite (rd_lookup _ _ e) by (lia || done).
  all: rewrite (rd_lookup _ _ e) by (lia || done).
  all: simpl; try done.
  destruct (score e >? 0); simpl; [|done].
  destruct (Z.eqb_spec x startX) as [Hx|Hx], (Z.eqb_spec y startY) as [Hy|Hy];
    simpl; try done.
  all: assert (Z.to_nat (y * gridWidth + x) <> Z.to_nat (cell_index startX startY))
      as Hns by (intros Heq; apply (cell_index_nat_inj x y) in Heq as [? ?]; done).
  all: destruct (Hpred _ _ He (proj1 Hs) Hns) as (p & Hp & Hp1 & Hplt & _).
  all: destruct (Hshape _ _ He) as [Hz | [[_ Hk] | (_ & _ & Hgf & _)]]; [lia|done|].
  all: by rewrite (IH _ _ p Hgf Hp) by lia.
Qed.


End Order.


(** ** Relaxation: the invariant of runs that dropped no push *)

Section Settled.

Variable sdfCells : list Z.
Variables unitSize sdfFactor enableJumping startX startY : Z.
Hypothesis sdfCells_length : Z.of_nat (length sdfCells) = cells.
Hypothesis start_in_grid : in_grid startX startY.
Hypothesis sdfFactor_nonneg : 0 <= sdfFactor.
Hypothesis clearance_nonneg : Forall (fun v => 0 <= v) sdfCells.

Local Abbreviation shaped := (shape sdfCells unitSize enableJumping startX startY).
Local Abbreviation scored := (well_scored sdfCells sdfFactor startX startY).
Local Abbreviation turn := (loop_body sdfCells unitSize sdfFactor enableJumping).
Local Abbreviation run := (search sdfCells unitSize sdfFactor enableJumping).
Local Abbreviation relaxed :=
  (relaxed_along sdfCells unitSize sdfFactor enableJumping).
Local Abbreviation in_progress :=
  (settling sdfCells unitSize sdfFactor enableJumping).
Local Abbreviation all_settled :=
  (settled sdfCells unitSize sdfFactor enableJumping).

Lemma relaxed_along_insert map t entry x y offs :
  (t < length map)%nat ->
  (forall old, map !! t = Some old -> 1 <= score old -> score entry < score old) ->
  1 <= score entry ->
  Z.to_nat (cell_index x y) <> t ->
  relaxed map x y offs -> relaxed (<[t := entry]> map) x y offs.
Proof.
  intros Ht Hlower Hentry Hne Hrel off cs v e Hoff Hcs Hpass He.
  unfold map_at in *. rewrite list_lookup_insert_ne in He by done.
  destruct (Hrel off cs v e Hoff Hcs Hpass He) as (e' & He' & He1 & Hle).
  unfold map_at in He'.
  destruct (decide (Z.to_nat (cell_index (x + ox off) (y + oy off)) = t)) as [Heq|Hnt].
  - rewrite Heq. rewrite list_lookup_insert_eq by done.
    exists entry. split; [done|]. rewrite Heq in He'.
    specialize (Hlower _ He' He1). lia.
  - rewrite list_lookup_insert_ne by done. eauto.
Qed.

Lemma relaxed_to_settling n cs st off st' done :
  clearance_at sdfCells (nx n) (ny n) = Some cs ->
  off ∈ neighborOffsets ->
  shaped st -> scored st -> backed (st_map st) n ->
  relaxed_to sdfCells unitSize sdfFactor enableJumping n cs
             (max_distance unitSize cs) off st st' ->
  st_overflowed st' = false ->
  in_progress n done st -> in_progress n (done ++ [off]) st'.
Proof.
  intros Hcs Hoff Hsh Hsc Hnb Hrel Hov Hin.
  destruct Hsc as (_ & Hnonneg & _).
  destruct Hrel as [Hskip | v old Hpass Hold Hnz Hle
                    | v old st' Hpass Hold Hupd entry Hmap' Hqueue].
  - (* the offset is skipped *)
    intros x y e Hg He He1.
    destruct (Hin x y e Hg He He1) as [? | [? | (-> & -> & Hs & Hdone)]]; auto.
    right; right. split_and!; try done.
    intros off' cs' v' e' Hoff' Hcs' Hpass' He'.
    apply elem_of_app in Hoff' as [Hd | Heq%list_elem_of_singleton]; [eauto|].
    subst off'. assert (cs' = cs) as -> by congruence. by apply Hskip in Hpass'.
  - (* the landing cell keeps its entry *)
    intros x y e Hg He He1.
    destruct (Hin x y e Hg He He1) as [? | [? | (-> & -> & Hs & Hdone)]]; auto.
    right; right. split_and!; try done.
    intros off' cs' v' e' Hoff' Hcs' Hpass' He'.
    apply elem_of_app in Hoff' as [Hd | Heq%list_elem_of_singleton]; [eauto|].
    subst off'. assert (cs' = cs) as -> by congruence.
    assert (v' = v) as ->.
    { destruct Hpass as (_ & _ & _ & ? & _), Hpass' as (_ & _ & _ & ? & _). congruence. }
    assert (e' = e) as -> by congruence.
    exists old. split; [done|]. pose proof (Hnonneg _ _ Hold).
    split; [lia|]. rewrite Hs. done.
  - (* the landing cell is updated and queued *)
    destruct Hqueue as [(Hq & _ & _) | (_ & Hov' & _)]; [|congruence].
    edestruct step_score_edge_cost
      with (node := n) (sdfCells := sdfCells) (sdfFactor := sdfFactor)
      as [_ Hinc]; eauto.
    destruct Hnb as (Hn1 & Hng & _).
    pose proof Hpass as (_ & _ & Hgt & _).
    pose proof (cell_index_range _ _ Hgt) as Hti.
    destruct Hsh as (Hml & _).
    set (t := Z.to_nat (cell_index (nx n + ox off) (ny n + oy off))) in *.
    assert (forall old', st_map st !! t = Some old' -> 1 <= score old' ->
                         score entry < score old') as Hlower.
    { intros old' Hold' H1. unfold map_at in Hold. fold t in Hold.
      simplify_eq. simpl. lia. }
    assert (1 <= score entry) as Hentry by (simpl; lia).
    assert (t < length (st_map st))%nat as Htl by lia.
    assert (forall x y, pending st x y -> Z.to_nat (cell_index x y) <> t ->
                        pending st' x y) as Hpend.
    { intros x y (m & e & Hm & Hmx & Hmy & He & Hs) Hne.
      exists m, e. rewrite Hq. split_and!; try done.
      - apply elem_of_app. by left.
      - unfold map_at in *. rewrite Hmap'. by rewrite list_lookup_insert_ne. }
    intros x y e Hg He He1.
    destruct (decide (Z.to_nat (cell_index x y) = t)) as [Heq|Hne].
    + (* the landing cell itself is pending *)
      left. exists entry, entry. rewrite Hq.
      apply cell_index_nat_inj in Heq as [-> ->]; try done.
      split_and!; try done.
      * apply elem_of_app. right. left.
      * unfold map_at. rewrite Hmap'. apply list_lookup_insert_eq. fold t. lia.
    + assert (map_at (st_map st) x y = Some e) as He0.
      { unfold map_at in *. rewrite Hmap' in He.
        by rewrite list_lookup_insert_ne in He. }
      destruct (Hin x y e Hg He0 He1) as [Hp | [Hr | (-> & -> & Hs & Hdone)]].
      * left. by apply Hpend.
      * right; left. rewrite Hmap'. by apply relaxed_along_insert.
      * right; right. split_and!; try done.
        intros off' cs' v' e' Hoff' Hcs' Hpass' He'.
        apply elem_of_app in Hoff' as [Hd | Heq%list_elem_of_singleton].
        -- revert off' cs' v' e' Hd Hcs' Hpass' He'. rewrite Hmap'.
           by apply relaxed_along_insert.
        -- subst off'. assert (cs' = cs) as -> by congruence.
           assert (v' = v) as ->.
           { destruct Hpass as (_ & _ & _ & ? & _), Hpass' as (_ & _ & _ & ? & _).
             congruence. }
           assert (e' = e) as -> by congruence.
           exists entry. unfold map_at. rewrite Hmap'. fold t.
           rewrite list_lookup_insert_eq by lia.
           split; [done|]. simpl. rewrite Hs. lia.
Qed.

Lemma loop_body_settled st :
  shaped st -> scored st -> st_queue st <> [] ->
  (st_overflowed st = false -> all_settled st) ->
  exists st', turn st = Done st' /\ shaped st' /\ scored st' /\
    (st_overflowed st' = false -> all_settled st').
Proof.
  intros Hsh Hsc Hne Hset.
  destruct (dequeued_lowest st Hne) as (n & Hn & _).
  edestruct (loop_body_rule sdfCells unitSize sdfFactor enableJumping startX startY
               sdfCells_length start_in_grid sdfFactor_nonneg clearance_nonneg
               (fun done s =>
                  st_overflowed s = false ->
                  st_overflowed st = false /\ in_progress n done s)
               st n Hsh Hsc Hn) as (st' & Hst' & Hsh' & Hsc' & HP).
  - intros cs Hcs Hnb. split.
    + simpl. intros Hov. split; [done|]. specialize (Hset Hov).
      intros x y e Hg He He1. simpl in He.
      destruct (Hset x y e Hg He He1) as [(m & e' & Hm & Hmx & Hmy & He' & Hs) | Hr];
        [|by right; left].
      apply list_elem_of_lookup in Hm as [k Hk].
      destruct (decide (k = lowestScoreIndex (st_queue st))) as [->|Hk'].
      * unfold dequeued in Hn. assert (m = n) as -> by congruence.
        right; right. assert (e' = e) as -> by congruence.
        split_and!; try done. intros off cs' v e' Hoff. by apply elem_of_nil in Hoff.
      * left. exists m, e'. simpl. split_and!; try done.
        destruct (decide (k < lowestScoreIndex (st_queue st))%nat).
        -- eapply (list_elem_of_lookup_2 _ k). rewrite list_lookup_delete_lt; done.
        -- eapply (list_elem_of_lookup_2 _ (pred k)).
           rewrite list_lookup_delete_ge by lia.
           replace (S (pred k)) with k by lia. done.
    + intros done off rest s s' Hl Hs1 Hs2 Hs3 HP Hrel Hov'.
      assert (off ∈ neighborOffsets) as Hoff
          by (rewrite Hl; apply elem_of_app; right; left).
      assert (st_overflowed s = false) as Hov.
      { destruct Hrel as [ | | v old s' _ _ _ entry _ Hqueue]; try done.
        destruct Hqueue as [(_ & <- & _) | (_ & ? & _)]; congruence. }
      destruct (HP Hov) as [Hov0 Hin]. split; [done|].
      eapply relaxed_to_settling; eauto.
  - exists st'. split_and!; try done.
    intros Hov. destruct (HP Hov) as [_ Hin].
    intros x y e Hg He He1.
    destruct (Hin x y e Hg He He1) as [? | [? | (_ & _ & _ & ?)]]; auto.
Qed.

Lemma search_settled fuel : forall st st',
  shaped st -> scored st ->
  (st_overflowed st = false -> all_settled st) ->
  run fuel st = Done st' ->
  st_overflowed st' = false -> all_settled st'.
Proof.
  induction fuel as [|fuel IH]; intros st st' Hsh Hsc Hset; simpl.
  - destruct (st_queue st) eqn:Hq; simpl; [|discriminate].
    intros [= <-]. done.
  - destruct (st_queue st) eqn:Hq; simpl.
    + intros [= <-]. done.
    + destruct (loop_body_settled st Hsh Hsc) as (st1 & Hst1 & Hsh1 & Hsc1 & Hset1);
        [by rewrite Hq | done |].
      rewrite Hst1. simpl. by apply IH.
Qed.

Lemma init_search_settled map st :
  Z.of_nat (length map) = cells ->
  init_search startX startY map = Done st -> all_settled st.
Proof.
  intros Hlen Hst.
  destruct (init_search_shape sdfCells unitSize enableJumping startX startY
              start_in_grid map Hlen) as (st0 & Hst0 & Hq & Hm & _ & _).
  assert (st0 = st) as -> by congruence.
  pose proof (cell_index_range _ _ start_in_grid) as Hi.
  intros x y e Hg He He1. left.
  unfold map_at in He. rewrite Hm in He.
  destruct (decide (Z.to_nat (cell_index x y) = Z.to_nat (cell_index startX startY)))
    as [Heq|Hne].
  - apply cell_index_nat_inj in Heq as [-> ->]; try done.
    rewrite list_lookup_insert_eq in He by (rewrite length_fmap; lia).
    injection He as <-.
    exists (mkNode startX startY startX startY 1), (start_entry startX startY).
    rewrite Hq. split_and!; try done; [left|].
    unfold map_at. rewrite Hm.
    apply list_lookup_insert_eq. rewrite length_fmap. lia.
  - rewrite list_lookup_insert_ne in He by done.
    rewrite list_lookup_fmap in He.
    destruct (map !! Z.to_nat (cell_index x y)); simpl in He; [|done].
    injection He as <-. simpl in He1. lia.
Qed.

(** When the queue has emptied without a dropped push, every step the
    loop does not skip is relaxed. *)
Lemma settled_at_end st x y e :
  all_settled st -> st_queue st = [] ->
  in_grid x y -> map_at (st_map st) x y = Some e -> 1 <= score e ->
  relaxed (st_map st) x y neighborOffsets.
Proof.
  intros Hset Hq Hg He He1.
  destruct (Hset x y e Hg He He1) as [(m & _ & Hm & _) | ?]; [|done].
  rewrite Hq in Hm. by apply elem_of_nil in Hm.
Qed.

End Settled.


(** ** Reachable cells *)

Lemma max_distance_antitone unitSize unitSize' cs :
  unitSize <= unitSize' -> max_distance unitSize' cs <= max_distance unitSize cs.
Proof.
  intros H. unfold max_distance.
  destruct (Z.ltb_spec (cs - unitSize') 1), (Z.ltb_spec (cs - unitSize) 1); lia.
Qed.

Lemma reachable_antitone sdfCells unitSize unitSize' enableJumping startX startY x y :
  unitSize <= unitSize' ->
  reachable sdfCells unitSize' enableJumping startX startY x y ->
  reachable sdfCells unitSize enableJumping startX startY x y.
Proof.
  intros Hle Hr. induction Hr as [|x y off cs v _ IH Hoff Hcs Hpass]; [constructor|].
  eapply reach_step; eauto.
  destruct Hpass as (Hd & Hj & Hg & Hv & Hu).
  pose proof (max_distance_antitone unitSize unitSize' cs Hle).
  unfold passable. split_and!; try done; lia.
Qed.

Lemma reachable_in_grid sdfCells unitSize enableJumping startX startY x y :
  in_grid startX startY ->
  reachable sdfCells unitSize enableJumping startX startY x y -> in_grid x y.
Proof.
  intros Hs Hr. destruct Hr as [|x y off cs v _ _ _ Hpass]; [done|].
  apply Hpass.
Qed.

Section Reach.

Variable sdfCells : list Z.
Variables unitSize sdfFactor enableJumping startX startY : Z.
Hypothesis sdfCells_length : Z.of_nat (length sdfCells) = cells.
Hypothesis start_in_grid : in_grid startX startY.
Hypothesis sdfFactor_nonneg : 0 <= sdfFactor.
Hypothesis clearance_nonneg : Forall (fun v => 0 <= v) sdfCells.

Local Abbreviation shaped := (shape sdfCells unitSize enableJumping startX startY).
Local Abbreviation scored := (well_scored sdfCells sdfFactor startX startY).
Local Abbreviation turn := (loop_body sdfCells unitSize sdfFactor enableJumping).
Local Abbreviation run := (search sdfCells unitSize sdfFactor enableJumping).
Local Abbreviation reached :=
  (reachable sdfCells unitSize enableJumping startX startY).

Local Abbreviation sound :=
  (visits_reachable sdfCells unitSize enableJumping startX startY).

Lemma loop_body_sound st :
  shaped st -> scored st -> st_queue st <> [] -> sound st ->
  exists st', turn st = Done st' /\ shaped st' /\ scored st' /\ sound st'.
Proof.
  intros Hsh Hsc Hne [Hqs Hms].
  destruct (dequeued_lowest st Hne) as (n & Hn & _).
  assert (reached (nx n) (ny n)) as Hrn.
  { rewrite Forall_forall in Hqs. apply Hqs. by apply dequeued_elem. }
  apply (loop_body_rule sdfCells unitSize sdfFactor enableJumping startX startY
           sdfCells_length start_in_grid sdfFactor_nonneg clearance_nonneg
           (fun _ s => sound s) st n Hsh Hsc Hn).
  intros cs Hcs Hnb. split.
  - split; simpl; [|done].
    rewrite Forall_forall in *. intros m Hm. apply Hqs.
    eapply list_elem_of_delete_inv; eauto.
  - intros done off rest s s' Hl Hs1 _ _ [Hq Hm] Hrel.
    assert (off ∈ neighborOffsets) as Hoff
        by (rewrite Hl; apply elem_of_app; right; left).
    destruct Hrel as [ | | v old s' Hpass Hold Hupd entry Hmap' Hqueue]; try done.
    assert (reached (nx entry) (ny entry)) as Hre
        by (simpl; eapply reach_step; eauto).
    split.
    + destruct Hqueue as [(-> & _) | (-> & _)]; [|done].
      apply Forall_app. split; [done|]. constructor; [done | constructor].
    + intros k e. rewrite Hmap'.
      destruct (decide (k = Z.to_nat (cell_index (nx n + ox off) (ny n + oy off))))
        as [->|Hk].
      * destruct Hs1 as (Hml & _).
        destruct Hpass as (_ & _ & Hgt & _).
        pose proof (cell_index_range _ _ Hgt).
        rewrite list_lookup_insert_eq by lia. intros [= <-] _. done.
      * rewrite list_lookup_insert_ne by done. apply Hm.
Qed.

Lemma search_sound fuel : forall st st',
  shaped st -> scored st -> sound st -> run fuel st = Done st' -> sound st'.
Proof.
  induction fuel as [|fuel IH]; intros st st' Hsh Hsc Hso; simpl.
  - destruct (st_queue st) eqn:Hq; simpl; [|discriminate].
    intros [= <-]. done.
  - destruct (st_queue st) eqn:Hq; simpl.
    + intros [= <-]. done.
    + destruct (loop_body_sound st Hsh Hsc) as (st1 & Hst1 & Hsh1 & Hsc1 & Hso1);
        [by rewrite Hq | done |].
      rewrite Hst1. simpl. by apply IH.
Qed.

Lemma init_search_sound map st :
  Z.of_nat (length map) = cells ->
  init_search startX startY map = Done st -> sound st.
Proof.
  intros Hlen Hst.
  destruct (init_search_shape sdfCells unitSize enableJumping startX startY
              start_in_grid map Hlen) as (st0 & Hst0 & Hq & Hm & _ & _).
  assert (st0 = st) as -> by congruence.
  pose proof (cell_index_range _ _ start_in_grid) as Hi.
  split.
  - rewrite Hq. constructor; [constructor | constructor].
  - intros k e. rewrite Hm.
    destruct (decide (k = Z.to_nat (cell_index startX startY))) as [->|Hne].
    + rewrite list_lookup_insert_eq by (rewrite length_fmap; lia).
      intros [= <-] _. constructor.
    + rewrite list_lookup_insert_ne by done.
      rewrite list_lookup_fmap. destruct (map !! k); simpl; [|done].
      intros [= <-]. simpl. lia.
Qed.

(** Completeness: when the queue has emptied without a dropped push,
    every reachable cell is visited. *)
Lemma settled_complete st x y :
  scored st -> settled sdfCells unitSize sdfFactor enableJumping st ->
  st_queue st = [] ->
  reached x y ->
  exists e, map_at (st_map st) x y = Some e /\ 1 <= score e.
Proof.
  intros Hsc Hset Hq Hr.
  induction Hr as [|x y off cs v Hr IH Hoff Hcs Hpass].
  - destruct Hsc as (_ & _ & Hs & _). eexists. split; [done|]. simpl. lia.
  - destruct IH as (e & He & He1).
    pose proof (reachable_in_grid _ _ _ _ _ _ _ start_in_grid Hr) as Hg.
    pose proof (settled_at_end sdfCells unitSize sdfFactor enableJumping
                  st x y e Hset Hq Hg He He1) as Hrel.
    destruct (Hrel off cs v e Hoff Hcs Hpass He) as (e' & He' & He1' & _).
    eauto.
Qed.

End Reach.


(** ** The range of the scores *)

Lemma step_score_at_most sdfFactor s cs v d :
  0 <= sdfFactor <= 7 -> 0 <= cs <= 10 -> 0 <= v <= 10 -> 1 <= d <= 10 ->
  step_score sdfFactor s cs v d <= s + max_step_cost.
Proof.
  intros Hf Hcs Hv Hd. unfold step_score, max_step_cost.
  assert (0 <= (v + cs) * (d + 1) <= 220) as H0 by nia.
  rewrite (Z.quot_div_nonneg ((v + cs) * (d + 1)) 2) by lia.
  assert (0 <= (v + cs) * (d + 1) / 2 <= 110) as H1.
  { split; [apply Z.div_pos; lia | apply Z.div_le_upper_bound; lia]. }
  set (i := (v + cs) * (d + 1) / 2) in *.
  assert (0 <= i * sdfFactor <= 770) as H2 by nia.
  rewrite (Z.quot_div_nonneg (i * sdfFactor) 6) by lia.
  assert (i * sdfFactor / 6 < 129) by (apply Z.div_lt_upper_bound; lia).
  lia.
Qed.

Lemma score_values_last sdfFactor s cs v d :
  last (score_values sdfFactor s cs v d) = Some (step_score sdfFactor s cs v d).
Proof. reflexivity. Qed.

Lemma score_values_int_range sdfFactor s cs v d :
  0 <= sdfFactor <= 7 -> 0 <= cs <= 10 -> 0 <= v <= 10 -> 1 <= d <= 10 ->
  0 <= s <= 1 + max_step_cost * (cells - 1) ->
  Forall int_range (score_values sdfFactor s cs v d).
Proof.
  intros Hf Hcs Hv Hd Hs. unfold score_values, int_range.
  unfold max_step_cost, cells, gridWidth, gridHeight in Hs.
  assert (0 <= (v + cs) * (d + 1) <= 220) as H0 by nia.
  rewrite (Z.quot_div_nonneg ((v + cs) * (d + 1)) 2) by lia.
  assert (0 <= (v + cs) * (d + 1) / 2 <= 110) as H1.
  { split; [apply Z.div_pos; lia | apply Z.div_le_upper_bound; lia]. }
  set (i := (v + cs) * (d + 1) / 2) in *.
  assert (0 <= i * sdfFactor <= 770) as H2 by nia.
  rewrite (Z.quot_div_nonneg (i * sdfFactor) 6) by lia.
  assert (0 <= i * sdfFactor / 6 < 129) as H3.
  { split; [apply Z.div_pos; lia | apply Z.div_lt_upper_bound; lia]. }
  repeat (apply Forall_cons_2; [lia|]). apply Forall_nil_2.
Qed.

Section ScoreRange.

Variable sdfCells : list Z.
Variables unitSize sdfFactor enableJumping startX startY : Z.
Hypothesis sdfCells_length : Z.of_nat (length sdfCells) = cells.
Hypothesis start_in_grid : in_grid startX startY.
Hypothesis sdfFactor_range : 0 <= sdfFactor <= 7.
Hypothesis clearance_range : Forall (fun v => 0 <= v <= 10) sdfCells.

Local Abbreviation shaped := (shape sdfCells unitSize enableJumping startX startY).
Local Abbreviation scored := (well_scored sdfCells sdfFactor startX startY).
Local Abbreviation turn := (loop_body sdfCells unitSize sdfFactor enableJumping).
Local Abbreviation some_turns := (turns sdfCells unitSize sdfFactor enableJumping).

Lemma clearance_range_nonneg : Forall (fun v => 0 <= v) sdfCells.
Proof. eapply Forall_impl; eauto. simpl. intros. lia. Qed.

Lemma clearance_at_range x y v :
  clearance_at sdfCells x y = Some v -> 0 <= v <= 10.
Proof.
  unfold clearance_at. intros H. rewrite Forall_forall in clearance_range.
  apply clearance_range. eapply list_elem_of_lookup_2; eauto.
Qed.

Lemma relaxed_to_in_range node cs st off st' :
  clearance_at sdfCells (nx node) (ny node) = Some cs ->
  off ∈ neighborOffsets ->
  scored st -> backed (st_map st) node ->
  relaxed_to sdfCells unitSize sdfFactor enableJumping node cs
             (max_distance unitSize cs) off st st' ->
  in_score_range st /\ score node <= score_bound (st_map st) ->
  in_score_range st' /\ score node <= score_bound (st_map st').
Proof.
  intros Hcs Hoff Hsc Hnode Hrel [Hin Hnb].
  destruct Hrel as [ | | v old st' Hpass Hold Hupd entry Hmap' Hqueue]; try done.
  pose proof Hpass as (_ & _ & _ & Hv & _).
  destruct (neighborOffsets_spec off Hoff) as (Hd & _).
  pose proof (step_score_at_most sdfFactor (score node) cs v (distance off)
                sdfFactor_range (clearance_at_range _ _ _ Hcs)
                (clearance_at_range _ _ _ Hv) Hd) as Hmost.
  pose proof (step_score_increases sdfFactor (score node) cs v (distance off)) as Hinc.
  pose proof (clearance_at_range _ _ _ Hcs). pose proof (clearance_at_range _ _ _ Hv).
  specialize (Hinc ltac:(lia) ltac:(lia) ltac:(lia) ltac:(lia)).
  destruct Hnode as (Hn1 & _).
  destruct Hin as (Hu & Hq & Hm).
  unfold map_at in Hold.
  assert (score old <= score_bound (st_map st)) as Holdb.
  { rewrite Forall_forall in Hm. apply Hm. eapply list_elem_of_lookup_2; eauto. }
  assert (unvisited (st_map st') =
          unvisited (st_map st) - (if score old =? 0 then 1 else 0)) as Hu'.
  { unfold unvisited. rewrite Hmap'. erewrite sum_by_insert by eauto.
    simpl. destruct (Z.eqb_spec (step_score sdfFactor (score node) cs v (distance off)) 0);
      lia. }
  assert (score_bound (st_map st) <= score_bound (st_map st')) as Hmono.
  { unfold score_bound, max_step_cost. rewrite Hu'. destruct (score old =? 0); lia. }
  assert (score entry <= score_bound (st_map st')) as Hentry.
  { subst entry. simpl. unfold score_bound, max_step_cost in *. rewrite Hu'.
    destruct (Z.eqb_spec (score old) 0); lia. }
  split; [|lia]. split_and!.
  - rewrite Hu'. destruct (score old =? 0); lia.
  - destruct Hqueue as [(-> & _) | (-> & _)].
    + apply Forall_app. split.
      * eapply Forall_impl; eauto. simpl. intros. lia.
      * apply Forall_cons_2; [done | apply Forall_nil_2].
    + eapply Forall_impl; eauto. simpl. intros. lia.
  - rewrite Hmap' at 1. apply Forall_insert; [|done].
    eapply Forall_impl; eauto. simpl. intros. lia.
Qed.

Lemma loop_body_in_range st :
  shaped st -> scored st -> in_score_range st -> st_queue st <> [] ->
  exists st', turn st = Done st' /\ shaped st' /\ scored st' /\ in_score_range st'.
Proof.
  intros Hsh Hsc Hin Hne.
  destruct (dequeued_lowest st Hne) as (n & Hn & _).
  destruct (loop_body_rule sdfCells unitSize sdfFactor enableJumping startX startY
              sdfCells_length start_in_grid (proj1 sdfFactor_range)
              clearance_range_nonneg
              (fun _ s => in_score_range s /\ score n <= score_bound (st_map s))
              st n Hsh Hsc Hn) as (st' & Hst' & Hsh' & Hsc' & Hin' & _).
  - intros cs Hcs Hnb. split.
    + destruct Hin as (Hu & Hq & Hm). simpl. split.
      * split_and!; simpl; try done.
        rewrite Forall_forall in *. intros m Hmq. apply Hq.
        eapply list_elem_of_delete_inv; eauto.
      * rewrite Forall_forall in Hq. apply Hq. by apply dequeued_elem.
    + intros done off rest s s' Hl _ Hs Hb Hp Hrel.
      eapply relaxed_to_in_range; eauto.
      rewrite Hl. apply elem_of_app. right. left.
  - exists st'. done.
Qed.

Lemma turns_in_range n : forall st st',
  shaped st -> scored st -> in_score_range st ->
  some_turns n st = Done st' ->
  shaped st' /\ scored st' /\ in_score_range st'.
Proof.
  induction n as [|n IH]; intros st st' Hsh Hsc Hin; simpl.
  - intros [= <-]. done.
  - intros H. apply bind_Done in H as (st1 & Hst1 & H).
    assert (st_queue st <> []) as Hne.
    { intros Hq. unfold loop_body in Hst1. rewrite Hq in Hst1. discriminate. }
    destruct (loop_body_in_range st Hsh Hsc Hin Hne) as (st1' & Hst1' & Hsh1 & Hsc1 & Hin1).
    assert (st1' = st1) as -> by congruence.
    eauto.
Qed.

Lemma init_search_in_range map :
  Z.of_nat (length map) = cells ->
  forall st, init_search startX startY map = Done st -> in_score_range st.
Proof.
  intros Hlen st Hst.
  destruct (init_search_shape sdfCells unitSize enableJumping startX startY
              start_in_grid map Hlen) as (st0 & Hst0 & Hq & Hm & _ & _).
  assert (st0 = st) as -> by congruence.
  pose proof (cell_index_range _ _ start_in_grid) as Hi.
  assert (exists old, (clear_score <$> map) !! Z.to_nat (cell_index startX startY)
                      = Some old /\ score old = 0) as (old & Hold & Hold0).
  { rewrite list_lookup_fmap.
    destruct (lookup_lt_is_Some_2 map (Z.to_nat (cell_index startX startY)))
      as [e He]; [lia|].
    rewrite He. simpl. eauto. }
  assert (unvisited (st_map st) <= cells - 1) as Hu.
  { rewrite Hm. unfold unvisited. erewrite sum_by_insert by eauto.
    rewrite Hold0. simpl.
    pose proof (unvisited_le_length (clear_score <$> map)) as Hle.
    rewrite length_fmap in Hle. unfold unvisited in Hle. lia. }
  pose proof (unvisited_nonneg (st_map st)) as Hu0.
  assert (1 <= score_bound (st_map st)) as Hb.
  { unfold score_bound, max_step_cost. lia. }
  split_and!; [done | |].
  - rewrite Hq. apply Forall_cons_2; [simpl; lia | apply Forall_nil_2].
  - rewrite Hm at 1. apply Forall_insert; [|simpl; lia].
    apply Forall_fmap. apply Forall_forall. intros e _. simpl. lia.
Qed.

End ScoreRange.

(** ** FindPath under a non-negative wall factor *)

Lemma turns_shape sdfCells unitSize sdfFactor enableJumping startX startY n :
  Z.of_nat (length sdfCells) = cells ->
  in_grid startX startY ->
  forall st st',
    shape sdfCells unitSize enableJumping startX startY st ->
    turns sdfCells unitSize sdfFactor enableJumping n st = Done st' ->
    shape sdfCells unitSize enableJumping startX startY st'.
Proof.
  intros Hsdf Hstart. induction n as [|n IH]; intros st st' Hsh; simpl.
  - intros [= <-]. done.
  - intros H. apply bind_Done in H as (st1 & Hst1 & H).
    assert (st_queue st <> []) as Hne.
    { intros Hq. unfold loop_body in Hst1. rewrite Hq in Hst1. discriminate. }
    destruct (loop_body_shape sdfCells unitSize sdfFactor enableJumping startX startY
                Hsdf Hstart st Hsh Hne) as (st1' & Hst1' & Hsh1).
    rewrite Hst1 in Hst1'. injection Hst1' as <-. eauto.
Qed.

Lemma follow_at_start startX startY remaining map e :
  rd map (startY * gridWidth + startX) = Done e ->
  follow startX startY remaining map startX startY = Done [].
Proof.
  intros He. destruct remaining; simpl; rewrite He; simpl;
    rewrite !Z.eqb_refl; simpl; by rewrite andb_false_r.
Qed.

Section FindPathScored.

Variable sdfCells : list Z.
Variables toX toY startX startY unitSize sdfFactor enableJumping : Z.
Variable map : list PathfindingNode.
Hypothesis sdfCells_length : Z.of_nat (length sdfCells) = cells.
Hypothesis map_length : Z.of_nat (length map) = cells.
Hypothesis start_in_grid : in_grid startX startY.
Hypothesis goal_in_grid : in_grid toX toY.
Hypothesis sdfFactor_nonneg : 0 <= sdfFactor.
Hypothesis clearance_nonneg : Forall (fun v => 0 <= v) sdfCells.

Local Abbreviation shaped := (shape sdfCells unitSize enableJumping startX startY).
Local Abbreviation scored := (well_scored sdfCells sdfFactor startX startY).
Local Abbreviation find :=
  (FindPath sdfCells toX toY startX startY unitSize sdfFactor enableJumping).

Lemma FindPath_scored_stages fuel r :
  find fuel map = Done r ->
  exists st0 st,
    init_search startX startY map = Done st0 /\
    search sdfCells unitSize sdfFactor enableJumping fuel st0 = Done st /\
    reconstruct toX toY startX startY st = Done r /\
    shaped st0 /\ scored st0 /\
    shaped st /\ scored st /\ st_queue st = [] /\ res_map r = st_map st /\
    res_overflowed r = st_overflowed st.
Proof.
  intros Hfind.
  edestruct FindPath_stages with (startX := startX) (toX := toX)
    as (st0 & st & Hinit & Hrun & Hrec & Hsh & Hq); eauto.
  edestruct init_search_shape with (startX := startX) (startY := startY) (map := map)
    as (st0' & Hinit' & _ & _ & _ & Hsh0); eauto.
  assert (st0' = st0) as -> by congruence.
  assert (scored st0) as Hsc0 by (eapply init_search_scored; eauto).
  assert (scored st) as Hsc.
  { eapply (search_scored sdfCells unitSize sdfFactor enableJumping startX startY);
      eauto. }
  edestruct reconstruct_shape
    with (startX := startX) (toX := toX) (toY := toY) (st := st)
    as (r' & _ & _ & Hrec' & Hmap & Hov & _); eauto.
  assert (r' = r) as -> by congruence.
  exists st0, st. split_and!; done.
Qed.

Lemma FindPath_terminates : exists fuel r, find fuel map = Done r.
Proof.
  edestruct init_search_shape with (startX := startX) (startY := startY) (map := map)
    as (st0 & Hinit & _ & _ & _ & Hsh0); eauto.
  assert (scored st0) as Hsc0 by (eapply init_search_scored; eauto).
  edestruct search_terminates with (st := st0) (startX := startX)
    as (fuel & st & Hrun); eauto.
  assert (shaped st) as Hsh.
  { eapply (search_shape _ _ _ _ startX startY) in Hrun as [? _]; eauto. }
  edestruct reconstruct_shape
    with (startX := startX) (toX := toX) (toY := toY) (st := st)
    as (r & _ & _ & Hrec & _); eauto.
  exists fuel, r. unfold FindPath. rewrite Hinit, bind_done, Hrun, bind_done. done.
Qed.

(** In a successful search the consecutive entries of the path are joined
    by predecessor links, down to the entry of the start cell. *)
Lemma FindPath_links fuel r :
  find fuel map = Done r -> 0 < pathLength r ->
  chain (from_link sdfCells unitSize enableJumping startX startY (res_map r))
        (path r) /\
  last (path r) = Some (start_entry startX startY) /\
  exists goal, map_at (res_map r) toX toY = Some goal /\ 0 < score goal /\
               head (path r) = Some goal.
Proof.
  intros Hfind Hlen.
  destruct (FindPath_scored_stages fuel r Hfind)
    as (st0 & st & _ & _ & Hrec & _ & _ & Hsh & Hsc & _ & Hmap & _).
  edestruct reconstruct_shape
    with (startX := startX) (toX := toX) (toY := toY) (st := st)
    as (r' & goal & start & Hrec' & _ & _ & Hgoal & Hstart & _ & _ & Hpl & Hcases); eauto.
  assert (r' = r) as -> by congruence.
  destruct Hcases as [[_ Hp] | (Hs & walked & Hwalk & Hp)].
  { rewrite Hpl, Hp in Hlen. simpl in Hlen. lia. }
  pose proof Hsc as (_ & _ & Hstart' & _).
  assert (start = start_entry startX startY) as -> by congruence.
  edestruct walk_reaches_start
    with (st := st) (startX := startX) (toX := toX) (toY := toY) (sdfFactor := sdfFactor)
    as [Hend Hchain]; eauto.
  rewrite Hmap, Hp. split; [done|]. split; [apply last_snoc|].
  exists goal. split_and!; try done.
  destruct Hsh as (Hml & _ & _ & _ & Hshape).
  edestruct follow_shape
    with (startX := startX) (startY := startY) (map := st_map st)
         (remaining := Z.to_nat cells) (x := toX) (y := toY)
    as (l & Hl & _ & Hall & Hlink & _); eauto.
  assert (l = walked) as -> by congruence.
  destruct walked as [|a l]; simpl in *.
  - injection Hend as -> ->. congruence.
  - destruct Hlink as (Hx & Hy & _). apply Forall_cons in Hall as [(Hat & _) _].
    rewrite Hx, Hy in Hat. congruence.
Qed.

End FindPathScored.


Section FindPathSettled.

Variable sdfCells : list Z.
Variables toX toY startX startY unitSize sdfFactor enableJumping : Z.
Variable map : list PathfindingNode.
Hypothesis sdfCells_length : Z.of_nat (length sdfCells) = cells.
Hypothesis map_length : Z.of_nat (length map) = cells.
Hypothesis start_in_grid : in_grid startX startY.
Hypothesis goal_in_grid : in_grid toX toY.
Hypothesis sdfFactor_nonneg : 0 <= sdfFactor.
Hypothesis clearance_nonneg : Forall (fun v => 0 <= v) sdfCells.

Local Abbreviation shaped := (shape sdfCells unitSize enableJumping startX startY).
Local Abbreviation scored := (well_scored sdfCells sdfFactor startX startY).
Local Abbreviation find :=
  (FindPath sdfCells toX toY startX startY unitSize sdfFactor enableJumping).

Lemma FindPath_final_state fuel r :
  find fuel map = Done r ->
  exists st,
    reconstruct toX toY startX startY st = Done r /\
    shaped st /\ scored st /\ st_queue st = [] /\
    res_map r = st_map st /\ res_overflowed r = st_overflowed st /\
    visits_reachable sdfCells unitSize enableJumping startX startY st /\
    (st_overflowed st = false ->
     settled sdfCells unitSize sdfFactor enableJumping st).
Proof.
  intros Hfind.
  destruct (FindPath_scored_stages sdfCells toX toY startX startY unitSize sdfFactor
              enableJumping map sdfCells_length map_length start_in_grid goal_in_grid
              sdfFactor_nonneg clearance_nonneg fuel r Hfind)
    as (st0 & st & Hinit & Hrun & Hrec & Hsh0 & Hsc0 & Hsh & Hsc & Hq & Hm & Hov).
  exists st. split_and!; try done.
  - eapply search_sound with (st := st0) (sdfFactor := sdfFactor); eauto.
    eapply init_search_sound; eauto.
  - eapply search_settled with (st := st0) (startX := startX); eauto.
    intros _.
    eapply init_search_settled with (startX := startX) (startY := startY); eauto.
Qed.

(** Along a predecessor link of the final map, the score grows exactly by
    the cost of the step. *)
Lemma link_exact st a b :
  shaped st -> scored st -> st_queue st = [] ->
  settled sdfCells unitSize sdfFactor enableJumping st ->
  from_link sdfCells unitSize enableJumping startX startY (st_map st) a b ->
  score a = score b + edge_cost sdfCells sdfFactor (nx b) (ny b) (nx a) (ny a).
Proof.
  intros Hsh Hsc Hq Hset (Hga & Hb & Hbx & Hby).
  destruct (gathered_predecessor sdfCells unitSize sdfFactor enableJumping
              startX startY start_in_grid st Hsc a Hga) as (p & Hp & Hp1 & _ & Hge).
  assert (p = b) as -> by congruence.
  destruct Hga as (Hat & _ & _ & _ & Hgf & off & v & cs & Hoff & Hcs & Hx & Hy & Hpass).
  pose proof (settled_at_end sdfCells unitSize sdfFactor enableJumping
                st _ _ b Hset Hq Hgf Hb Hp1) as Hrel.
  destruct (Hrel off cs v b Hoff Hcs Hpass Hb) as (e' & He' & _ & Hle).
  rewrite <- Hx, <- Hy in He'. assert (e' = a) as -> by congruence.
  rewrite <- Hbx, <- Hby in Hcs, Hpass.
  destruct (step_score_edge_cost sdfCells unitSize sdfFactor enableJumping
              sdfFactor_nonneg clearance_nonneg b cs off v _ Hoff Hcs Hpass) as [Heq _].
  rewrite Heq in Hle. rewrite Hbx, Hby, <- Hx, <- Hy in Hle.
  rewrite Hbx, Hby. lia.
Qed.

End FindPathSettled.

Lemma path_cost_telescopes sdfCells sdfFactor l :
  chain (fun a b => score a = score b
                    + edge_cost sdfCells sdfFactor (nx b) (ny b) (nx a) (ny a)) l ->
  forall first final,
    head l = Some first -> last l = Some final ->
    score first = score final + path_cost sdfCells sdfFactor l.
Proof.
  induction l as [|a l IH]; intros Hc first final Hf Hl; [done|].
  simpl in Hf. injection Hf as <-.
  destruct l as [|b l].
  - simpl in *. injection Hl as <-. lia.
  - destruct Hc as [Hab Hc].
    specialize (IH Hc b final eq_refl Hl).
    change (path_cost sdfCells sdfFactor (a :: b :: l))
      with (edge_cost sdfCells sdfFactor (nx b) (ny b) (nx a) (ny a)
            + path_cost sdfCells sdfFactor (b :: l)).
    lia.
Qed.

Lemma chain_impl {A} (R R' : A -> A -> Prop) (l : list A) :
  (forall a b, R a b -> R' a b) -> chain R l -> chain R' l.
Proof.
  intros H. induction l as [|a l IH]; [done|].
  destruct l as [|b l]; [done|]. intros [Hab Hc]. split; auto.
Qed.


(** * A run that does not terminate: a negative wall factor *)

Lemma for_each_filter {A S} (body : S -> A -> outcome S) (keep : A -> bool) l :
  (forall a s, keep a = false -> body s a = Done s) ->
  forall s, for_each body l s = for_each body (List.filter keep l) s.
Proof.
  intros Hskip. induction l as [|a l IH]; intros s; simpl; [done|].
  destruct (keep a) eqn:Hk; simpl.
  - destruct (body s a); simpl; auto.
  - rewrite Hskip by done. simpl. apply IH.
Qed.

Lemma relax_skipped sdfCells unitSize sdfFactor enableJumping node cs maxDistance st off :
  skipped sdfCells unitSize enableJumping (nx node) (ny node) maxDistance off = true ->
  relax sdfCells unitSize sdfFactor enableJumping node cs maxDistance st off = Done st.
Proof.
  unfold skipped, relax.
  destruct ((distance off >? maxDistance)
            || (enableJumping =? 0) && (distance off >? 1)); simpl; [done|].
  destruct ((nx node + ox off <? 0) || (nx node + ox off >=? gridWidth)
            || (ny node + oy off <? 0) || (ny node + oy off >=? gridHeight)) eqn:Hb;
    simpl; [done|].
  apply orb_false_elim in Hb as [Hb Hb4]. apply orb_false_elim in Hb as [Hb Hb3].
  apply orb_false_elim in Hb as [Hb1 Hb2].
  unfold rd.
  rewrite (proj2 (Z.leb_le 0 _)) by (unfold gridWidth in *; lia).
  destruct (sdfCells !! _) as [v|]; [|done].
  intros Hv. rewrite bind_done, Hv. done.
Qed.

Section Bounce.

Local Abbreviation turn := (loop_body two_cell_field 1 (-6) 1).

Lemma step_score_bounce s : step_score (-6) s 1 1 1 = s - 1.
Proof.
  unfold step_score.
  replace ((((1 + 1) * (1 + 1)) ÷ 2 * -6) ÷ 6) with (-2) by reflexivity. lia.
Qed.

Lemma offsets_from_left_cell :
  List.filter (fun off => negb (skipped two_cell_field 1 1 0 0 1 off)) neighborOffsets
  = [mkOffset 1 0 1].
Proof. vm_compute. reflexivity. Qed.

Lemma offsets_from_right_cell :
  List.filter (fun off => negb (skipped two_cell_field 1 1 1 0 1 off)) neighborOffsets
  = [mkOffset (-1) 0 1].
Proof. vm_compute. reflexivity. Qed.

Lemma loop_body_bouncing st :
  bouncing st -> exists st', turn st = Done st' /\ bouncing st'.
Proof.
  intros (n & e & other & Hq & Hlen & Hpos & He & Hes & Hother & Hscore).
  destruct n as [x y fx fy s]. simpl in *.
  assert (Z.of_nat (length two_cell_field) = cells) as Hsdf by reflexivity.
  unfold loop_body. rewrite Hq. simpl lowestScoreIndex.
  change (rd [mkNode x y fx fy s] (Z.of_nat 0)) with (Done (mkNode x y fx fy s)).
  rewrite bind_done. cbn [nx ny delete list_delete st_queue st_map st_overflowed].
  destruct Hpos as [[-> ->] | [-> ->]].
  - change (rd two_cell_field (0 * gridWidth + 0)) with (Done 1).
    rewrite bind_done. change (if 1 - 1 <? 1 then 1 else 1 - 1) with 1.
    rewrite (for_each_filter _ (fun off => negb (skipped two_cell_field 1 1 0 0 1 off)))
      by (intros a s0 Ha; apply relax_skipped; by apply negb_false_iff).
    rewrite offsets_from_left_cell. cbn [for_each].
    destruct (relax_cases two_cell_field 1 (-6) 1 Hsdf (mkNode 0 0 fx fy s) 1 1
                (mkState [] (st_map st) (st_overflowed st)) (mkOffset 1 0 1))
      as (st' & -> & Hrel); [done | simpl; rewrite cells_eq; lia |].
    rewrite bind_done. exists st'. split; [done|].
    cbn [nx ny ox oy distance score st_map st_queue] in Hrel.
    destruct Hrel as [Hskip | v old Hpass Hold Hnz Hle
                      | v old st' Hpass Hold Hupd entry Hmap' Hqueue].
    + exfalso. apply (Hskip 1). unfold passable, in_grid, gridWidth, gridHeight.
      simpl. split_and!; try lia; done.
    + exfalso. cbn [nx ny ox oy distance score st_map] in *.
      assert (v = 1) as -> by (destruct Hpass as (_ & _ & _ & Hv & _); by injection Hv).
      rewrite step_score_bounce in Hle.
      change (0 + 1) with 1 in Hold. change (0 + 0) with 0 in Hold.
      change (1 - 0) with 1 in Hother. simplify_eq. lia.
    + cbn [nx ny ox oy distance score st_map st_queue] in *.
      assert (v = 1) as -> by (destruct Hpass as (_ & _ & _ & Hv & _); by injection Hv).
      assert (entry = mkNode 1 0 0 0 (s - 1)) as Hentry
          by (unfold entry; by rewrite step_score_bounce).
      clearbody entry. subst entry.
      change (Z.to_nat (cell_index (0 + 1) (0 + 0))) with 1%nat in Hmap'.
      destruct Hqueue as [(Hq' & _ & _) | (_ & _ & Hfull)];
        [|simpl in Hfull; rewrite cells_eq in Hfull; lia].
      simpl in Hq'.
      exists (mkNode 1 0 0 0 (s - 1)), (mkNode 1 0 0 0 (s - 1)), e.
      unfold map_at in *. cbn [nx ny score]. rewrite Hmap'.
      split_and!; try done.
      * by rewrite length_insert.
      * by right.
      * change (Z.to_nat (cell_index 1 0)) with 1%nat.
        apply list_lookup_insert_eq. rewrite cells_eq in Hlen. lia.
      * change (Z.to_nat (cell_index (1 - 1) 0)) with 0%nat.
        rewrite list_lookup_insert_ne by done. exact He.
      * right. lia.
  - change (rd two_cell_field (0 * gridWidth + 1)) with (Done 1).
    rewrite bind_done. change (if 1 - 1 <? 1 then 1 else 1 - 1) with 1.
    rewrite (for_each_filter _ (fun off => negb (skipped two_cell_field 1 1 1 0 1 off)))
      by (intros a s0 Ha; apply relax_skipped; by apply negb_false_iff).
    rewrite offsets_from_right_cell. cbn [for_each].
    destruct (relax_cases two_cell_field 1 (-6) 1 Hsdf (mkNode 1 0 fx fy s) 1 1
                (mkState [] (st_map st) (st_overflowed st)) (mkOffset (-1) 0 1))
      as (st' & -> & Hrel); [done | simpl; rewrite cells_eq; lia |].
    rewrite bind_done. exists st'. split; [done|].
    cbn [nx ny ox oy distance score st_map st_queue] in Hrel.
    destruct Hrel as [Hskip | v old Hpass Hold Hnz Hle
                      | v old st' Hpass Hold Hupd entry Hmap' Hqueue].
    + exfalso. apply (Hskip 1). unfold passable, in_grid, gridWidth, gridHeight.
      simpl. split_and!; try lia; done.
    + exfalso. cbn [nx ny ox oy distance score st_map] in *.
      assert (v = 1) as -> by (destruct Hpass as (_ & _ & _ & Hv & _); by injection Hv).
      rewrite step_score_bounce in Hle.
      change (1 + -1) with 0 in Hold. change (0 + 0) with 0 in Hold.
      change (1 - 1) with 0 in Hother. simplify_eq. lia.
    + cbn [nx ny ox oy distance score st_map st_queue] in *.
      assert (v = 1) as -> by (destruct Hpass as (_ & _ & _ & Hv & _); by injection Hv).
      assert (entry = mkNode 0 0 1 0 (s - 1)) as Hentry
          by (unfold entry; by rewrite step_score_bounce).
      clearbody entry. subst entry.
      change (Z.to_nat (cell_index (1 + -1) (0 + 0))) with 0%nat in Hmap'.
      destruct Hqueue as [(Hq' & _ & _) | (_ & _ & Hfull)];
        [|simpl in Hfull; rewrite cells_eq in Hfull; lia].
      simpl in Hq'.
      exists (mkNode 0 0 1 0 (s - 1)), (mkNode 0 0 1 0 (s - 1)), e.
      unfold map_at in *. cbn [nx ny score]. rewrite Hmap'.
      split_and!; try done.
      * by rewrite length_insert.
      * by left.
      * change (Z.to_nat (cell_index 0 0)) with 0%nat.
        apply list_lookup_insert_eq. rewrite cells_eq in Hlen. lia.
      * change (Z.to_nat (cell_index (1 - 0) 0)) with 1%nat.
        rewrite list_lookup_insert_ne by done. exact He.
      * right. lia.
Qed.

Lemma search_bouncing fuel : forall st,
  bouncing st -> search two_cell_field 1 (-6) 1 fuel st = Timeout.
Proof.
  induction fuel as [|fuel IH]; intros st Hb.
  - destruct Hb as (n & _ & _ & Hq & _). simpl. rewrite Hq. done.
  - destruct (loop_body_bouncing st Hb) as (st' & Hst' & Hb').
    destruct Hb as (n & _ & _ & Hq & _). simpl. rewrite Hq. simpl.
    rewrite Hst'. simpl. by apply IH.
Qed.

Lemma two_cell_state_0_bouncing : bouncing two_cell_state_0.
Proof.
  exists (mkNode 0 0 0 0 1), (start_entry 0 0), (mkNode 0 0 0 0 0).
  split_and!; try reflexivity.
  - by left.
  - by left.
Qed.

End Bounce.


(** * Properties of the search that hold for every configuration *)

Section PathShape.

Variable sdfCells : list Z.
Variables toX toY startX startY unitSize sdfFactor enableJumping : Z.
Variable map : list PathfindingNode.
Hypothesis sdfCells_length : Z.of_nat (length sdfCells) = cells.
Hypothesis map_length : Z.of_nat (length map) = cells.
Hypothesis start_in_grid : in_grid startX startY.
Hypothesis goal_in_grid : in_grid toX toY.

Local Abbreviation find :=
  (FindPath sdfCells toX toY startX startY unitSize sdfFactor enableJumping).
Local Abbreviation gathered := (collected sdfCells unitSize enableJumping startX startY).

(** What a run of [FindPath] that returns leaves behind. *)
Lemma FindPath_result fuel r :
  find fuel map = Done r ->
  exists goal start,
    map_at (res_map r) toX toY = Some goal /\
    map_at (res_map r) startX startY = Some start /\
    nx start = startX /\ ny start = startY /\
    pathLength r = Z.of_nat (length (path r)) /\
    ((score goal <= 0 /\ path r = []) \/
     (0 < score goal /\
      exists walked,
        path r = walked ++ [start] /\
        (length walked <= Z.to_nat cells)%nat /\
        Forall (gathered (res_map r)) walked /\
        linked toX toY walked /\
        ((toX <> startX \/ toY <> startY) -> walked <> []))).
Proof.
  intros Hfind.
  edestruct FindPath_stages with (startX := startX) (toX := toX)
    as (st0 & st & _ & _ & Hrec & Hsh & _); eauto.
  edestruct reconstruct_shape with (startX := startX) (toX := toX) (toY := toY)
    as (r' & goal & start & Hrec' & Hmap & _ & Hgoal & Hstart & Hsx & Hsy & Hlen & Hcases);
    eauto.
  assert (r' = r) as -> by congruence.
  exists goal, start. rewrite Hmap. split_and!; try done.
  destruct Hcases as [? | (Hs & walked & Hwalk & Hpath)]; [by left|right].
  split; [done|]. exists walked. split; [done|].
  destruct Hsh as (Hml & _ & _ & _ & Hshape).
  edestruct follow_shape
    with (startX := startX) (startY := startY) (map := st_map st)
         (remaining := Z.to_nat cells) (x := toX) (y := toY)
    as (l & Hl & Hll & Hall & Hlink & _ & Hstop); eauto.
  assert (l = walked) as -> by congruence.
  split_and!; try done.
  intros Hne ->. simpl in Hstop.
  destruct Hstop as (e & He & [Hle | Heq]).
  - rewrite cells_eq. lia.
  - rewrite Hgoal in He. simplify_eq. lia.
  - simplify_eq. lia.
Qed.

End PathShape.

(** C4: [FindPath] reports success (a path of positive length) exactly
    when the score stored for the goal cell after the main loop is
    positive; when that score is [0] the path is left empty with
    [pathLength = 0].  No run ends in a fault. *)
Theorem FindPath_success_iff_goal_scored
    (sdfCells : list Z) (toX toY startX startY unitSize sdfFactor enableJumping : Z)
    (map : list PathfindingNode) (fuel : nat) :
  Z.of_nat (length sdfCells) = cells ->
  Z.of_nat (length map) = cells ->
  in_grid startX startY ->
  in_grid toX toY ->
  FindPath sdfCells toX toY startX startY unitSize sdfFactor enableJumping fuel map
    <> Fault /\
  forall r,
    FindPath sdfCells toX toY startX startY unitSize sdfFactor enableJumping fuel map
      = Done r ->
    exists goal,
      map_at (res_map r) toX toY = Some goal /\
      (0 < pathLength r <-> 0 < score goal) /\
      (score goal = 0 -> pathLength r = 0 /\ path r = []).
Proof.
  intros Hsdf Hmap Hstart Hgoal. split; [by apply FindPath_no_fault|].
  intros r Hr.
  edestruct FindPath_result with (startX := startX) (toX := toX)
    as (goal & start & Hg & _ & _ & _ & Hlen & Hcases); eauto.
  exists goal. split; [done|].
  destruct Hcases as [[Hs Hp] | (Hs & walked & Hp & _)]; rewrite Hlen, Hp.
  - simpl. split; [lia|]. done.
  - rewrite length_app. simpl. split; [lia|]. lia.
Qed.

Lemma FindPath_success_iff_goal_scored_witness :
  FindPath walled_field 1 0 0 0 1 0 1 5 fresh_map <> Fault /\
  forall r, FindPath walled_field 1 0 0 0 1 0 1 5 fresh_map = Done r ->
    exists goal,
      map_at (res_map r) 1 0 = Some goal /\
      (0 < pathLength r <-> 0 < score goal) /\
      (score goal = 0 -> pathLength r = 0 /\ path r = []).
Proof.
  apply (FindPath_success_iff_goal_scored walled_field 1 0 0 0 1 0 1 fresh_map 5).
  - reflexivity.
  - reflexivity.
  - unfold in_grid, gridWidth, gridHeight. lia.
  - unfold in_grid, gridWidth, gridHeight. lia.
Defined.

(** C1, as stated, fails on the seeded start cell: with every cell
    blocked and start = goal, the search succeeds and its path consists of
    the start cell, whose clearance [0] is below the unit size [1]. *)
Lemma start_cell_is_not_checked :
  exists r e v,
    FindPath walled_field 0 0 0 0 1 0 1 5 fresh_map = Done r /\
    0 < pathLength r /\
    e ∈ path r /\
    clearance_at walled_field (nx e) (ny e) = Some v /\
    v < 1.
Proof.
  eexists _, (start_entry 0 0), 0. split; [vm_compute; reflexivity|].
  split; [reflexivity|]. split; [|split; reflexivity].
  vm_compute. left.
Qed.

(** C1 (amended): in every successful search, every cell of the
    reconstructed path other than the seeded start cell, which is the last
    entry of the path, has clearance at least [unitSize]; this includes
    the goal cell whenever it differs from the start cell. *)
Theorem path_cells_have_clearance
    (sdfCells : list Z) (toX toY startX startY unitSize sdfFactor enableJumping : Z)
    (map : list PathfindingNode) (fuel : nat) (r : PathResult) :
  Z.of_nat (length sdfCells) = cells ->
  Z.of_nat (length map) = cells ->
  in_grid startX startY ->
  in_grid toX toY ->
  FindPath sdfCells toX toY startX startY unitSize sdfFactor enableJumping fuel map
    = Done r ->
  0 < pathLength r ->
  exists walked start,
    path r = walked ++ [start] /\
    nx start = startX /\ ny start = startY /\
    Forall (fun e => exists v, clearance_at sdfCells (nx e) (ny e) = Some v /\
                               unitSize <= v) walked /\
    ((toX <> startX \/ toY <> startY) ->
     exists goal rest, walked = goal :: rest /\ nx goal = toX /\ ny goal = toY).
Proof.
  intros Hsdf Hmap Hstart Hgoal Hr Hlen.
  edestruct FindPath_result with (startX := startX) (toX := toX)
    as (goal & start & Hg & _ & Hsx & Hsy & Hpl & Hcases); eauto.
  destruct Hcases as [[Hs Hp] | (Hs & walked & Hp & _ & Hall & Hlink & Hne)].
  { rewrite Hpl, Hp in Hlen. simpl in Hlen. lia. }
  exists walked, start. split_and!; try done.
  - eapply Forall_impl; [exact Hall|].
    intros e (_ & _ & _ & _ & _ & off & v & cs & _ & _ & Hx & Hy & Hpass).
    destruct Hpass as (_ & _ & _ & Hc & Hu). exists v. by rewrite Hx, Hy.
  - intros Hdiff. specialize (Hne Hdiff).
    destruct walked as [|e rest]; [done|]. exists e, rest.
    destruct Hlink as (? & ? & _). done.
Qed.

Lemma path_cells_have_clearance_witness :
  exists walked start,
    path two_cell_result = walked ++ [start] /\
    nx start = 0 /\ ny start = 0 /\
    Forall (fun e => exists v, clearance_at two_cell_field (nx e) (ny e) = Some v /\
                               1 <= v) walked /\
    ((1 <> 0 \/ 0 <> 0) ->
     exists goal rest, walked = goal :: rest /\ nx goal = 1 /\ ny goal = 0).
Proof.
  apply (path_cells_have_clearance two_cell_field 1 0 0 0 1 0 1 fresh_map 5
           two_cell_result).
  - reflexivity.
  - reflexivity.
  - unfold in_grid, gridWidth, gridHeight. lia.
  - unfold in_grid, gridWidth, gridHeight. lia.
  - vm_compute. reflexivity.
  - reflexivity.
Defined.

(** The two ends of the path array of a successful search. *)
Lemma path_ends
    (sdfCells : list Z) (toX toY startX startY unitSize sdfFactor enableJumping : Z)
    (map : list PathfindingNode) (fuel : nat) (r : PathResult) :
  Z.of_nat (length sdfCells) = cells ->
  Z.of_nat (length map) = cells ->
  in_grid startX startY ->
  in_grid toX toY ->
  FindPath sdfCells toX toY startX startY unitSize sdfFactor enableJumping fuel map
    = Done r ->
  0 < pathLength r ->
  exists first final,
    head (path r) = Some first /\ nx first = toX /\ ny first = toY /\
    last (path r) = Some final /\ nx final = startX /\ ny final = startY.
Proof.
  intros Hsdf Hmap Hstart Hgoal Hr Hlen.
  edestruct FindPath_result with (startX := startX) (toX := toX)
    as (goal & start & Hg & _ & Hsx & Hsy & Hpl & Hcases); eauto.
  destruct Hcases as [[Hs Hp] | (Hs & walked & Hp & _ & _ & Hlink & Hne)].
  { rewrite Hpl, Hp in Hlen. simpl in Hlen. lia. }
  destruct walked as [|e rest].
  - exists start, start. rewrite Hp. simpl. split_and!; try done.
    + destruct (decide (toX = startX)); [lia|]. exfalso. apply Hne; auto.
    + destruct (decide (toY = startY)); [lia|]. exfalso. apply Hne; auto.
  - exists e, start. rewrite Hp. split_and!; try done.
    + apply Hlink.
    + apply Hlink.
    + apply (last_snoc start (e :: rest)).
Qed.

(** C8, as stated, fails: the path array is not reversed.  For the search
    with start cell [(0,0)] and goal cell [(1,0)] the first entry of the
    path is the goal cell and the last entry is the start cell. *)
Lemma path_is_not_reversed :
  FindPath two_cell_field 1 0 0 0 1 0 1 5 fresh_map = Done two_cell_result /\
  exists first final,
    head (path two_cell_result) = Some first /\
    last (path two_cell_result) = Some final /\
    (nx first, ny first) = (1, 0) /\ (nx first, ny first) <> (0, 0) /\
    (nx final, ny final) = (0, 0) /\ (nx final, ny final) <> (1, 0).
Proof.
  split; [vm_compute; reflexivity|].
  eexists _, _. split; [reflexivity|]. split; [reflexivity|].
  simpl. split_and!; congruence.
Qed.

(** C8 (amended): for every successful search the reconstructor walks the
    predecessor links from the goal cell, at most [gridWidth * gridHeight]
    of them, and appends the entry of the start cell; the order is not
    reversed, so the first entry of the path is the goal cell [(toX, toY)]
    and the last entry is the search's start cell [(startX, startY)].
    ([main] passes its own start as [(toX, toY)] and its own end as
    [(startX, startY)].) *)
Theorem path_runs_from_goal_to_start
    (sdfCells : list Z) (toX toY startX startY unitSize sdfFactor enableJumping : Z)
    (map : list PathfindingNode) (fuel : nat) (r : PathResult) :
  Z.of_nat (length sdfCells) = cells ->
  Z.of_nat (length map) = cells ->
  in_grid startX startY ->
  in_grid toX toY ->
  FindPath sdfCells toX toY startX startY unitSize sdfFactor enableJumping fuel map
    = Done r ->
  0 < pathLength r ->
  exists walked first final,
    path r = walked ++ [final] /\
    linked toX toY walked /\
    (length walked <= Z.to_nat cells)%nat /\
    head (path r) = Some first /\ nx first = toX /\ ny first = toY /\
    last (path r) = Some final /\ nx final = startX /\ ny final = startY.
Proof.
  intros Hsdf Hmap Hstart Hgoal Hr Hlen.
  edestruct FindPath_result with (startX := startX) (toX := toX)
    as (goal & start & Hg & _ & Hsx & Hsy & Hpl & Hcases); eauto.
  destruct Hcases as [[Hs Hp] | (Hs & walked & Hp & Hwl & Hall & Hlink & Hne)].
  { rewrite Hpl, Hp in Hlen. simpl in Hlen. lia. }
  destruct walked as [|e rest].
  - exists [], start, start. rewrite Hp. simpl. split_and!; try done.
    + destruct (decide (toX = startX)); [lia|]. exfalso. apply Hne; auto.
    + destruct (decide (toY = startY)); [lia|]. exfalso. apply Hne; auto.
  - exists (e :: rest), e, start. rewrite Hp. split_and!; try done.
    + apply Hlink.
    + apply Hlink.
    + apply (last_snoc start (e :: rest)).
Qed.

Lemma path_runs_from_goal_to_start_witness :
  exists walked first final,
    path two_cell_result = walked ++ [final] /\
    linked 1 0 walked /\
    (length walked <= Z.to_nat cells)%nat /\
    head (path two_cell_result) = Some first /\ nx first = 1 /\ ny first = 0 /\
    last (path two_cell_result) = Some final /\ nx final = 0 /\ ny final = 0.
Proof.
  apply (path_runs_from_goal_to_start two_cell_field 1 0 0 0 1 0 1 fresh_map 5
           two_cell_result).
  - reflexivity.
  - reflexivity.
  - unfold in_grid, gridWidth, gridHeight. lia.
  - unfold in_grid, gridWidth, gridHeight. lia.
  - vm_compute. reflexivity.
  - reflexivity.
Defined.

(** * Properties of the search for a non-negative wall factor *)

Lemma chain_lookup {A} (R : A -> A -> Prop) (l : list A) : forall i a b,
  chain R l -> l !! i = Some a -> l !! S i = Some b -> R a b.
Proof.
  induction l as [|x l IH]; intros i a b Hc Ha Hb; [done|].
  destruct l as [|y l]; [done|]. destruct Hc as [Hxy Hc].
  destruct i as [|i]; simpl in *.
  - by simplify_eq.
  - eapply IH; eauto.
Qed.

Lemma walled_field_nonneg : Forall (fun v => 0 <= v) walled_field.
Proof. apply Forall_replicate. lia. Qed.

Lemma two_cell_field_nonneg : Forall (fun v => 0 <= v) two_cell_field.
Proof.
  unfold two_cell_field.
  apply Forall_cons_2; [lia|]. apply Forall_cons_2; [lia|].
  apply Forall_replicate. lia.
Qed.





Lemma linked_lookup l : forall x y i a b,
  linked x y l -> l !! i = Some a -> l !! S i = Some b ->
  nx b = fromX a /\ ny b = fromY a.
Proof.
  induction l as [|e l IH]; intros x y i a b Hl Ha Hb; [done|].
  destruct Hl as (_ & _ & Hl).
  destruct i as [|i]; simpl in *.
  - injection Ha as <-. destruct l as [|e' l]; [done|].
    injection Hb as <-. destruct Hl as (? & ? & _). done.
  - eapply IH; eauto.
Qed.

(** With jumping disabled, a collected entry lies one unit step away
    from the cell it names as its predecessor. *)
Lemma collected_unit_step sdfCells unitSize startX startY map a :
  collected sdfCells unitSize 0 startX startY map a ->
  exists off,
    off ∈ neighborOffsets /\ distance off = 1 /\
    nx a = fromX a + ox off /\ ny a = fromY a + oy off /\
    Z.abs (ox off) + Z.abs (oy off) = 1.
Proof.
  intros (_ & _ & _ & _ & _ & off & v & cs & Hoff & _ & Hx & Hy & Hpass).
  destruct Hpass as (_ & Hjump & _).
  destruct (neighborOffsets_spec off Hoff) as (Hd & _ & _ & Hunit).
  specialize (Hjump eq_refl). specialize (Hunit Hjump).
  exists off. split_and!; try done. lia.
Qed.











(** The assumption on the wall factor matters when the clearances are not
    those of a clearance field.  On [uneven_field] with wall factor [-2]
    and unit size [3], the jump from [(0,1)] to [(1,0)] costs [-2] and
    leaves the goal [(1,0)] with the score [-1]: no path is reported.  At
    unit size [4] this jump is not allowed and the goal keeps the score
    [1] of the step from the start cell: a path is reported. *)
Remark negative_factor_on_uneven_field :
  exists r r',
    FindPath uneven_field 1 0 0 0 3 (-2) 1 10 fresh_map = Done r /\
    pathLength r = 0 /\
    FindPath uneven_field 1 0 0 0 4 (-2) 1 10 fresh_map = Done r' /\
    pathLength r' = 2.
Proof.
  eexists _, _. split; [vm_compute; reflexivity|]. split; [reflexivity|].
  split; [vm_compute; reflexivity|]. reflexivity.
Qed.

Lemma negative_wall_factor_times_out toX toY fuel :
  FindPath two_cell_field toX toY 0 0 1 (-6) 1 fuel fresh_map = Timeout.
Proof.
  unfold FindPath.
  replace (init_search 0 0 fresh_map) with (Done two_cell_state_0)
    by (vm_compute; reflexivity).
  rewrite bind_done, search_bouncing by exact two_cell_state_0_bouncing.
  reflexivity.
Qed.



(** * The clearance field after the rebuild *)

(** C2: after the rebuild, the clearance of every cell is the minimum over
    all blocked cells of the chosen distance metric, saturated at
    [R = 10]: it is at most [10], at most the distance to each blocked
    cell, and equal to [10] or to the distance to some blocked cell.  A
    blocked cell has clearance [0]; without blocked cells the clearance is
    [10] everywhere. *)
Theorem rebuilt_clearance_is_saturated_minimum
    (blockedCells : list Z) (sdfFunction : Z) :
  Z.of_nat (length blockedCells) = cells ->
  0 <= sdfFunction <= 2 ->
  exists sdfCells,
    UpdateSDF blockedCells sdfFunction = Done sdfCells /\
    Z.of_nat (length sdfCells) = cells /\
    forall x y, in_grid x y ->
      exists c,
        clearance_at sdfCells x y = Some c /\
        c = spec_clearance blockedCells sdfFunction x y /\
        0 <= c <= 10 /\
        (forall bx by', in_grid bx by' -> is_blocked blockedCells bx by' = true ->
                        c <= distance_metric sdfFunction (bx - x) (by' - y)) /\
        (c = 10 \/
         exists bx by', in_grid bx by' /\ is_blocked blockedCells bx by' = true /\
                        c = distance_metric sdfFunction (bx - x) (by' - y)) /\
        (is_blocked blockedCells x y = true -> c = 0) /\
        ((forall bx by', in_grid bx by' -> is_blocked blockedCells bx by' = false) ->
         c = 10).
Proof.
  intros Hlen Hfn.
  destruct (UpdateSDF_spec blockedCells sdfFunction Hlen Hfn) as (sdf & Hrun & Hl & Hval).
  exists sdf. split; [done|]. split; [done|].
  intros x y Hg. exists (spec_clearance blockedCells sdfFunction x y).
  split; [by apply Hval|]. split; [done|].
  destruct (spec_clearance_minimum blockedCells sdfFunction x y) as (Hr & Hall & Hatt).
  split; [exact Hr|]. split; [exact Hall|]. split; [exact Hatt|]. split.
  - intros Hb. specialize (Hall x y Hg Hb).
    replace (x - x) with 0 in Hall by lia. replace (y - y) with 0 in Hall by lia.
    rewrite distance_metric_origin in Hall. lia.
  - intros Hnone. destruct Hatt as [? | (bx & by' & Hgb & Hb & _)]; [done|].
    rewrite Hnone in Hb by done. discriminate.
Qed.

Lemma rebuilt_clearance_is_saturated_minimum_witness :
  exists sdfCells,
    UpdateSDF (replicate (Z.to_nat cells) 0) 0 = Done sdfCells /\
    Z.of_nat (length sdfCells) = cells /\
    forall x y, in_grid x y ->
      exists c,
        clearance_at sdfCells x y = Some c /\
        c = spec_clearance (replicate (Z.to_nat cells) 0) 0 x y /\
        0 <= c <= 10 /\
        (forall bx by', in_grid bx by' ->
           is_blocked (replicate (Z.to_nat cells) 0) bx by' = true ->
           c <= distance_metric 0 (bx - x) (by' - y)) /\
        (c = 10 \/
         exists bx by', in_grid bx by' /\
           is_blocked (replicate (Z.to_nat cells) 0) bx by' = true /\
           c = distance_metric 0 (bx - x) (by' - y)) /\
        (is_blocked (replicate (Z.to_nat cells) 0) x y = true -> c = 0) /\
        ((forall bx by', in_grid bx by' ->
            is_blocked (replicate (Z.to_nat cells) 0) bx by' = false) ->
         c = 10).
Proof.
  apply (rebuilt_clearance_is_saturated_minimum (replicate (Z.to_nat cells) 0) 0).
  - reflexivity.
  - lia.
Defined.

(** The rebuilt field meets the assumptions made on clearances above. *)
Lemma rebuilt_clearance_nonneg blockedCells sdfFunction sdfCells :
  Z.of_nat (length blockedCells) = cells ->
  0 <= sdfFunction <= 2 ->
  UpdateSDF blockedCells sdfFunction = Done sdfCells ->
  Z.of_nat (length sdfCells) = cells /\ Forall (fun v => 0 <= v <= 10) sdfCells.
Proof.
  intros Hlen Hfn Hrun.
  destruct (UpdateSDF_spec blockedCells sdfFunction Hlen Hfn) as (sdf & Hrun' & Hl & Hval).
  assert (sdf = sdfCells) as -> by congruence.
  split; [done|]. apply Forall_forall. intros v Hv.
  apply list_elem_of_lookup in Hv as [k Hk].
  assert (0 <= Z.of_nat k < cells) as Hkr by (apply lookup_lt_Some in Hk; lia).
  destruct (index_is_cell _ Hkr) as (x & y & Hg & Hidx).
  specialize (Hval x y Hg). unfold clearance_at in Hval.
  rewrite Hidx, Nat2Z.id, Hk in Hval. injection Hval as ->.
  apply spec_clearance_minimum.
Qed.

(** * The searches of [main] *)

(** For the wall factors and the clearances that [main] produces, every
    score that the search stores is at most [1 + 138 * 3599], and every
    value computed on the way to the score of a landing cell lies in the
    range of a 32-bit [int]: on these inputs no signed overflow occurs,
    and the unbounded integers of this development are the [int]s of the
    program. *)
Theorem scores_fit_int
    (sdfCells : list Z) (startX startY unitSize sdfFactor enableJumping : Z)
    (map : list PathfindingNode) (st0 st : SearchState) (n : nat) :
  Z.of_nat (length sdfCells) = cells ->
  Z.of_nat (length map) = cells ->
  in_grid startX startY ->
  0 <= sdfFactor <= 7 ->
  Forall (fun v => 0 <= v <= 10) sdfCells ->
  init_search startX startY map = Done st0 ->
  turns sdfCells unitSize sdfFactor enableJumping n st0 = Done st ->
  Forall (fun e => 0 <= score e <= 1 + max_step_cost * (cells - 1)) (st_map st) /\
  Forall (fun m => 1 <= score m <= 1 + max_step_cost * (cells - 1)) (st_queue st) /\
  forall node off cs v,
    dequeued st = Some node ->
    off ∈ neighborOffsets ->
    clearance_at sdfCells (nx node) (ny node) = Some cs ->
    clearance_at sdfCells (nx node + ox off) (ny node + oy off) = Some v ->
    Forall int_range (score_values sdfFactor (score node) cs v (distance off)).
Proof.
  intros Hsdf Hmap Hstart Hf Hc Hinit Hturns.
  pose proof (clearance_range_nonneg sdfCells Hc) as Hc0.
  destruct (init_search_shape sdfCells unitSize enableJumping startX startY
              Hstart map Hmap) as (st0' & Hinit' & _ & _ & _ & Hsh0).
  assert (st0' = st0) as -> by congruence.
  pose proof (init_search_scored sdfCells unitSize sdfFactor enableJumping
                startX startY Hstart map Hmap st0 Hinit) as Hsc0.
  pose proof (init_search_in_range sdfCells unitSize enableJumping startX startY
                Hstart map Hmap st0 Hinit) as Hin0.
  destruct (turns_in_range sdfCells unitSize sdfFactor enableJumping startX startY
              Hsdf Hstart Hf Hc n st0 st Hsh0 Hsc0 Hin0 Hturns)
    as (Hsh & Hsc & Hu & Hq & Hm).
  pose proof (unvisited_nonneg (st_map st)) as Hu0.
  assert (score_bound (st_map st) <= 1 + max_step_cost * (cells - 1)) as Hb.
  { unfold score_bound, max_step_cost. lia. }
  destruct Hsc as (Hqb & Hnonneg & _).
  assert (Forall (fun m => 1 <= score m <= 1 + max_step_cost * (cells - 1))
                 (st_queue st)) as Hqr.
  { rewrite Forall_forall in *. intros m Hmq.
    specialize (Hq m Hmq). destruct (Hqb m Hmq) as (? & _). simpl in Hq. lia. }
  split_and!; [|done|].
  - rewrite Forall_forall in *. intros e He.
    specialize (Hm e He). simpl in Hm.
    apply list_elem_of_lookup in He as [k Hk]. specialize (Hnonneg k e Hk). lia.
  - intros node off cs v Hnode Hoff Hcs Hv.
    destruct (neighborOffsets_spec off Hoff) as (Hd & _).
    assert (1 <= score node <= 1 + max_step_cost * (cells - 1)) as Hn.
    { rewrite Forall_forall in Hqr. apply Hqr. by apply dequeued_elem. }
    apply score_values_int_range; try done.
    + eapply clearance_at_range; eauto.
    + eapply clearance_at_range; eauto.
    + lia.
Qed.

(** The two searches of [main] return, whatever the blocked cells, the
    metric, the wall factor of the rat and the jumping mode; when a path
    is found it begins at the agent's start point and ends at its end
    point. *)
Theorem main_searches
    (blockedCells sdfCells : list Z) (sdfFunction ratWallFactor jumpingEnabled : Z)
    (mapRat mapCat : list PathfindingNode) :
  Z.of_nat (length blockedCells) = cells ->
  0 <= sdfFunction <= 2 ->
  0 <= ratWallFactor <= 7 ->
  Z.of_nat (length mapRat) = cells ->
  Z.of_nat (length mapCat) = cells ->
  UpdateSDF blockedCells sdfFunction = Done sdfCells ->
  (exists fuel r,
     rat_search sdfCells ratWallFactor jumpingEnabled fuel mapRat = Done r) /\
  (exists fuel r, cat_search sdfCells jumpingEnabled fuel mapCat = Done r) /\
  (forall fuel r,
     rat_search sdfCells ratWallFactor jumpingEnabled fuel mapRat = Done r ->
     0 < pathLength r ->
     exists first final,
       head (path r) = Some first /\
       nx first = pathRatStartX /\ ny first = pathRatStartY /\
       last (path r) = Some final /\
       nx final = pathRatEndX /\ ny final = pathRatEndY) /\
  (forall fuel r,
     cat_search sdfCells jumpingEnabled fuel mapCat = Done r ->
     0 < pathLength r ->
     exists first final,
       head (path r) = Some first /\
       nx first = pathCatStartX /\ ny first = pathCatStartY /\
       last (path r) = Some final /\
       nx final = pathCatEndX /\ ny final = pathCatEndY).
Proof.
  intros Hb Hfn Hf HmR HmC Hsdf.
  destruct (rebuilt_clearance_nonneg _ _ _ Hb Hfn Hsdf) as [Hlen Hrange].
  pose proof (clearance_range_nonneg sdfCells Hrange) as Hc0.
  assert (in_grid 5 25 /\ in_grid 75 25) as [Hs He]
      by (unfold in_grid, gridWidth, gridHeight; lia).
  split_and!.
  - unfold rat_search.
    apply FindPath_terminates;
      first [exact Hlen | exact HmR | exact He | exact Hs | exact Hc0 | lia].
  - unfold cat_search.
    apply FindPath_terminates;
      first [exact Hlen | exact HmC | exact He | exact Hs | exact Hc0 | lia].
  - intros fuel r Hr Hpos.
    exact (path_ends sdfCells pathRatStartX pathRatStartY pathRatEndX pathRatEndY
             1 ratWallFactor jumpingEnabled mapRat fuel r Hlen HmR He Hs Hr Hpos).
  - intros fuel r Hr Hpos.
    exact (path_ends sdfCells pathCatStartX pathCatStartY pathCatEndX pathCatEndY
             2 0 jumpingEnabled mapCat fuel r Hlen HmC He Hs Hr Hpos).
Qed.

(** * Further properties of the search *)

(** ** The scores are those of cheapest routes *)

Lemma route_reachable sdfCells unitSize sdfFactor enableJumping startX startY x y s :
  route sdfCells unitSize sdfFactor enableJumping startX startY x y s ->
  reachable sdfCells unitSize enableJumping startX startY x y.
Proof.
  induction 1 as [|x y s off cs v _ IH Hoff Hcs Hpass]; [constructor|].
  eapply reach_step; eauto.
Qed.

Lemma reachable_route sdfCells unitSize sdfFactor enableJumping startX startY x y :
  reachable sdfCells unitSize enableJumping startX startY x y ->
  exists s, route sdfCells unitSize sdfFactor enableJumping startX startY x y s.
Proof.
  induction 1 as [|x y off cs v _ [s IH] Hoff Hcs Hpass].
  - exists 1. constructor.
  - eexists. eapply route_step; eauto.
Qed.

Section Routes.

Variable sdfCells : list Z.
Variables unitSize sdfFactor enableJumping startX startY : Z.
Hypothesis sdfCells_length : Z.of_nat (length sdfCells) = cells.
Hypothesis start_in_grid : in_grid startX startY.
Hypothesis sdfFactor_nonneg : 0 <= sdfFactor.
Hypothesis clearance_nonneg : Forall (fun v => 0 <= v) sdfCells.

Local Abbreviation shaped := (shape sdfCells unitSize enableJumping startX startY).
Local Abbreviation scored := (well_scored sdfCells sdfFactor startX startY).
Local Abbreviation turn := (loop_body sdfCells unitSize sdfFactor enableJumping).
Local Abbreviation run := (search sdfCells unitSize sdfFactor enableJumping).
Local Abbreviation routed :=
  (visits_routed sdfCells unitSize sdfFactor enableJumping startX startY).
Local Abbreviation route_to :=
  (route sdfCells unitSize sdfFactor enableJumping startX startY).

Lemma loop_body_routed st :
  shaped st -> scored st -> st_queue st <> [] -> routed st ->
  exists st', turn st = Done st' /\ shaped st' /\ scored st' /\ routed st'.
Proof.
  intros Hsh Hsc Hne [Hqs Hms].
  destruct (dequeued_lowest st Hne) as (n & Hn & _).
  assert (route_to (nx n) (ny n) (score n)) as Hrn.
  { rewrite Forall_forall in Hqs. apply Hqs. by apply dequeued_elem. }
  apply (loop_body_rule sdfCells unitSize sdfFactor enableJumping startX startY
           sdfCells_length start_in_grid sdfFactor_nonneg clearance_nonneg
           (fun _ s => routed s) st n Hsh Hsc Hn).
  intros cs Hcs Hnb. split.
  - split; simpl; [|done].
    rewrite Forall_forall in *. intros m Hm. apply Hqs.
    eapply list_elem_of_delete_inv; eauto.
  - intros done off rest s s' Hl Hs1 _ _ [Hq Hm] Hrel.
    assert (off ∈ neighborOffsets) as Hoff
        by (rewrite Hl; apply elem_of_app; right; left).
    destruct Hrel as [ | | v old s' Hpass Hold Hupd entry Hmap' Hqueue]; try done.
    assert (route_to (nx entry) (ny entry) (score entry)) as Hre
        by (simpl; eapply route_step; eauto).
    split.
    + destruct Hqueue as [(-> & _) | (-> & _)]; [|done].
      apply Forall_app. split; [done|]. constructor; [done | constructor].
    + intros k e. rewrite Hmap'.
      destruct (decide (k = Z.to_nat (cell_index (nx n + ox off) (ny n + oy off))))
        as [->|Hk].
      * destruct Hs1 as (Hml & _).
        destruct Hpass as (_ & _ & Hgt & _).
        pose proof (cell_index_range _ _ Hgt).
        rewrite list_lookup_insert_eq by lia. intros [= <-] _. done.
      * rewrite list_lookup_insert_ne by done. apply Hm.
Qed.

Lemma search_routed fuel : forall st st',
  shaped st -> scored st -> routed st -> run fuel st = Done st' -> routed st'.
Proof.
  induction fuel as [|fuel IH]; intros st st' Hsh Hsc Hso; simpl.
  - destruct (st_queue st) eqn:Hq; simpl; [|discriminate].
    intros [= <-]. done.
  - destruct (st_queue st) eqn:Hq; simpl.
    + intros [= <-]. done.
    + destruct (loop_body_routed st Hsh Hsc) as (st1 & Hst1 & Hsh1 & Hsc1 & Hso1);
        [by rewrite Hq | done |].
      rewrite Hst1. simpl. by apply IH.
Qed.

Lemma init_search_routed map st :
  Z.of_nat (length map) = cells ->
  init_search startX startY map = Done st -> routed st.
Proof.
  intros Hlen Hst.
  destruct (init_search_shape sdfCells unitSize enableJumping startX startY
              start_in_grid map Hlen) as (st0 & Hst0 & Hq & Hm & _ & _).
  assert (st0 = st) as -> by congruence.
  pose proof (cell_index_range _ _ start_in_grid) as Hi.
  split.
  - rewrite Hq. constructor; [constructor | constructor].
  - intros k e. rewrite Hm.
    destruct (decide (k = Z.to_nat (cell_index startX startY))) as [->|Hne].
    + rewrite list_lookup_insert_eq by (rewrite length_fmap; lia).
      intros [= <-] _. constructor.
    + rewrite list_lookup_insert_ne by done.
      rewrite list_lookup_fmap. destruct (map !! k); simpl; [|done].
      intros [= <-]. simpl. lia.
Qed.

(** When the queue has emptied without a dropped push, the score of a
    cell is at most the score of every route to it. *)
Lemma settled_lower_bound st x y s :
  scored st -> settled sdfCells unitSize sdfFactor enableJumping st ->
  st_queue st = [] ->
  route_to x y s ->
  exists e, map_at (st_map st) x y = Some e /\ 1 <= score e <= s.
Proof.
  intros Hsc Hset Hq Hr.
  induction Hr as [|x y s off cs v Hr IH Hoff Hcs Hpass].
  - destruct Hsc as (_ & _ & Hs & _). eexists. split; [done|]. simpl. lia.
  - destruct IH as (e & He & He1).
    pose proof (reachable_in_grid _ _ _ _ _ _ _ start_in_grid
                  (route_reachable _ _ _ _ _ _ _ _ _ Hr)) as Hg.
    pose proof (settled_at_end sdfCells unitSize sdfFactor enableJumping
                  st x y e Hset Hq Hg He (proj1 He1)) as Hrel.
    destruct (Hrel off cs v e Hoff Hcs Hpass He) as (e' & He' & He1' & Hle).
    exists e'. split; [done|]. split; [done|].
    rewrite step_score_shift in Hle. rewrite (step_score_shift _ s). lia.
Qed.

End Routes.





(** ** The shape of the path *)

Lemma chain_strict_lookup (l : list PathfindingNode) : forall i j a b,
  chain (fun a b => score b < score a) l ->
  (i < j)%nat -> l !! i = Some a -> l !! j = Some b -> score b < score a.
Proof.
  induction l as [|x l IH]; intros i j a b Hc Hij Ha Hb; [done|].
  destruct j as [|j]; [lia|].
  destruct i as [|i]; simpl in *.
  - injection Ha as <-.
    destruct l as [|y l]; [done|]. destruct Hc as [Hxy Hc].
    destruct j as [|j]; simpl in *.
    + by injection Hb as <-.
    + pose proof (IH 0%nat (S j) y b Hc ltac:(lia) eq_refl Hb). lia.
  - destruct l as [|y l]; [done|]. destruct Hc as [_ Hc].
    eapply (IH i j); eauto. lia.
Qed.





(** ** The order of the queue *)

Lemma scan_lowest_first rest : forall lowestScore lowest i,
  (scan_lowest lowestScore lowest i rest = lowest /\
   Forall (fun m => lowestScore <= score m) rest) \/
  (exists k n, scan_lowest lowestScore lowest i rest = (i + k)%nat /\
               rest !! k = Some n /\ score n < lowestScore /\
               Forall (fun m => score n <= score m) rest /\
               forall j m, (j < k)%nat -> rest !! j = Some m -> score n < score m).
Proof.
  induction rest as [|m rest IH]; intros lowestScore lowest i; simpl.
  { left. split; [done | constructor]. }
  destruct (Z.ltb_spec (score m) lowestScore) as [Hlt|Hge].
  - right.
    destruct (IH (score m) i (S i))
      as [[Heq Hall] | (k & n & Heq & Hk & Hn & Hall & Hfirst)].
    + exists 0%nat, m. rewrite Heq, Nat.add_0_r. split_and!; auto.
      * constructor; [lia | done].
      * intros j m' Hj. lia.
    + exists (S k), n. rewrite Heq. split_and!; auto; try lia.
      * constructor; [lia | done].
      * intros [|j] m' Hj Hm'; simpl in Hm'.
        -- injection Hm' as <-. done.
        -- apply (Hfirst j); [lia | done].
  - destruct (IH lowestScore lowest (S i))
      as [[Heq Hall] | (k & n & Heq & Hk & Hn & Hall & Hfirst)].
    + left. split; [done|]. constructor; [lia | done].
    + right. exists (S k), n. rewrite Heq. split_and!; auto; try lia.
      * constructor; [lia | done].
      * intros [|j] m' Hj Hm'; simpl in Hm'.
        -- injection Hm' as <-. lia.
        -- apply (Hfirst j); [lia | done].
Qed.

Lemma lowestScoreIndex_first q :
  q <> [] ->
  exists n, q !! lowestScoreIndex q = Some n /\
            Forall (fun m => score n <= score m) q /\
            forall j m, (j < lowestScoreIndex q)%nat -> q !! j = Some m ->
                        score n < score m.
Proof.
  unfold lowestScoreIndex. destruct q as [|m rest]; [done|]. intros _.
  destruct (scan_lowest_first rest (score m) 0%nat 1%nat)
    as [[Heq Hall] | (k & n & Heq & Hk & Hn & Hall & Hfirst)]; rewrite Heq.
  - exists m. split; [done|]. split; [constructor; [lia | done]|].
    intros j m' Hj. lia.
  - exists n. split; [done|]. split; [constructor; [lia | done]|].
    intros [|j] m' Hj Hm'; simpl in *.
    + injection Hm' as <-. done.
    + apply (Hfirst j); [lia | done].
Qed.

(** One turn of the main loop removes from the queue the entry of the
    lowest score, the earliest one among several of that score; the other
    entries keep their order, and the entries pushed during the turn, all
    of them reached from the cell of the removed entry, follow them. *)
Theorem loop_body_queue_order
    (sdfCells : list Z) (unitSize sdfFactor enableJumping startX startY : Z)
    (map : list PathfindingNode) (st0 st : SearchState) (turns_before : nat) :
  Z.of_nat (length sdfCells) = cells ->
  Z.of_nat (length map) = cells ->
  in_grid startX startY ->
  init_search startX startY map = Done st0 ->
  turns sdfCells unitSize sdfFactor enableJumping turns_before st0 = Done st ->
  st_queue st <> [] ->
  exists st' n pushed,
    loop_body sdfCells unitSize sdfFactor enableJumping st = Done st' /\
    st_queue st !! lowestScoreIndex (st_queue st) = Some n /\
    Forall (fun m => score n <= score m) (st_queue st) /\
    (forall j m, (j < lowestScoreIndex (st_queue st))%nat ->
                 st_queue st !! j = Some m -> score n < score m) /\
    st_queue st' = delete (lowestScoreIndex (st_queue st)) (st_queue st) ++ pushed /\
    Forall (fun m => fromX m = nx n /\ fromY m = ny n) pushed.
Proof.
  intros Hsdf Hmap Hstart Hinit Hturns Hne.
  assert (shape sdfCells unitSize enableJumping startX startY st) as Hsh.
  { destruct (init_search_shape sdfCells unitSize enableJumping startX startY
                Hstart map Hmap) as (st0' & Hinit' & _ & _ & _ & Hsh0).
    assert (st0' = st0) as -> by congruence.
    eapply turns_shape; eauto. }
  destruct (lowestScoreIndex_first (st_queue st) Hne) as (n & Hn & Hmin & Hfirst).
  pose proof Hsh as (Hlen & Hq & Hqg & Hst & Hentries).
  assert (in_grid (nx n) (ny n)) as Hg.
  { rewrite Forall_forall in Hqg. apply Hqg. eapply list_elem_of_lookup_2; eauto. }
  destruct (loop_body_dequeue sdfCells unitSize sdfFactor enableJumping
              Hsdf st n Hn Hg) as (cs & Hcs & Hbody).
  set (q0 := delete (lowestScoreIndex (st_queue st)) (st_queue st)) in *.
  destruct (for_each_invariant (A := NeighborOffset)
              (fun _ s =>
                 shape sdfCells unitSize enableJumping startX startY s /\
                 exists pushed,
                   st_queue s = q0 ++ pushed /\
                   Forall (fun m => fromX m = nx n /\ fromY m = ny n) pushed)
              (relax sdfCells unitSize sdfFactor enableJumping n cs
                     (max_distance unitSize cs))
              neighborOffsets
              (mkState q0 (st_map st) (st_overflowed st)))
    as (st' & Hst' & _ & pushed & Hq' & Hpushed).
  - split.
    + split_and!; simpl; try done.
      * assert (length q0 <= length (st_queue st))%nat; [|lia].
        unfold q0. rewrite length_delete by eauto. lia.
      * rewrite Forall_forall in *. intros m Hm. apply Hqg.
        eapply list_elem_of_delete_inv; eauto.
    + exists []. simpl. rewrite app_nil_r. split; [done | constructor].
  - intros done off rest s Hl (Hs & pushed & Hqs & Hp).
    assert (off ∈ neighborOffsets) as Hoff
        by (rewrite Hl; apply elem_of_app; right; left).
    destruct (relax_cases sdfCells unitSize sdfFactor enableJumping Hsdf
                n cs (max_distance unitSize cs) s off) as (s' & Hs' & Hrel);
      [apply Hs .. |].
    exists s'. split; [done|]. split.
    { eapply relaxed_to_shape; eauto. }
    destruct Hrel as [ | | v old s' Hpass Hold Hupd entry Hmap' Hqueue]; eauto.
    destruct Hqueue as [(-> & _) | (-> & _)]; [|eauto].
    exists (pushed ++ [entry]). rewrite Hqs, app_assoc. split; [done|].
    apply Forall_app. split; [done|]. constructor; [done | constructor].
  - exists st', n, pushed. rewrite Hbody. done.
Qed.

Lemma loop_body_queue_order_witness :
  exists st' n pushed,
    loop_body two_cell_field 1 0 1 two_cell_state_1 = Done st' /\
    st_queue two_cell_state_1 !! lowestScoreIndex (st_queue two_cell_state_1)
      = Some n /\
    Forall (fun m => score n <= score m) (st_queue two_cell_state_1) /\
    (forall j m, (j < lowestScoreIndex (st_queue two_cell_state_1))%nat ->
                 st_queue two_cell_state_1 !! j = Some m -> score n < score m) /\
    st_queue st' = delete (lowestScoreIndex (st_queue two_cell_state_1))
                          (st_queue two_cell_state_1) ++ pushed /\
    Forall (fun m => fromX m = nx n /\ fromY m = ny n) pushed.
Proof.
  apply (loop_body_queue_order two_cell_field 1 0 1 0 0 fresh_map
           two_cell_state_0 two_cell_state_1 1).
  - reflexivity.
  - reflexivity.
  - unfold in_grid, gridWidth, gridHeight. lia.
  - vm_compute. reflexivity.
  - vm_compute. reflexivity.
  - discriminate.
Defined.

(** ** The map left by an earlier search *)

Lemma same_entry_score e e' : same_entry e e' -> score e = score e'.
Proof. intros [-> | [-> ->]]; done. Qed.

Lemma rd_alike startX startY (m m' : list PathfindingNode) i :
  alike startX startY m m' -> outcome_rel same_entry (rd m i) (rd m' i).
Proof.
  intros (Hlen & _ & Hall). unfold rd. destruct (0 <=? i); [|done].
  destruct (m !! Z.to_nat i) as [e|] eqn:He, (m' !! Z.to_nat i) as [e'|] eqn:He';
    simpl; eauto.
  - apply lookup_lt_Some in He. apply lookup_ge_None in He'. lia.
  - apply lookup_lt_Some in He'. apply lookup_ge_None in He. lia.
Qed.

Lemma wr_alike startX startY (m m' : list PathfindingNode) i e :
  alike startX startY m m' ->
  outcome_rel (alike startX startY) (wr m i e) (wr m' i e).
Proof.
  intros (Hlen & Hstart & Hall). unfold wr. rewrite <- Hlen.
  destruct ((0 <=? i) && (i <? Z.of_nat (length m))) eqn:Hi; [|done].
  apply andb_prop in Hi as [Hi0 Hi1].
  apply Z.leb_le in Hi0. apply Z.ltb_lt in Hi1.
  simpl. split_and!.
  - by rewrite !length_insert.
  - destruct (decide (Z.to_nat i = Z.to_nat (startY * gridWidth + startX)))
      as [<- | Hne].
    + rewrite !list_lookup_insert_eq by lia. done.
    + rewrite !list_lookup_insert_ne by done. done.
  - intros k a a'. destruct (decide (k = Z.to_nat i)) as [-> | Hne].
    + rewrite !list_lookup_insert_eq by lia. intros [= <-] [= <-]. by left.
    + rewrite !list_lookup_insert_ne by done. apply Hall.
Qed.

Lemma for_each_rel {A S} (R : S -> S -> Prop) (body : S -> A -> outcome S) l :
  (forall s s' a, R s s' -> outcome_rel R (body s a) (body s' a)) ->
  forall s s', R s s' -> outcome_rel R (for_each body l s) (for_each body l s').
Proof.
  intros Hbody. induction l as [|a l IH]; intros s s' HR; simpl; [done|].
  specialize (Hbody s s' a HR).
  destruct (body s a), (body s' a); simpl in *; try done.
  by apply IH.
Qed.

Section Alike.

Variable sdfCells : list Z.
Variables toX toY startX startY unitSize sdfFactor enableJumping : Z.

Local Abbreviation related := (alike_states startX startY).

Lemma relax_alike node cs maxDistance s s' off :
  related s s' ->
  outcome_rel related
    (relax sdfCells unitSize sdfFactor enableJumping node cs maxDistance s off)
    (relax sdfCells unitSize sdfFactor enableJumping node cs maxDistance s' off).
Proof.
  intros (Hq & Hov & Hm). unfold relax.
  destruct ((distance off >? maxDistance)
            || ((enableJumping =? 0) && (distance off >? 1))); [done|].
  destruct ((nx node + ox off <? 0) || (nx node + ox off >=? gridWidth)
            || (ny node + oy off <? 0) || (ny node + oy off >=? gridHeight));
    [done|].
  destruct (rd sdfCells ((ny node + oy off) * gridWidth + (nx node + ox off)))
    as [v| |]; simpl; [|done..].
  destruct (v <? unitSize); [done|].
  pose proof (rd_alike startX startY _ _
                ((ny node + oy off) * gridWidth + (nx node + ox off)) Hm) as Hold.
  destruct (rd (st_map s) _) as [old| |], (rd (st_map s') _) as [old'| |];
    simpl in *; try done.
  rewrite <- (same_entry_score _ _ Hold).
  destruct ((score old =? 0) || _); [|done].
  match goal with
  | |- context [wr (st_map s) ?i ?e] =>
      pose proof (wr_alike startX startY _ _ i e Hm) as Hwr
  end.
  destruct (wr (st_map s) _ _) as [m1| |], (wr (st_map s') _ _) as [m1'| |];
    simpl in *; try done.
  rewrite <- Hq, <- Hov.
  destruct (Z.of_nat (length (st_queue s)) <? gridWidth * gridHeight); [|done].
  destruct (Z.of_nat (length (st_queue s ++ _)) >=? gridWidth * gridHeight);
    simpl; done.
Qed.

Lemma loop_body_alike s s' :
  related s s' ->
  outcome_rel related
    (loop_body sdfCells unitSize sdfFactor enableJumping s)
    (loop_body sdfCells unitSize sdfFactor enableJumping s').
Proof.
  intros (Hq & Hov & Hm). unfold loop_body. rewrite <- Hq, <- Hov.
  destruct (rd (st_queue s) _) as [node| |]; cbn [mbind outcome_bind]; [|done..].
  destruct (rd sdfCells _) as [cs| |]; cbn [mbind outcome_bind]; [|done..].
  apply for_each_rel.
  - intros. by apply relax_alike.
  - done.
Qed.

Lemma search_alike fuel : forall s s',
  related s s' ->
  outcome_rel related
    (search sdfCells unitSize sdfFactor enableJumping fuel s)
    (search sdfCells unitSize sdfFactor enableJumping fuel s').
Proof.
  induction fuel as [|fuel IH]; intros s s' HR; simpl;
    pose proof HR as (Hq & _); rewrite <- Hq;
    destruct (0 <? Z.of_nat (length (st_queue s))); try done.
  pose proof (loop_body_alike s s' HR) as Hturn.
  destruct (loop_body _ _ _ _ s), (loop_body _ _ _ _ s');
    cbn [mbind outcome_bind outcome_rel] in *; try done.
  by apply IH.
Qed.

Lemma init_search_alike (map map' : list PathfindingNode) :
  Z.of_nat (length map) = cells -> Z.of_nat (length map') = cells ->
  outcome_rel related (init_search startX startY map) (init_search startX startY map').
Proof.
  intros Hl Hl'. unfold init_search.
  rewrite Hl, Hl'. change (cells <? gridWidth * gridHeight) with false. cbv iota.
  rewrite !take_ge, !drop_ge, !app_nil_r by (unfold cells in *; lia).
  unfold wr. rewrite !length_fmap, Hl, Hl'.
  destruct ((0 <=? startY * gridWidth + startX)
            && (startY * gridWidth + startX <? cells)) eqn:Hi; [|done].
  apply andb_prop in Hi as [Hi0 Hi1].
  apply Z.leb_le in Hi0. apply Z.ltb_lt in Hi1.
  simpl. split_and!; try done; simpl. unfold alike. split_and!.
  - rewrite !length_insert, !length_fmap. lia.
  - rewrite !list_lookup_insert_eq by (rewrite length_fmap; lia). done.
  - intros k a a'.
    destruct (decide (k = Z.to_nat (startY * gridWidth + startX))) as [-> | Hne].
    + rewrite !list_lookup_insert_eq by (rewrite length_fmap; lia).
      intros [= <-] [= <-]. by left.
    + rewrite !list_lookup_insert_ne by done. rewrite !list_lookup_fmap.
      destruct (map !! k), (map' !! k); simpl; try done.
      intros [= <-] [= <-]. by right.
Qed.

Lemma follow_alike (m m' : list PathfindingNode) remaining : forall x y,
  alike startX startY m m' ->
  follow startX startY remaining m x y = follow startX startY remaining m' x y.
Proof.
  induction remaining as [|remaining IH]; intros x y Hm; simpl.
  - pose proof (rd_alike startX startY _ _ (y * gridWidth + x) Hm) as Hcur.
    destruct (rd m _) as [cur| |], (rd m' _) as [cur'| |]; simpl in *; try done.
    rewrite <- (same_entry_score _ _ Hcur).
    destruct ((score cur >? 0) && _); done.
  - pose proof (rd_alike startX startY _ _ (y * gridWidth + x) Hm) as Hcur.
    destruct (rd m _) as [cur| |], (rd m' _) as [cur'| |]; simpl in *; try done.
    rewrite <- (same_entry_score _ _ Hcur).
    destruct (score cur >? 0) eqn:Hs; simpl; [|done].
    destruct Hcur as [<- | [Hz _]]; [|apply Z.gtb_lt in Hs; lia].
    destruct (negb _); [|done].
    by rewrite (IH _ _ Hm).
Qed.

Lemma reconstruct_alike s s' :
  related s s' ->
  outcome_rel
    (fun r r' => path r = path r' /\ pathLength r = pathLength r' /\
                 res_overflowed r = res_overflowed r' /\
                 alike startX startY (res_map r) (res_map r'))
    (reconstruct toX toY startX startY s) (reconstruct toX toY startX startY s').
Proof.
  intros (Hq & Hov & Hm). unfold reconstruct.
  pose proof (rd_alike startX startY _ _ (toY * gridWidth + toX) Hm) as Hgoal.
  destruct (rd (st_map s) _) as [goal| |], (rd (st_map s') _) as [goal'| |];
    cbn [mbind outcome_bind outcome_rel] in *; try done.
  rewrite <- (same_entry_score _ _ Hgoal).
  destruct (score goal >? 0); cbn [outcome_rel]; [|done].
  rewrite <- (follow_alike _ _ _ _ _ Hm).
  destruct (follow _ _ _ _ _ _) as [walked| |];
    cbn [mbind outcome_bind outcome_rel]; [|done..].
  pose proof Hm as (_ & Hstart & _).
  unfold rd. rewrite <- Hstart.
  destruct (0 <=? startY * gridWidth + startX);
    cbn [mbind outcome_bind outcome_rel]; [|done].
  destruct (st_map s !! _); cbn [mbind outcome_bind outcome_rel]; done.
Qed.

End Alike.

(** [FindPath] clears the scores of the map it is given and reads no other
    field of an entry it has not written itself: run on two maps of the
    grid's size, for example a fresh one and one left by an earlier
    search, it ends the same way, with the same path and the same scores. *)
Theorem FindPath_ignores_old_map
    (sdfCells : list Z) (toX toY startX startY unitSize sdfFactor enableJumping : Z)
    (map map' : list PathfindingNode) (fuel : nat) (r : PathResult) :
  Z.of_nat (length map) = cells ->
  Z.of_nat (length map') = cells ->
  FindPath sdfCells toX toY startX startY unitSize sdfFactor enableJumping fuel map
    = Done r ->
  exists r',
    FindPath sdfCells toX toY startX startY unitSize sdfFactor enableJumping fuel map'
      = Done r' /\
    path r' = path r /\ pathLength r' = pathLength r /\
    res_overflowed r' = res_overflowed r /\
    forall x y, score <$> map_at (res_map r') x y = score <$> map_at (res_map r) x y.
Proof.
  intros Hl Hl' Hr. unfold FindPath in *.
  pose proof (init_search_alike startX startY map map' Hl Hl') as Hinit.
  destruct (init_search startX startY map) as [st0| |]; [|done..].
  destruct (init_search startX startY map') as [st0'| |]; [|done..].
  simpl in *.
  pose proof (search_alike sdfCells startX startY unitSize sdfFactor enableJumping
                fuel st0 st0' Hinit) as Hrun.
  destruct (search _ _ _ _ fuel st0) as [st| |]; [|done..].
  destruct (search _ _ _ _ fuel st0') as [st'| |]; [|done..].
  simpl in *.
  pose proof (reconstruct_alike toX toY startX startY st st' Hrun) as Hrec.
  rewrite Hr in Hrec.
  destruct (reconstruct toX toY startX startY st') as [r'| |]; [|done..].
  destruct Hrec as (Hp & Hpl & Hov & Hlen & _ & Hall).
  exists r'. split_and!; try done.
  intros x y. unfold map_at.
  destruct (res_map r !! _) as [e|] eqn:He, (res_map r' !! _) as [e'|] eqn:He';
    simpl.
  - f_equal. symmetry. eapply same_entry_score, Hall; eauto.
  - apply lookup_lt_Some in He. apply lookup_ge_None in He'. lia.
  - apply lookup_lt_Some in He'. apply lookup_ge_None in He. lia.
  - done.
Qed.

Lemma FindPath_ignores_old_map_witness :
  exists r',
    FindPath two_cell_field 1 0 0 0 1 0 1 5 (res_map two_cell_result_unit_2)
      = Done r' /\
    path r' = path two_cell_result /\
    pathLength r' = pathLength two_cell_result /\
    res_overflowed r' = res_overflowed two_cell_result /\
    forall x y, score <$> map_at (res_map r') x y
                = score <$> map_at (res_map two_cell_result) x y.
Proof.
  apply (FindPath_ignores_old_map two_cell_field 1 0 0 0 1 0 1 fresh_map
           (res_map two_cell_result_unit_2) 5 two_cell_result).
  - reflexivity.
  - vm_compute. reflexivity.
  - vm_compute. reflexivity.
Defined.

(** * Further properties of the clearance field *)

(** ** The three metrics *)

Lemma ceil_sqrt_spec n :
  0 <= n ->
  n <= ceil_sqrt n * ceil_sqrt n /\
  (0 < n -> (ceil_sqrt n - 1) * (ceil_sqrt n - 1) < n).
Proof.
  intros Hn. unfold ceil_sqrt.
  pose proof (Z.sqrt_spec n Hn) as [Hlo Hhi]. pose proof (Z.sqrt_nonneg n).
  unfold Z.succ in Hhi.
  destruct (Z.eqb_spec (Z.sqrt n * Z.sqrt n) n) as [Heq | Hne]; split; try nia.
Qed.

Lemma ceil_sqrt_le n k : 0 <= n -> 0 <= k -> n <= k * k -> ceil_sqrt n <= k.
Proof.
  intros Hn Hk Hle. pose proof (ceil_sqrt_spec n Hn) as [_ Hlt].
  pose proof (ceil_sqrt_nonneg n).
  destruct (decide (n = 0)) as [-> | Hn0]; [change (ceil_sqrt 0) with 0; lia|].
  specialize (Hlt ltac:(lia)). nia.
Qed.

Lemma le_ceil_sqrt n k : 0 <= n -> k * k <= n -> k <= ceil_sqrt n.
Proof.
  intros Hn Hle. pose proof (ceil_sqrt_spec n Hn) as [Hge _].
  pose proof (ceil_sqrt_nonneg n). nia.
Qed.

Lemma distance_metric_zero sdfFunction dx dy :
  distance_metric sdfFunction dx dy = 0 -> dx = 0 /\ dy = 0.
Proof.
  unfold distance_metric. destruct (sdfFunction =? 0).
  - intros H. pose proof (ceil_sqrt_spec (dx * dx + dy * dy) ltac:(nia)) as [Hge _].
    rewrite H in Hge. nia.
  - destruct (sdfFunction =? 1); lia.
Qed.

Lemma distance_metric_triangle sdfFunction dx dy dx' dy' :
  distance_metric sdfFunction (dx + dx') (dy + dy')
  <= distance_metric sdfFunction dx dy + distance_metric sdfFunction dx' dy'.
Proof.
  unfold distance_metric. destruct (sdfFunction =? 0).
  - set (p := ceil_sqrt (dx * dx + dy * dy)).
    set (q := ceil_sqrt (dx' * dx' + dy' * dy')).
    pose proof (ceil_sqrt_spec (dx * dx + dy * dy) ltac:(nia)) as [Hp _].
    pose proof (ceil_sqrt_spec (dx' * dx' + dy' * dy') ltac:(nia)) as [Hq _].
    pose proof (ceil_sqrt_nonneg (dx * dx + dy * dy)) as Hp0.
    pose proof (ceil_sqrt_nonneg (dx' * dx' + dy' * dy')) as Hq0.
    fold p in Hp, Hp0. fold q in Hq, Hq0.
    apply ceil_sqrt_le;
      [pose proof (Z.square_nonneg (dx + dx'));
       pose proof (Z.square_nonneg (dy + dy')); lia | lia |].
    assert (dx * dx' + dy * dy' <= p * q) as Hcs.
    { destruct (Z.le_gt_cases (dx * dx' + dy * dy') 0) as [Hneg | Hpos]; [nia|].
      assert ((dx * dx' + dy * dy') * (dx * dx' + dy * dy')
              <= (dx * dx + dy * dy) * (dx' * dx' + dy' * dy')) as Hcauchy.
      { pose proof (Z.square_nonneg (dx * dy' - dy * dx')) as Hsq.
        replace ((dx * dx + dy * dy) * (dx' * dx' + dy' * dy'))
          with ((dx * dx' + dy * dy') * (dx * dx' + dy * dy')
                + (dx * dy' - dy * dx') * (dx * dy' - dy * dx')) by ring.
        lia. }
      assert ((dx * dx + dy * dy) * (dx' * dx' + dy' * dy') <= (p * p) * (q * q))
        by (apply Z.mul_le_mono_nonneg; nia).
      nia. }
    nia.
  - destruct (sdfFunction =? 1); lia.
Qed.

Lemma distance_metric_sym sdfFunction dx dy :
  distance_metric sdfFunction (- dx) (- dy) = distance_metric sdfFunction dx dy.
Proof.
  unfold distance_metric.
  replace (- dx * - dx + - dy * - dy) with (dx * dx + dy * dy) by lia.
  rewrite !Z.abs_opp. done.
Qed.

Lemma distance_metric_order dx dy :
  distance_metric 1 dx dy <= distance_metric 0 dx dy <= distance_metric 2 dx dy.
Proof.
  unfold distance_metric. simpl. split.
  - apply le_ceil_sqrt; [nia|]. nia.
  - apply ceil_sqrt_le; [nia | lia | nia].
Qed.

(** ** The rebuilt field *)

(** After the rebuild a cell has clearance [0] exactly when it is blocked:
    every free cell has a clearance of at least [1]. *)
Theorem rebuilt_clearance_zero_iff_blocked
    (blockedCells : list Z) (sdfFunction : Z) :
  Z.of_nat (length blockedCells) = cells ->
  0 <= sdfFunction <= 2 ->
  exists sdfCells,
    UpdateSDF blockedCells sdfFunction = Done sdfCells /\
    forall x y, in_grid x y ->
      (clearance_at sdfCells x y = Some 0 <-> is_blocked blockedCells x y = true).
Proof.
  intros Hlen Hfn.
  destruct (UpdateSDF_spec blockedCells sdfFunction Hlen Hfn) as (sdf & Hrun & _ & Hval).
  exists sdf. split; [done|]. intros x y Hg. rewrite (Hval x y Hg).
  destruct (spec_clearance_minimum blockedCells sdfFunction x y) as (Hr & Hall & Hatt).
  split.
  - intros Hz. apply (inj Some) in Hz. destruct Hatt as [H10 | (bx & by' & _ & Hb & Hd)]; [lia|].
    rewrite Hz in Hd. symmetry in Hd.
    apply distance_metric_zero in Hd as [Hx Hy].
    replace x with bx by lia. replace y with by' by lia. done.
  - intros Hb. f_equal. specialize (Hall x y Hg Hb).
    rewrite !Z.sub_diag, distance_metric_origin in Hall. lia.
Qed.

Lemma rebuilt_clearance_zero_iff_blocked_witness :
  exists sdfCells,
    UpdateSDF enclosure_blocked 0 = Done sdfCells /\
    forall x y, in_grid x y ->
      (clearance_at sdfCells x y = Some 0 <-> is_blocked enclosure_blocked x y = true).
Proof.
  apply (rebuilt_clearance_zero_iff_blocked enclosure_blocked 0).
  - reflexivity.
  - lia.
Defined.

(** The rebuilt field changes slowly: the clearances of two cells differ
    by at most their distance in the metric of the field, so those of two
    neighbouring cells differ by at most [1]. *)
Theorem rebuilt_clearance_changes_slowly
    (blockedCells : list Z) (sdfFunction : Z) :
  Z.of_nat (length blockedCells) = cells ->
  0 <= sdfFunction <= 2 ->
  exists sdfCells,
    UpdateSDF blockedCells sdfFunction = Done sdfCells /\
    forall x y x' y' c c',
      in_grid x y -> in_grid x' y' ->
      clearance_at sdfCells x y = Some c ->
      clearance_at sdfCells x' y' = Some c' ->
      c' <= c + distance_metric sdfFunction (x' - x) (y' - y) /\
      (Z.abs (x' - x) + Z.abs (y' - y) = 1 -> Z.abs (c' - c) <= 1).
Proof.
  intros Hlen Hfn.
  destruct (UpdateSDF_spec blockedCells sdfFunction Hlen Hfn) as (sdf & Hrun & _ & Hval).
  exists sdf. split; [done|].
  assert (forall x y x' y',
            spec_clearance blockedCells sdfFunction x' y'
            <= spec_clearance blockedCells sdfFunction x y
               + distance_metric sdfFunction (x' - x) (y' - y)) as Hslow.
  { intros x y x' y'.
    destruct (spec_clearance_minimum blockedCells sdfFunction x y) as (Hr & _ & Hatt).
    destruct (spec_clearance_minimum blockedCells sdfFunction x' y')
      as (Hr' & Hall' & _).
    pose proof (distance_metric_nonneg sdfFunction (x' - x) (y' - y)).
    destruct Hatt as [H10 | (bx & by' & Hg & Hb & Hd)]; [lia|].
    specialize (Hall' bx by' Hg Hb).
    pose proof (distance_metric_triangle sdfFunction (bx - x) (by' - y)
                  (x - x') (y - y')) as Htri.
    replace (bx - x + (x - x')) with (bx - x') in Htri by lia.
    replace (by' - y + (y - y')) with (by' - y') in Htri by lia.
    rewrite <- (distance_metric_sym sdfFunction (x - x') (y - y')) in Htri.
    replace (- (x - x')) with (x' - x) in Htri by lia.
    replace (- (y - y')) with (y' - y) in Htri by lia.
    lia. }
  intros x y x' y' c c' Hg Hg' Hc Hc'.
  rewrite (Hval x y Hg) in Hc. rewrite (Hval x' y' Hg') in Hc'.
  apply (inj Some) in Hc, Hc'. subst c c'.
  split; [apply Hslow|].
  intros Hstep.
  pose proof (Hslow x y x' y') as H1. pose proof (Hslow x' y' x y) as H2.
  assert (forall dx dy, Z.abs dx + Z.abs dy = 1 ->
                        distance_metric sdfFunction dx dy = 1) as Hunit.
  { intros dx dy Hd. unfold distance_metric.
    destruct (sdfFunction =? 0).
    - assert (dx * dx + dy * dy = 1) as -> by nia. reflexivity.
    - destruct (sdfFunction =? 1); lia. }
  rewrite Hunit in H1 by done. rewrite Hunit in H2 by lia. lia.
Qed.

Lemma rebuilt_clearance_changes_slowly_witness :
  exists sdfCells,
    UpdateSDF enclosure_blocked 0 = Done sdfCells /\
    forall x y x' y' c c',
      in_grid x y -> in_grid x' y' ->
      clearance_at sdfCells x y = Some c ->
      clearance_at sdfCells x' y' = Some c' ->
      c' <= c + distance_metric 0 (x' - x) (y' - y) /\
      (Z.abs (x' - x) + Z.abs (y' - y) = 1 -> Z.abs (c' - c) <= 1).
Proof.
  apply (rebuilt_clearance_changes_slowly enclosure_blocked 0).
  - reflexivity.
  - lia.
Defined.

(** Blocking more cells never raises a clearance. *)
Theorem rebuilt_clearance_antitone
    (blockedCells blockedCells' : list Z) (sdfFunction : Z) :
  Z.of_nat (length blockedCells) = cells ->
  Z.of_nat (length blockedCells') = cells ->
  0 <= sdfFunction <= 2 ->
  (forall x y, in_grid x y -> is_blocked blockedCells x y = true ->
               is_blocked blockedCells' x y = true) ->
  exists sdfCells sdfCells',
    UpdateSDF blockedCells sdfFunction = Done sdfCells /\
    UpdateSDF blockedCells' sdfFunction = Done sdfCells' /\
    forall x y c c',
      in_grid x y ->
      clearance_at sdfCells x y = Some c ->
      clearance_at sdfCells' x y = Some c' ->
      c' <= c.
Proof.
  intros Hlen Hlen' Hfn Hsub.
  destruct (UpdateSDF_spec blockedCells sdfFunction Hlen Hfn) as (sdf & Hrun & _ & Hval).
  destruct (UpdateSDF_spec blockedCells' sdfFunction Hlen' Hfn)
    as (sdf' & Hrun' & _ & Hval').
  exists sdf, sdf'. split; [done|]. split; [done|].
  intros x y c c' Hg Hc Hc'.
  rewrite (Hval x y Hg) in Hc. rewrite (Hval' x y Hg) in Hc'.
  apply (inj Some) in Hc, Hc'. subst c c'.
  destruct (spec_clearance_minimum blockedCells sdfFunction x y) as (Hr & _ & Hatt).
  destruct (spec_clearance_minimum blockedCells' sdfFunction x y) as (Hr' & Hall' & _).
  destruct Hatt as [H10 | (bx & by' & Hgb & Hb & Hd)]; [lia|].
  specialize (Hall' bx by' Hgb (Hsub bx by' Hgb Hb)). lia.
Qed.

Lemma is_blocked_replicate x y :
  is_blocked (replicate (Z.to_nat cells) 0) x y = false.
Proof.
  unfold is_blocked.
  destruct (replicate _ _ !! _) as [b|] eqn:Hb; [|done].
  apply lookup_replicate in Hb as [-> _]. done.
Qed.

Lemma rebuilt_clearance_antitone_witness :
  exists sdfCells sdfCells',
    UpdateSDF (replicate (Z.to_nat cells) 0) 1 = Done sdfCells /\
    UpdateSDF enclosure_blocked 1 = Done sdfCells' /\
    forall x y c c',
      in_grid x y ->
      clearance_at sdfCells x y = Some c ->
      clearance_at sdfCells' x y = Some c' ->
      c' <= c.
Proof.
  apply (rebuilt_clearance_antitone (replicate (Z.to_nat cells) 0) enclosure_blocked 1).
  - reflexivity.
  - reflexivity.
  - lia.
  - intros x y _ Hb. rewrite is_blocked_replicate in Hb. discriminate.
Defined.

(** For the same blocked cells, the chebyshev metric gives the lowest
    clearance of the three and the manhattan metric the highest. *)
Theorem rebuilt_clearance_by_metric (blockedCells : list Z) :
  Z.of_nat (length blockedCells) = cells ->
  exists euclidean chebyshev manhattan,
    UpdateSDF blockedCells 0 = Done euclidean /\
    UpdateSDF blockedCells 1 = Done chebyshev /\
    UpdateSDF blockedCells 2 = Done manhattan /\
    forall x y c0 c1 c2,
      in_grid x y ->
      clearance_at euclidean x y = Some c0 ->
      clearance_at chebyshev x y = Some c1 ->
      clearance_at manhattan x y = Some c2 ->
      c1 <= c0 <= c2.
Proof.
  intros Hlen.
  destruct (UpdateSDF_spec blockedCells 0 Hlen ltac:(lia)) as (s0 & Hrun0 & _ & Hval0).
  destruct (UpdateSDF_spec blockedCells 1 Hlen ltac:(lia)) as (s1 & Hrun1 & _ & Hval1).
  destruct (UpdateSDF_spec blockedCells 2 Hlen ltac:(lia)) as (s2 & Hrun2 & _ & Hval2).
  exists s0, s1, s2. split_and!; try done.
  intros x y c0 c1 c2 Hg Hc0 Hc1 Hc2.
  rewrite (Hval0 x y Hg) in Hc0. rewrite (Hval1 x y Hg) in Hc1.
  rewrite (Hval2 x y Hg) in Hc2.
  apply (inj Some) in Hc0, Hc1, Hc2. subst c0 c1 c2.
  destruct (spec_clearance_minimum blockedCells 0 x y) as (Hr0 & Hall0 & Hatt0).
  destruct (spec_clearance_minimum blockedCells 1 x y) as (Hr1 & Hall1 & Hatt1).
  destruct (spec_clearance_minimum blockedCells 2 x y) as (Hr2 & Hall2 & Hatt2).
  split.
  - destruct Hatt0 as [H10 | (bx & by' & Hgb & Hb & Hd)]; [lia|].
    specialize (Hall1 bx by' Hgb Hb).
    pose proof (distance_metric_order (bx - x) (by' - y)). lia.
  - destruct Hatt2 as [H10 | (bx & by' & Hgb & Hb & Hd)]; [lia|].
    specialize (Hall0 bx by' Hgb Hb).
    pose proof (distance_metric_order (bx - x) (by' - y)). lia.
Qed.

Lemma rebuilt_clearance_by_metric_witness :
  exists euclidean chebyshev manhattan,
    UpdateSDF enclosure_blocked 0 = Done euclidean /\
    UpdateSDF enclosure_blocked 1 = Done chebyshev /\
    UpdateSDF enclosure_blocked 2 = Done manhattan /\
    forall x y c0 c1 c2,
      in_grid x y ->
      clearance_at euclidean x y = Some c0 ->
      clearance_at chebyshev x y = Some c1 ->
      clearance_at manhattan x y = Some c2 ->
      c1 <= c0 <= c2.
Proof.
  apply (rebuilt_clearance_by_metric enclosure_blocked). reflexivity.
Defined.

(** ** The rebuilt field and the search *)

(** On a rebuilt field and for a unit size of at least [1], no cell of the
    path other than the start cell, its last entry, is blocked, whatever
    the wall factor. *)
Theorem path_avoids_blocked_cells
    (blockedCells sdfCells : list Z) (sdfFunction : Z)
    (toX toY startX startY unitSize sdfFactor enableJumping : Z)
    (map : list PathfindingNode) (fuel : nat) (r : PathResult) :
  Z.of_nat (length blockedCells) = cells ->
  0 <= sdfFunction <= 2 ->
  UpdateSDF blockedCells sdfFunction = Done sdfCells ->
  Z.of_nat (length map) = cells ->
  in_grid startX startY ->
  in_grid toX toY ->
  1 <= unitSize ->
  FindPath sdfCells toX toY startX startY unitSize sdfFactor enableJumping fuel map
    = Done r ->
  forall i e,
    path r !! i = Some e -> (S i < length (path r))%nat ->
    in_grid (nx e) (ny e) /\ is_blocked blockedCells (nx e) (ny e) = false.
Proof.
  intros Hlen Hfn Hsdf Hmap Hstart Hgoal Hunit Hr i e He Hi.
  destruct (UpdateSDF_spec blockedCells sdfFunction Hlen Hfn)
    as (sdf & Hrun & Hsl & Hval).
  assert (sdf = sdfCells) as -> by congruence.
  edestruct FindPath_result with (startX := startX) (toX := toX)
    as (goal & start & _ & _ & _ & _ & _ & Hcases); eauto.
  destruct Hcases as [[_ Hp] | (_ & walked & Hp & _ & Hall & _)].
  { rewrite Hp in He. done. }
  rewrite Hp, length_app in Hi. simpl in Hi.
  rewrite Hp, lookup_app_l in He by lia.
  rewrite Forall_forall in Hall.
  destruct (Hall e) as (_ & _ & _ & Hg & _ & off & v & cs & _ & _ & Hx & Hy & Hpass).
  { eapply list_elem_of_lookup_2; eauto. }
  split; [done|].
  destruct Hpass as (_ & _ & _ & Hv & Hle).
  rewrite <- Hx, <- Hy, (Hval _ _ Hg) in Hv. apply (inj Some) in Hv.
  destruct (is_blocked blockedCells (nx e) (ny e)) eqn:Hb; [|done].
  destruct (spec_clearance_minimum blockedCells sdfFunction (nx e) (ny e))
    as (_ & Hmin & _).
  specialize (Hmin _ _ Hg Hb).
  rewrite !Z.sub_diag, distance_metric_origin in Hmin. lia.
Qed.

Lemma path_avoids_blocked_cells_witness :
  in_grid 1 1 /\ is_blocked enclosure_blocked 1 1 = false.
Proof.
  apply (path_avoids_blocked_cells enclosure_blocked enclosure_field 0
           1 1 0 0 1 2 1 fresh_map 10 enclosure_result)
    with (i := 0%nat) (e := mkNode 1 1 0 1 4).
  - reflexivity.
  - lia.
  - vm_compute. reflexivity.
  - reflexivity.
  - unfold in_grid, gridWidth, gridHeight. lia.
  - unfold in_grid, gridWidth, gridHeight. lia.
  - lia.
  - vm_compute. reflexivity.
  - reflexivity.
  - simpl. lia.
Defined.

(** * Further properties of the table of offsets *)

Lemma isqrt_at n : 0 <= n < 256 -> isqrt !! Z.to_nat n = Some (ceil_sqrt n).
Proof.
  intros Hn. unfold isqrt.
  rewrite list_lookup_fmap, lookup_seqZ_lt by lia. simpl. do 2 f_equal. lia.
Qed.

Lemma in_neighborOffsets off :
  1 <= distance off <= 10 ->
  (distance off - 1) * (distance off - 1)
  < ox off * ox off + oy off * oy off
  <= distance off * distance off ->
  off ∈ neighborOffsets.
Proof.
  set (n := ox off * ox off + oy off * oy off).
  assert (0 <= n) as Hn0 by (unfold n; nia).
  intros Hd (Hlo & Hhi).
  assert (ceil_sqrt n = distance off) as Hdist.
  { apply Z.le_antisymm; [apply ceil_sqrt_le; lia|].
    destruct (ceil_sqrt_spec n Hn0) as [Hge _].
    pose proof (ceil_sqrt_nonneg n). nia. }
  assert (-10 <= ox off <= 10 /\ -10 <= oy off <= 10) as [Hx Hy]
      by (unfold n in *; nia).
  apply list_elem_of_In. unfold neighborOffsets.
  apply in_flat_map. exists (ox off). split.
  { apply list_elem_of_In, elem_of_seqZ. lia. }
  apply in_flat_map. exists (oy off). split.
  { apply list_elem_of_In, elem_of_seqZ. lia. }
  fold n. rewrite isqrt_at by (unfold n in *; nia). rewrite Hdist.
  destruct (Z.leb_spec (distance off) 10); [|lia].
  destruct (Z.gtb_spec (distance off) 0); [|lia].
  simpl. left. by destruct off.
Qed.

Lemma neighborOffsets_NoDup : NoDup neighborOffsets.
Proof. apply (bool_decide_unpack _). vm_compute. reflexivity. Qed.

(** The loop that fills the table stores exactly the offsets, other than
    the null offset, whose euclidean length is at most [10], each one
    with its length rounded up to the next integer; it stores [316] of
    them, each one once, in an array of [20 * 20]. *)
Theorem neighborOffsets_exact (off : NeighborOffset) :
  (off ∈ neighborOffsets <->
   1 <= distance off <= 10 /\
   (distance off - 1) * (distance off - 1)
   < ox off * ox off + oy off * oy off
   <= distance off * distance off) /\
  NoDup neighborOffsets /\
  neighborOffsetCount = 316.
Proof.
  split; [|split; [exact neighborOffsets_NoDup | vm_compute; reflexivity]].
  split.
  - intros Hin. destruct (neighborOffsets_spec off Hin) as (Hd & Hdist & Hnz & _).
    set (n := ox off * ox off + oy off * oy off) in *.
    assert (0 <= n) as Hn0 by (unfold n; nia).
    split; [done|].
    destruct (ceil_sqrt_spec n Hn0) as [Hge Hlt]. rewrite Hdist.
    split; [apply Hlt; unfold n; nia | done].
  - intros (Hd & Hlo). by apply in_neighborOffsets.
Qed.

(** * The frames of [main] *)

(** ** The random map *)

Lemma for_each_preserves {A S} (P : S -> Prop) (body : S -> A -> outcome S) l s :
  P s ->
  (forall s a, a ∈ l -> P s -> exists s', body s a = Done s' /\ P s') ->
  exists s', for_each body l s = Done s' /\ P s'.
Proof.
  intros HP Hstep. apply (for_each_invariant (fun _ s => P s)); [done|].
  intros done a rest s0 Hl HP0. apply Hstep; [|done].
  rewrite Hl. apply elem_of_app. right. left.
Qed.

Lemma is_blocked_insert blockedCells k v x y :
  in_grid x y ->
  is_blocked (<[k := v]> blockedCells) x y = true ->
  (k = Z.to_nat (cell_index x y) /\ v = 1) \/ is_blocked blockedCells x y = true.
Proof.
  intros Hg. unfold is_blocked.
  destruct (decide (k = Z.to_nat (cell_index x y))) as [-> | Hne].
  - destruct (decide (Z.to_nat (cell_index x y) < length blockedCells)%nat).
    + rewrite list_lookup_insert_eq by done. intros H%Z.eqb_eq. by left.
    + rewrite list_insert_ge by lia. by right.
  - rewrite list_lookup_insert_ne by done. by right.
Qed.

Lemma clear_blocks_spec blockedCells :
  Z.of_nat (length blockedCells) = cells ->
  exists cleared,
    clear_blocks blockedCells = Done cleared /\
    Z.of_nat (length cleared) = cells /\
    forall x y, in_grid x y -> is_blocked cleared x y = false.
Proof.
  intros Hlen. unfold clear_blocks.
  destruct (for_each_invariant (A := Z)
              (fun done s => Z.of_nat (length s) = cells /\
                             forall i, i ∈ done -> s !! Z.to_nat i = Some 0)
              (fun s i => wr s i 0) (seqZ 0 (gridWidth * gridHeight)) blockedCells)
    as (cleared & Hrun & Hl & Hall).
  - split; [done|]. intros i Hi. by apply elem_of_nil in Hi.
  - intros done i rest s Hseq (Hl & Hdone).
    assert (i ∈ seqZ 0 (gridWidth * gridHeight)) as Hi
        by (rewrite Hseq; apply elem_of_app; right; left).
    apply elem_of_seqZ in Hi. fold cells in Hi.
    exists (<[Z.to_nat i := 0]> s). split; [apply wr_in_range; lia|].
    split; [by rewrite length_insert|].
    intros k Hk. destruct (decide (k = i)) as [-> | Hne].
    + rewrite list_lookup_insert_eq by lia. done.
    + apply elem_of_app in Hk as [Hk | Hk%list_elem_of_singleton]; [|done].
      assert (k ∈ seqZ 0 (gridWidth * gridHeight)) as Hk'
          by (rewrite Hseq; apply elem_of_app; by left).
      apply elem_of_seqZ in Hk'.
      rewrite list_lookup_insert_ne by lia.
      by apply Hdone.
  - exists cleared. split; [done|]. split; [done|].
    intros x y Hg. unfold is_blocked.
    pose proof (cell_index_range _ _ Hg) as Hi.
    rewrite (Hall (cell_index x y)); [done|].
    apply elem_of_seqZ. fold cells. lia.
Qed.

Lemma stamp_spec x y s v blockedCells :
  15 <= x <= gridWidth - 15 -> 15 <= y <= gridHeight - 15 -> 1 <= s <= 2 ->
  Z.of_nat (length blockedCells) = cells ->
  blocks_in_box blockedCells ->
  exists stamped,
    stamp x y s v blockedCells = Done stamped /\
    Z.of_nat (length stamped) = cells /\
    blocks_in_box stamped.
Proof.
  intros Hx Hy Hs Hlen Hbox. unfold stamp.
  apply (for_each_preserves
           (fun b => Z.of_nat (length b) = cells /\ blocks_in_box b)); [done|].
  intros b j Hj%elem_of_seqZ Hb.
  apply (for_each_preserves
           (fun b => Z.of_nat (length b) = cells /\ blocks_in_box b)); [done|].
  intros b' k Hk%elem_of_seqZ [Hl Hbb].
  assert (in_grid (x + k) (y + j)) as Hg
      by (unfold in_grid, gridWidth, gridHeight in *; lia).
  pose proof (cell_index_range _ _ Hg) as Hi.
  replace ((y + j) * gridWidth + x + k) with (cell_index (x + k) (y + j))
    by (unfold cell_index; lia).
  eexists. split; [apply wr_in_range; lia|].
  split; [by rewrite length_insert|].
  intros x' y' Hg' Hblocked.
  apply is_blocked_insert in Hblocked as [[Hidx _] | Hold]; [|by apply Hbb|done].
  apply cell_index_nat_inj in Hidx as [<- <-]; try done.
  unfold gridWidth, gridHeight in *. lia.
Qed.

(** The random map never writes outside the array, and it leaves every
    cell outside the columns [13 .. 67] and the rows [13 .. 32] free,
    whatever the array held before. *)
Theorem randomize_spec (GetRandomValue : nat -> Z) (blockedCells : list Z) :
  random_ok GetRandomValue ->
  Z.of_nat (length blockedCells) = cells ->
  exists randomized,
    randomize GetRandomValue blockedCells = Done randomized /\
    Z.of_nat (length randomized) = cells /\
    blocks_in_box randomized.
Proof.
  intros Hrnd Hlen. unfold randomize.
  destruct (clear_blocks_spec blockedCells Hlen) as (cleared & -> & Hl & Hfree).
  rewrite bind_done.
  apply (for_each_preserves
           (fun b => Z.of_nat (length b) = cells /\ blocks_in_box b)).
  - split; [done|]. intros x y Hg Hb. rewrite Hfree in Hb by done. discriminate.
  - intros b i Hi [Hbl Hbb].
    apply list_elem_of_In, in_seq in Hi.
    destruct (Hrnd i ltac:(lia)) as (Hx & Hy & Hs & _).
    by apply stamp_spec.
Qed.

Lemma idle_input_random_ok : random_ok (randomValue idle_input).
Proof.
  intros i Hi. unfold idle_input. cbn [randomValue].
  assert ((4 * i) mod 4 = 0 /\ (4 * i + 1) mod 4 = 1 /\
          (4 * i + 2) mod 4 = 2 /\ (4 * i + 3) mod 4 = 3)%nat
    as (-> & -> & -> & ->).
  { pose proof (Nat.div_mod_eq (4 * i) 4).
    pose proof (Nat.div_mod_eq (4 * i + 1) 4).
    pose proof (Nat.div_mod_eq (4 * i + 2) 4).
    pose proof (Nat.div_mod_eq (4 * i + 3) 4).
    pose proof (Nat.mod_upper_bound (4 * i) 4 ltac:(lia)).
    pose proof (Nat.mod_upper_bound (4 * i + 1) 4 ltac:(lia)).
    pose proof (Nat.mod_upper_bound (4 * i + 2) 4 ltac:(lia)).
    pose proof (Nat.mod_upper_bound (4 * i + 3) 4 ltac:(lia)).
    lia. }
  unfold gridWidth, gridHeight. lia.
Qed.

Lemma randomize_spec_witness :
  exists randomized,
    randomize (randomValue idle_input) (replicate (Z.to_nat cells) 1)
      = Done randomized /\
    Z.of_nat (length randomized) = cells /\
    blocks_in_box randomized.
Proof.
  apply (randomize_spec (randomValue idle_input) (replicate (Z.to_nat cells) 1)).
  - exact idle_input_random_ok.
  - reflexivity.
Defined.

(** ** The random map leaves a way round *)

Lemma chebyshev_least sdfFunction dx dy :
  Z.max (Z.abs dx) (Z.abs dy) <= distance_metric sdfFunction dx dy.
Proof.
  unfold distance_metric. destruct (sdfFunction =? 0).
  - apply Z.max_lub; apply le_ceil_sqrt; nia.
  - destruct (sdfFunction =? 1); lia.
Qed.

(** A cell in the margin of width [6] of the grid. *)
Lemma margin_clearance blockedCells sdfFunction x y :
  blocks_in_box blockedCells ->
  in_grid x y -> x <= 5 \/ 75 <= x \/ y <= 5 \/ 40 <= y ->
  8 <= spec_clearance blockedCells sdfFunction x y.
Proof.
  intros Hbox Hg Hm.
  destruct (spec_clearance_minimum blockedCells sdfFunction x y) as (_ & _ & Hatt).
  destruct Hatt as [-> | (bx & by' & Hgb & Hb & ->)]; [lia|].
  destruct (Hbox bx by' Hgb Hb) as [Hx Hy].
  pose proof (chebyshev_least sdfFunction (bx - x) (by' - y)). lia.
Qed.

Lemma unit_step_reachable sdfCells unitSize enableJumping startX startY x y dx dy cs v :
  reachable sdfCells unitSize enableJumping startX startY x y ->
  Z.abs dx + Z.abs dy = 1 ->
  clearance_at sdfCells x y = Some cs ->
  in_grid (x + dx) (y + dy) ->
  clearance_at sdfCells (x + dx) (y + dy) = Some v ->
  unitSize <= v ->
  reachable sdfCells unitSize enableJumping startX startY (x + dx) (y + dy).
Proof.
  intros Hr Hd Hcs Hg Hv Hu.
  apply (reach_step sdfCells unitSize enableJumping startX startY x y
           (mkOffset dx dy 1) cs v); try done.
  - apply in_neighborOffsets; simpl; nia.
  - unfold passable, max_distance. simpl. split_and!; try done; try lia.
    destruct (cs - unitSize <? 1) eqn:E; [lia | apply Z.ltb_ge in E; lia].
Qed.

(** Straight walks through cells that are wide enough. *)
Lemma line_reachable sdfCells unitSize enableJumping startX startY dx dy (n : nat) :
  Z.of_nat (length sdfCells) = cells ->
  Z.abs dx + Z.abs dy = 1 ->
  forall x y,
    reachable sdfCells unitSize enableJumping startX startY x y ->
    in_grid x y ->
    (forall i, 1 <= i <= Z.of_nat n ->
       in_grid (x + i * dx) (y + i * dy) /\
       exists v, clearance_at sdfCells (x + i * dx) (y + i * dy) = Some v /\
                 unitSize <= v) ->
    reachable sdfCells unitSize enableJumping startX startY
              (x + Z.of_nat n * dx) (y + Z.of_nat n * dy).
Proof.
  intros Hlen Hd. induction n as [|n IH]; intros x y Hr Hg Hline.
  - replace (x + Z.of_nat 0 * dx) with x by lia.
    replace (y + Z.of_nat 0 * dy) with y by lia. done.
  - destruct (Hline 1 ltac:(lia)) as (Hg1 & v & Hv & Hu).
    rewrite !Z.mul_1_l in Hg1, Hv.
    destruct (lookup_lt_is_Some_2 sdfCells (Z.to_nat (cell_index x y))) as [cs Hcs].
    { pose proof (cell_index_range _ _ Hg). lia. }
    pose proof (unit_step_reachable _ _ _ _ _ _ _ _ _ _ _ Hr Hd Hcs Hg1 Hv Hu) as Hr1.
    specialize (IH (x + dx) (y + dy) Hr1 Hg1).
    replace (x + Z.of_nat (S n) * dx) with (x + dx + Z.of_nat n * dx) by lia.
    replace (y + Z.of_nat (S n) * dy) with (y + dy + Z.of_nat n * dy) by lia.
    apply IH. intros i Hi.
    replace (x + dx + i * dx) with (x + (i + 1) * dx) by lia.
    replace (y + dy + i * dy) with (y + (i + 1) * dy) by lia.
    apply Hline. lia.
Qed.

(** The cells of the margin are connected: the end point of the agents is
    reached from their start point, whatever lies in the box. *)
Lemma margin_reachable sdfCells unitSize enableJumping :
  Z.of_nat (length sdfCells) = cells ->
  (forall x y, in_grid x y -> x <= 5 \/ 75 <= x \/ y <= 5 \/ 40 <= y ->
     exists v, clearance_at sdfCells x y = Some v /\ unitSize <= v) ->
  reachable sdfCells unitSize enableJumping 75 25 5 25.
Proof.
  intros Hlen Hmargin.
  assert (forall x y, 0 <= x < 80 -> 0 <= y < 45 -> in_grid x y) as Hin
      by (unfold in_grid, gridWidth, gridHeight; lia).
  assert (reachable sdfCells unitSize enableJumping 75 25 75 5) as H1.
  { apply (line_reachable sdfCells unitSize enableJumping 75 25 0 (-1) 20 Hlen
             ltac:(lia) 75 25); [constructor | apply Hin; lia |].
    intros i Hi. split; [apply Hin; lia|]. apply Hmargin; [apply Hin|]; lia. }
  assert (reachable sdfCells unitSize enableJumping 75 25 5 5) as H2.
  { apply (line_reachable sdfCells unitSize enableJumping 75 25 (-1) 0 70 Hlen
             ltac:(lia) 75 5 H1); [apply Hin; lia |].
    intros i Hi. split; [apply Hin; lia|]. apply Hmargin; [apply Hin|]; lia. }
  apply (line_reachable sdfCells unitSize enableJumping 75 25 0 1 20 Hlen
           ltac:(lia) 5 5 H2); [apply Hin; lia |].
  intros i Hi. split; [apply Hin; lia|]. apply Hmargin; [apply Hin|]; lia.
Qed.

Lemma reachable_goal_found
    sdfCells toX toY startX startY unitSize sdfFactor enableJumping map fuel r :
  Z.of_nat (length sdfCells) = cells ->
  Z.of_nat (length map) = cells ->
  in_grid startX startY ->
  in_grid toX toY ->
  0 <= sdfFactor ->
  Forall (fun v => 0 <= v) sdfCells ->
  FindPath sdfCells toX toY startX startY unitSize sdfFactor enableJumping fuel map
    = Done r ->
  res_overflowed r = false ->
  reachable sdfCells unitSize enableJumping startX startY toX toY ->
  0 < pathLength r.
Proof.
  intros Hsdf Hmap Hstart Hgoal Hf Hc Hr Hno Hreach.
  destruct (FindPath_final_state sdfCells toX toY startX startY unitSize sdfFactor
              enableJumping map Hsdf Hmap Hstart Hgoal Hf Hc fuel r Hr)
    as (st & _ & Hsh & Hsc & Hq & Hm & Hov & _ & Hset).
  edestruct FindPath_result
    with (startX := startX) (toX := toX) (r := r) (map := map)
    as (goal & start & Hg & _ & _ & _ & Hpl & Hcases); eauto.
  rewrite Hno in Hov. specialize (Hset (eq_sym Hov)).
  edestruct settled_complete
    with (st := st) (x := toX) (y := toY) (startX := startX) (startY := startY)
         (unitSize := unitSize) (sdfFactor := sdfFactor)
    as (e & He & He1); eauto.
  rewrite Hm in Hg. assert (e = goal) as -> by congruence.
  destruct Hcases as [[Hs _] | (_ & walked & Hp & _)]; [lia|].
  rewrite Hpl, Hp, length_app. simpl. lia.
Qed.

(** When every blocked cell lies in the box of the random map, as after
    the R key, both agents find a path, whatever the metric, the wall
    factor of the rat and the jumping mode, unless the search logs a queue
    overflow. *)
Theorem random_map_has_paths
    (blockedCells : list Z) (sdfFunction ratWallFactor jumpingEnabled : Z)
    (mapRat mapCat : list PathfindingNode) :
  Z.of_nat (length blockedCells) = cells ->
  blocks_in_box blockedCells ->
  0 <= sdfFunction <= 2 ->
  0 <= ratWallFactor <= 7 ->
  Z.of_nat (length mapRat) = cells ->
  Z.of_nat (length mapCat) = cells ->
  exists sdfCells,
    UpdateSDF blockedCells sdfFunction = Done sdfCells /\
    (forall fuel r,
       rat_search sdfCells ratWallFactor jumpingEnabled fuel mapRat = Done r ->
       res_overflowed r = false -> 0 < pathLength r) /\
    (forall fuel r,
       cat_search sdfCells jumpingEnabled fuel mapCat = Done r ->
       res_overflowed r = false -> 0 < pathLength r).
Proof.
  intros Hlen Hbox Hfn Hf HmR HmC.
  destruct (UpdateSDF_spec blockedCells sdfFunction Hlen Hfn)
    as (sdf & Hrun & Hsl & Hval).
  destruct (rebuilt_clearance_nonneg _ _ _ Hlen Hfn Hrun) as [_ Hrange].
  pose proof (clearance_range_nonneg sdf Hrange) as Hc0.
  assert (in_grid 5 25 /\ in_grid 75 25) as [Hs He]
      by (unfold in_grid, gridWidth, gridHeight; lia).
  assert (forall unitSize, unitSize <= 2 ->
            reachable sdf unitSize jumpingEnabled 75 25 5 25) as Hreach.
  { intros unitSize Hu. apply margin_reachable; [done|].
    intros x y Hg Hm. exists (spec_clearance blockedCells sdfFunction x y).
    split; [by apply Hval|].
    pose proof (margin_clearance blockedCells sdfFunction x y Hbox Hg Hm). lia. }
  exists sdf. split; [done|]. split.
  - intros fuel r Hr Hno. unfold rat_search in Hr.
    apply (reachable_goal_found sdf pathRatStartX pathRatStartY
             pathRatEndX pathRatEndY 1 ratWallFactor jumpingEnabled mapRat fuel r);
      first [exact Hsl | exact HmR | exact He | exact Hs | exact Hc0 | exact Hr
            | exact Hno | lia | apply Hreach; lia].
  - intros fuel r Hr Hno. unfold cat_search in Hr.
    apply (reachable_goal_found sdf pathCatStartX pathCatStartY
             pathCatEndX pathCatEndY 2 0 jumpingEnabled mapCat fuel r);
      first [exact Hsl | exact HmC | exact He | exact Hs | exact Hc0 | exact Hr
            | exact Hno | lia | apply Hreach; lia].
Qed.

Lemma blocks_in_box_replicate : blocks_in_box (replicate (Z.to_nat cells) 0).
Proof. intros x y _ Hb. rewrite is_blocked_replicate in Hb. discriminate. Qed.

Lemma random_map_has_paths_witness :
  exists sdfCells,
    UpdateSDF (replicate (Z.to_nat cells) 0) 0 = Done sdfCells /\
    (forall fuel r,
       rat_search sdfCells 2 1 fuel fresh_map = Done r ->
       res_overflowed r = false -> 0 < pathLength r) /\
    (forall fuel r,
       cat_search sdfCells 1 fuel fresh_map = Done r ->
       res_overflowed r = false -> 0 < pathLength r).
Proof.
  apply (random_map_has_paths (replicate (Z.to_nat cells) 0) 0 2 1
           fresh_map fresh_map).
  - reflexivity.
  - exact blocks_in_box_replicate.
  - lia.
  - lia.
  - reflexivity.
  - reflexivity.
Defined.

(** ** A frame of [main] *)

Lemma FindPath_more_fuel
    sdfCells toX toY startX startY unitSize sdfFactor enableJumping fuel extra map r :
  FindPath sdfCells toX toY startX startY unitSize sdfFactor enableJumping fuel map
    = Done r ->
  FindPath sdfCells toX toY startX startY unitSize sdfFactor enableJumping
           (fuel + extra) map = Done r.
Proof.
  unfold FindPath. destruct (init_search startX startY map) as [st0| |];
    cbn [mbind outcome_bind]; try discriminate.
  destruct (search sdfCells unitSize sdfFactor enableJumping fuel st0) as [st| |] eqn:E;
    cbn [mbind outcome_bind]; try discriminate.
  by rewrite (search_more_fuel _ _ _ _ _ _ _ extra E).
Qed.

(** What a search leaves in the arrays of its agent. *)
Lemma search_result_stored
    sdfCells toX toY startX startY unitSize sdfFactor enableJumping fuel map r old :
  Z.of_nat (length sdfCells) = cells ->
  Z.of_nat (length map) = cells ->
  in_grid startX startY ->
  in_grid toX toY ->
  0 <= sdfFactor ->
  Forall (fun v => 0 <= v) sdfCells ->
  Z.of_nat (length old) = 4 * cells ->
  FindPath sdfCells toX toY startX startY unitSize sdfFactor enableJumping fuel map
    = Done r ->
  Z.of_nat (length (res_map r)) = cells /\
  exists stored,
    store_path r old = Done stored /\
    Z.of_nat (length stored) = 4 * cells /\
    search_stored r (res_map r) stored (pathLength r).
Proof.
  intros Hsdf Hmap Hstart Hgoal Hf Hc Hold Hr.
  destruct (FindPath_final_state sdfCells toX toY startX startY unitSize sdfFactor
              enableJumping map Hsdf Hmap Hstart Hgoal Hf Hc fuel r Hr)
    as (st & _ & Hsh & _ & _ & Hm & _).
  destruct (FindPath_result sdfCells toX toY startX startY unitSize sdfFactor
              enableJumping map Hsdf Hmap Hstart Hgoal fuel r Hr)
    as (goal & start & _ & _ & _ & _ & _ & Hcases).
  split; [rewrite Hm; apply Hsh|].
  assert (Z.of_nat (length (path r)) <= Z.of_nat (length old)) as Hfit.
  { assert (0 < cells) by (unfold cells, gridWidth, gridHeight; lia).
    destruct Hcases as [[_ ->] | (_ & walked & -> & Hw & _)].
    - simpl. lia.
    - rewrite length_app. simpl. lia. }
  unfold store_path. apply Z.leb_le in Hfit as Hfit'. rewrite Hfit'.
  eexists. split; [done|]. split.
  - rewrite length_app, length_drop. lia.
  - split_and!; [done | done |]. by rewrite take_app_length.
Qed.

Lemma kept_refl a : kept a a.
Proof. by right. Qed.

Lemma kept_trans a b c : kept a b -> kept b c -> kept a c.
Proof.
  intros Hab [Hc | [Hc Hu]]; [by left|].
  destruct Hab as [Hb | [Hb Hu']]; [left; congruence|].
  right. split; congruence.
Qed.

Lemma fresh_config a b : config a = config b -> fresh a -> fresh b.
Proof.
  destruct a, b. unfold config, fresh. cbn. intros Hc. by simplify_eq.
Qed.

Lemma on_mouse_spec inp a :
  app_ok a -> input_ok inp ->
  exists a', on_mouse inp a = Done a' /\ app_ok a' /\ kept a a' /\
             app_randomizeBlocks a' = app_randomizeBlocks a.
Proof.
  intros Hok [Hmouse _]. unfold on_mouse.
  assert (exists a1, (if mousePressed inp
                      then b ← rd (app_blockedCells a)
                                  (cellY inp * gridWidth + cellX inp);
                           Done (set_paintMode (if b =? 1 then 0 else 1) a)
                      else Done a) = Done a1 /\
                     app_ok a1 /\ kept a a1 /\
                     app_randomizeBlocks a1 = app_randomizeBlocks a)
    as (a1 & -> & Hok1 & Hk1 & Hr1).
  { destruct (mousePressed inp) eqn:Hp.
    - destruct (Hmouse (or_introl eq_refl)) as [Hx Hy].
      destruct (rd_in_range (app_blockedCells a) (cellY inp * gridWidth + cellX inp))
        as (b & -> & _).
      { destruct Hok as (-> & _). unfold cells, gridWidth, gridHeight in *. nia. }
      rewrite bind_done. eexists. split; [done|].
      destruct a. split_and!; [exact Hok | by right | done].
    - exists a. split_and!; [done | done | apply kept_refl | done]. }
  rewrite bind_done. destruct (mouseDown inp) eqn:Hd.
  - destruct (Hmouse (or_intror eq_refl)) as [Hx Hy].
    rewrite wr_in_range.
    2:{ destruct Hok1 as (-> & _). unfold cells, gridWidth, gridHeight in *. nia. }
    rewrite bind_done. eexists. split; [done|].
    destruct a1. cbn in *. split_and!; [| by left | done].
    destruct Hok1 as (Hb & Hrest). split; [|exact Hrest].
    cbn in *. by rewrite length_insert.
  - exists a1. split_and!; done.
Qed.

Lemma clear_blocks_length blockedCells :
  Z.of_nat (length blockedCells) = cells ->
  exists cleared,
    clear_blocks blockedCells = Done cleared /\
    Z.of_nat (length cleared) = cells.
Proof.
  intros Hlen. destruct (clear_blocks_spec blockedCells Hlen) as (c & ? & ? & _).
  by exists c.
Qed.

Lemma next_setting v n : 0 <= v -> 0 < n -> 0 <= Z.rem (v + 1) n <= n - 1.
Proof. intros Hv Hn. pose proof (Z.rem_bound_pos (v + 1) n). lia. Qed.

Lemma on_keys_spec inp a :
  app_ok a ->
  exists a', on_keys inp a = Done a' /\ app_ok a' /\ kept a a' /\
             (app_randomizeBlocks a' = app_randomizeBlocks a \/
              app_randomizeBlocks a' = 1).
Proof.
  intros Hok. unfold on_keys.
  assert (exists a1, (if keyC inp
                      then blocked ← clear_blocks (app_blockedCells a);
                           Done (set_updateSDF 1 (set_blockedCells blocked a))
                      else Done a) = Done a1 /\
                     app_ok a1 /\ kept a a1 /\
                     app_randomizeBlocks a1 = app_randomizeBlocks a)
    as (a1 & -> & Hok1 & Hk1 & Hr1).
  { destruct (keyC inp).
    - destruct (clear_blocks_length (app_blockedCells a)) as (c & -> & Hc);
        [apply Hok|].
      rewrite bind_done. eexists. split; [done|].
      destruct a. cbn in *. split_and!; [| by left | done].
      destruct Hok as (_ & Hrest). by split.
    - exists a. split_and!; [done | done | apply kept_refl | done]. }
  rewrite bind_done. eexists. split; [done|].
  rewrite <- Hr1. clear Hr1.
  cut (forall b, app_ok b -> kept a b ->
         let b' := if keyV inp then set_visualizeMode (app_visualizeMode b + 1) b
                   else b in
         app_ok b' /\ kept a b' /\ app_randomizeBlocks b' = app_randomizeBlocks b).
  { intros HV.
    destruct (HV a1 Hok1 Hk1) as (Hok2 & Hk2 & Hr2). cbn zeta in *.
    set (a2 := if keyV inp then _ else _) in *. clearbody a2. rewrite <- Hr2.
    clear Hr2 HV Hok1 Hk1 a1.
    assert (0 <= app_ratWallFactor a2 <= 7 /\ 0 <= app_sdfFunction a2 <= 2)
      as [HwQ HfS] by (destruct Hok2 as (_ & _ & _ & _ & _ & ? & ?); done).
    pose proof (next_setting (app_ratWallFactor a2) 8 ltac:(lia) ltac:(lia)) as HQ.
    pose proof (next_setting (app_sdfFunction a2) 3 ltac:(lia) ltac:(lia)) as HS.
    destruct a2 as [b0 s0 mr pr lr wf mc pc lc vm rb pm us fn je]. cbn in *.
    destruct Hok2 as (Hb & HmR & HmC & HpR & HpC & Hwf & Hfn).
    unfold kept in *. cbn in Hk2.
    destruct (keyQ inp), (keyR inp), (keyS inp), (keyJ inp); cbn;
      (split; [unfold app_ok; cbn; split_and!; first [done | lia] |]);
      (split; [first [by left | exact Hk2] |]);
      first [by left | by right]. }
  intros b Hb Hkb. destruct (keyV inp); cbn zeta.
  - destruct b. split_and!; [exact Hb | | done].
    destruct Hkb as [Hkb | Hkb]; [by left | by right].
  - done.
Qed.

Lemma randomize_length GetRandomValue blockedCells :
  random_ok GetRandomValue ->
  Z.of_nat (length blockedCells) = cells ->
  exists randomized,
    randomize GetRandomValue blockedCells = Done randomized /\
    Z.of_nat (length randomized) = cells.
Proof.
  intros Hrnd Hlen. unfold randomize.
  destruct (clear_blocks_spec blockedCells Hlen) as (cleared & -> & Hl & Hfree).
  rewrite bind_done.
  destruct (for_each_preserves
              (fun b => Z.of_nat (length b) = cells /\ blocks_in_box b)
              (fun b i =>
                 stamp (GetRandomValue (4 * i)%nat) (GetRandomValue (4 * i + 1)%nat)
                       (GetRandomValue (4 * i + 2)%nat)
                       (GetRandomValue (4 * i + 3)%nat) b)
              (seq 0 40) cleared) as (b & Hb & Hbl & _).
  - split; [done|]. intros x y Hg Hb. rewrite Hfree in Hb by done. discriminate.
  - intros b i Hi [Hbl Hbb].
    apply list_elem_of_In, in_seq in Hi.
    destruct (Hrnd i ltac:(lia)) as (Hx & Hy & Hs & _).
    by apply stamp_spec.
  - by exists b.
Qed.

Lemma on_randomize_spec inp a :
  app_ok a -> input_ok inp ->
  exists a', on_randomize inp a = Done a' /\ app_ok a' /\ kept a a' /\
             app_randomizeBlocks a' = 0.
Proof.
  intros Hok [_ Hrnd]. unfold on_randomize.
  destruct (app_randomizeBlocks a =? 0) eqn:E.
  - apply Z.eqb_eq in E. exists a. split_and!; [done | done | apply kept_refl | done].
  - destruct (randomize_length (randomValue inp) (app_blockedCells a) Hrnd)
      as (b & -> & Hb); [apply Hok|].
    rewrite bind_done. eexists. split; [done|].
    destruct a. cbn in *. split_and!; [| by left | done].
    destruct Hok as (_ & Hrest). by split.
Qed.

Lemma ends_in_grid :
  in_grid pathRatStartX pathRatStartY /\ in_grid pathRatEndX pathRatEndY /\
  in_grid pathCatStartX pathCatStartY /\ in_grid pathCatEndX pathCatEndY.
Proof. unfold in_grid, gridWidth, gridHeight. cbv. split_and!; congruence. Qed.

Lemma on_updateSDF_result fuel a a' :
  app_ok a ->
  on_updateSDF fuel a = Done a' ->
  app_ok a' /\ app_updateSDF a' = 0 /\
  app_randomizeBlocks a' = app_randomizeBlocks a /\
  (app_updateSDF a = 0 -> a' = a) /\
  (app_updateSDF a <> 0 -> fresh a').
Proof.
  intros Hok. unfold on_updateSDF.
  destruct (app_updateSDF a =? 0) eqn:E.
  - apply Z.eqb_eq in E. intros [= <-]. split_and!; try done.
  - apply Z.eqb_neq in E.
    destruct Hok as (Hb & HmR & HmC & HpR & HpC & Hwf & Hfn).
    destruct (UpdateSDF (app_blockedCells a) (app_sdfFunction a)) as [sdf| |] eqn:Hsdf;
      cbn [mbind outcome_bind]; try discriminate.
    destruct (rebuilt_clearance_nonneg _ _ _ Hb Hfn Hsdf) as [Hsl Hrange].
    pose proof (clearance_range_nonneg sdf Hrange) as Hc0.
    destruct ends_in_grid as (HRs & HRe & HCs & HCe).
    destruct (rat_search sdf (app_ratWallFactor a) (app_jumpingEnabled a) fuel
                         (app_mapRat a)) as [rat| |] eqn:Hrat;
      cbn [mbind outcome_bind]; try discriminate.
    destruct (search_result_stored sdf _ _ _ _ _ _ _ fuel (app_mapRat a) rat
                (app_pathRat a) Hsl HmR HRe HRs (proj1 Hwf) Hc0 HpR Hrat)
      as (HlR & pR & -> & HlpR & HstR).
    cbn [mbind outcome_bind].
    destruct (cat_search sdf (app_jumpingEnabled a) fuel (app_mapCat a))
      as [cat| |] eqn:Hcat; cbn [mbind outcome_bind]; try discriminate.
    destruct (search_result_stored sdf _ _ _ _ _ _ _ fuel (app_mapCat a) cat
                (app_pathCat a) Hsl HmC HCe HCs (Z.le_refl 0) Hc0 HpC Hcat)
      as (HlC & pC & -> & HlpC & HstC).
    cbn [mbind outcome_bind]. intros [= <-]. cbn.
    split_and!; try done.
    intros _. unfold fresh. cbn. split_and!; [done | |].
    + by exists fuel, (app_mapRat a), rat.
    + by exists fuel, (app_mapCat a), cat.
Qed.

Lemma on_updateSDF_runs a :
  app_ok a -> exists fuel a', on_updateSDF fuel a = Done a'.
Proof.
  intros Hok. unfold on_updateSDF.
  destruct (app_updateSDF a =? 0) eqn:E; [by exists 0%nat, a|].
  destruct Hok as (Hb & HmR & HmC & HpR & HpC & Hwf & Hfn).
  destruct (UpdateSDF_spec (app_blockedCells a) (app_sdfFunction a) Hb Hfn)
    as (sdf & Hsdf & Hsl & _).
  destruct (rebuilt_clearance_nonneg _ _ _ Hb Hfn Hsdf) as [_ Hrange].
  pose proof (clearance_range_nonneg sdf Hrange) as Hc0.
  destruct ends_in_grid as (HRs & HRe & HCs & HCe).
  destruct (FindPath_terminates sdf pathRatStartX pathRatStartY pathRatEndX
              pathRatEndY 1 (app_ratWallFactor a) (app_jumpingEnabled a)
              (app_mapRat a) Hsl HmR HRe HRs (proj1 Hwf) Hc0) as (f1 & rat & Hrat).
  destruct (FindPath_terminates sdf pathCatStartX pathCatStartY pathCatEndX
              pathCatEndY 2 0 (app_jumpingEnabled a)
              (app_mapCat a) Hsl HmC HCe HCs (Z.le_refl 0) Hc0) as (f2 & cat & Hcat).
  apply (FindPath_more_fuel _ _ _ _ _ _ _ _ _ f2) in Hrat.
  apply (FindPath_more_fuel _ _ _ _ _ _ _ _ _ f1) in Hcat.
  rewrite (Nat.add_comm f2 f1) in Hcat.
  destruct (search_result_stored sdf _ _ _ _ _ _ _ _ (app_mapRat a) rat
              (app_pathRat a) Hsl HmR HRe HRs (proj1 Hwf) Hc0 HpR Hrat)
    as (_ & pR & HpR' & _).
  destruct (search_result_stored sdf _ _ _ _ _ _ _ _ (app_mapCat a) cat
              (app_pathCat a) Hsl HmC HCe HCs (Z.le_refl 0) Hc0 HpC Hcat)
    as (_ & pC & HpC' & _).
  exists (f1 + f2)%nat. rewrite Hsdf. cbn [mbind outcome_bind].
  unfold rat_search, cat_search. rewrite Hrat. cbn [mbind outcome_bind].
  rewrite HpR'. cbn [mbind outcome_bind]. rewrite Hcat. cbn [mbind outcome_bind].
  rewrite HpC'. cbn [mbind outcome_bind]. by eexists.
Qed.

(** A frame of [main], before the drawing, never reads or writes outside
    an array and comes to an end.  It keeps the sizes of the arrays and
    the ranges of the settings, and when it ends no rebuild and no random
    map is pending and the state is fresh: the clearance field and the
    two paths are the ones of the blocked cells and the settings that the
    state holds, whatever the mouse and the keys did in the frame. *)
Theorem update_keeps_state_fresh (inp : Input) (a : App) :
  app_ok a ->
  input_ok inp ->
  app_updateSDF a <> 0 \/ fresh a ->
  (exists fuel a', update fuel inp a = Done a') /\
  (forall fuel a', update fuel inp a = Done a' ->
     app_ok a' /\ fresh a' /\ app_updateSDF a' = 0 /\ app_randomizeBlocks a' = 0).
Proof.
  intros Hok Hinp Hstart.
  destruct (on_mouse_spec inp a Hok Hinp) as (a1 & H1 & Hok1 & Hk1 & _).
  destruct (on_keys_spec inp a1 Hok1) as (a2 & H2 & Hok2 & Hk2 & _).
  destruct (on_randomize_spec inp a2 Hok2 Hinp) as (a3 & H3 & Hok3 & Hk3 & Hr3).
  pose proof (kept_trans _ _ _ (kept_trans _ _ _ Hk1 Hk2) Hk3) as Hk.
  assert (forall fuel, update fuel inp a = on_updateSDF fuel a3) as Hupdate.
  { intros fuel. unfold update.
    by rewrite H1, bind_done, H2, bind_done, H3, bind_done. }
  split.
  - destruct (on_updateSDF_runs a3 Hok3) as (fuel & a' & Hrun).
    exists fuel, a'. by rewrite Hupdate.
  - intros fuel a' Hrun. rewrite Hupdate in Hrun.
    destruct (on_updateSDF_result fuel a3 a' Hok3 Hrun)
      as (Hok' & Hu' & Hr' & Hsame & Hfresh).
    split_and!; [done | | done | congruence].
    destruct (Z.eq_dec (app_updateSDF a3) 0) as [Hz | Hnz]; [|by apply Hfresh].
    rewrite (Hsame Hz).
    destruct Hk as [Hone | [Hcfg Hupd]]; [lia|].
    apply (fresh_config a a3); [done|].
    destruct Hstart as [Hne | Hf]; [congruence | done].
Qed.

Lemma app_init_ok : app_ok app_init.
Proof. unfold app_ok. cbn. split_and!; first [reflexivity | lia]. Qed.

Lemma idle_input_ok : input_ok idle_input.
Proof.
  split; [|exact idle_input_random_ok].
  cbn. intros [H | H]; discriminate.
Qed.

Lemma update_keeps_state_fresh_witness :
  (exists fuel a', update fuel idle_input app_init = Done a') /\
  (forall fuel a', update fuel idle_input app_init = Done a' ->
     app_ok a' /\ fresh a' /\ app_updateSDF a' = 0 /\ app_randomizeBlocks a' = 0).
Proof.
  apply (update_keeps_state_fresh idle_input app_init).
  - exact app_init_ok.
  - exact idle_input_ok.
  - left. discriminate.
Defined.

(** ** The mouse outside the grid *)

(** The mouse handler checks neither the column nor the row of the cell
    under the mouse: with the button pressed or down it runs outside
    [blockedCells] exactly when the index [cellY * gridWidth + cellX] is
    outside the array, and a column outside the grid with an index inside
    the array is accepted. *)
Theorem on_mouse_fault_iff (inp : Input) (a : App) :
  Z.of_nat (length (app_blockedCells a)) = cells ->
  (on_mouse inp a = Fault <->
   (mousePressed inp = true \/ mouseDown inp = true) /\
   ~ 0 <= cellY inp * gridWidth + cellX inp < cells) /\
  on_mouse inp a <> Timeout.
Proof.
  intros Hlen. unfold on_mouse.
  set (i := cellY inp * gridWidth + cellX inp).
  destruct (decide (0 <= i < cells)) as [Hin | Hout].
  - assert (exists a1, (if mousePressed inp
                        then b ← rd (app_blockedCells a) i;
                             Done (set_paintMode (if b =? 1 then 0 else 1) a)
                        else Done a) = Done a1 /\
                       app_blockedCells a1 = app_blockedCells a)
      as (a1 & -> & Hb).
    { destruct (mousePressed inp).
      - destruct (rd_in_range (app_blockedCells a) i) as (b & -> & _); [lia|].
        rewrite bind_done. eexists. split; [done|]. by destruct a.
      - by exists a. }
    rewrite bind_done. destruct (mouseDown inp).
    + rewrite wr_in_range by (rewrite Hb; lia). rewrite bind_done.
      split; [|done]. split; [done | tauto].
    + split; [|done]. split; [done | tauto].
  - destruct (mousePressed inp) eqn:Hp.
    + assert (rd (app_blockedCells a) i = Fault) as ->.
      { unfold rd. destruct (0 <=? i) eqn:E; [|done]. apply Z.leb_le in E.
        rewrite lookup_ge_None_2; [done | lia]. }
      cbn [mbind outcome_bind]. split; [|done]. split; [tauto | done].
    + rewrite bind_done. destruct (mouseDown inp) eqn:Hd.
      * assert (wr (app_blockedCells a) i (app_paintMode a) = Fault) as ->.
        { unfold wr. destruct (0 <=? i) eqn:E1; [|done].
          destruct (i <? Z.of_nat (length (app_blockedCells a))) eqn:E2; [|done].
          apply Z.leb_le in E1. apply Z.ltb_lt in E2. lia. }
        cbn [mbind outcome_bind]. split; [|done]. split; [tauto | done].
      * split; [|done]. split; [done|]. intros [[H | H] _]; discriminate.
Qed.

Lemma on_mouse_fault_iff_witness :
  (on_mouse (mkInput 0 45 false true false false false false false false
                     (fun _ => 0)) app_init = Fault <->
   (false = true \/ true = true) /\ ~ 0 <= 45 * gridWidth + 0 < cells) /\
  on_mouse (mkInput 0 45 false true false false false false false false
                    (fun _ => 0)) app_init <> Timeout.
Proof.
  apply (on_mouse_fault_iff
           (mkInput 0 45 false true false false false false false false
                    (fun _ => 0)) app_init).
  reflexivity.
Defined.

Lemma two_cell_field_range : Forall (fun v => 0 <= v <= 10) two_cell_field.
Proof.
  unfold two_cell_field.
  apply Forall_cons_2; [lia|]. apply Forall_cons_2; [lia|].
  apply Forall_replicate. lia.
Qed.

Lemma scores_fit_int_witness :
  Forall (fun e => 0 <= score e <= 1 + max_step_cost * (cells - 1))
         (st_map two_cell_state_1) /\
  Forall (fun m => 1 <= score m <= 1 + max_step_cost * (cells - 1))
         (st_queue two_cell_state_1) /\
  forall node off cs v,
    dequeued two_cell_state_1 = Some node ->
    off ∈ neighborOffsets ->
    clearance_at two_cell_field (nx node) (ny node) = Some cs ->
    clearance_at two_cell_field (nx node + ox off) (ny node + oy off) = Some v ->
    Forall int_range (score_values 0 (score node) cs v (distance off)).
Proof.
  apply (scores_fit_int two_cell_field 0 0 1 0 1 fresh_map
           two_cell_state_0 two_cell_state_1 1).
  - reflexivity.
  - reflexivity.
  - unfold in_grid, gridWidth, gridHeight. lia.
  - lia.
  - exact two_cell_field_range.
  - vm_compute. reflexivity.
  - vm_compute. reflexivity.
Defined.

Lemma main_searches_witness :
  (exists fuel r, rat_search enclosure_field 2 1 fuel fresh_map = Done r) /\
  (exists fuel r, cat_search enclosure_field 1 fuel fresh_map = Done r) /\
  (forall fuel r,
     rat_search enclosure_field 2 1 fuel fresh_map = Done r ->
     0 < pathLength r ->
     exists first final,
       head (path r) = Some first /\
       nx first = pathRatStartX /\ ny first = pathRatStartY /\
       last (path r) = Some final /\
       nx final = pathRatEndX /\ ny final = pathRatEndY) /\
  (forall fuel r,
     cat_search enclosure_field 1 fuel fresh_map = Done r ->
     0 < pathLength r ->
     exists first final,
       head (path r) = Some first /\
       nx first = pathCatStartX /\ ny first = pathCatStartY /\
       last (path r) = Some final /\
       nx final = pathCatEndX /\ ny final = pathCatEndY).
Proof.
  apply (main_searches enclosure_blocked enclosure_field 0 2 1 fresh_map fresh_map).
  - reflexivity.
  - lia.
  - lia.
  - reflexivity.
  - reflexivity.
  - vm_compute. reflexivity.
Defined.
